(** * Email-Automation: list creation and email cloning against the CRM API

    A shallow embedding of the campaign pipeline of [routes/hubspotRoute.js]
    (paginated fetch, chunked upload, campaign allocation, campaign runner) and
    of the clone scheduler of the cloner route, with the properties the
    specification states about them. *)

From Stdlib Require Import ZArith Lia Bool Ascii DecimalString DecimalPos.
From Stdlib Require Import SpecFloat.
From stdpp Require Import base list gmap sets strings.

#[local] Set Warnings "-clear-no-such-hyp".

Local Open Scope Z_scope.

(** ** JavaScript built-ins used by the routes *)

Module JS.

(** [Array.prototype.slice(start, end)] for integer arguments: a negative
    index counts from the end, both are clamped to the array. *)
Definition slice {A} (arr : list A) (s e : Z) : list A :=
  let len := Z.of_nat (length arr) in
  let from := if s <? 0 then Z.max (len + s) 0 else Z.min s len in
  let to := if e <? 0 then Z.max (len + e) 0 else Z.min e len in
  take (Z.to_nat (to - from)) (drop (Z.to_nat from) arr).

(** [[...new Set(arr)]]: the elements in the order of their first insertion. *)
Definition set_add `{EqDecision A} (acc : list A) (x : A) : list A :=
  if decide (x ∈ acc) then acc else acc ++ [x].

Definition unique `{EqDecision A} (arr : list A) : list A :=
  foldl set_add [] arr.

(** [Math.max] and [Math.min] on integers. *)
Definition Math_max (a b : Z) : Z := Z.max a b.
Definition Math_min (a b : Z) : Z := Z.min a b.

(** A value awaited from a promise: fulfilled, or rejected with the
    message of the error. *)
Inductive completion (A : Type) : Type :=
| Return (a : A)
| Throw (message : string).
Arguments Return {A} a.
Arguments Throw {A} message.

#[export] Instance completion_ret : MRet completion := fun _ a => Return a.
#[export] Instance completion_bind : MBind completion := fun _ _ k c =>
  match c with
  | Return a => k a
  | Throw m => Throw m
  end.

(** [try { c } catch (error) { h error.message }] *)
Definition try_catch {A} (c : completion A) (h : string → completion A) : completion A :=
  match c with
  | Return a => Return a
  | Throw m => h m
  end.

Definition returns {A} (c : completion A) : Prop := ∃ a, c = Return a.

End JS.

(** ** Strings, regular expression and dates of the JavaScript engine *)

Module JSString.

Definition is_digit (a : ascii) : bool :=
  let n := N_of_ascii a in ((48 <=? n) && (n <=? 57))%N.

(** The class [\w]: letters, digits and the underscore. *)
Definition is_word (a : ascii) : bool :=
  let n := N_of_ascii a in
  (is_digit a || ((65 <=? n) && (n <=? 90)) || ((97 <=? n) && (n <=? 122)) || (n =? 95))%N.

Definition is_space (a : ascii) : bool := (N_of_ascii a =? 32)%N.

Definition digit_value (a : ascii) : Z := Z.of_N (N_of_ascii a) - 48.

(** [s.startsWith(p)], with what follows the prefix. *)
Fixpoint strip_prefix (p s : string) : option string :=
  match p, s with
  | EmptyString, _ => Some s
  | String a p', String b s' => if decide (a = b) then strip_prefix p' s' else None
  | String _ _, EmptyString => None
  end.

(** [s.replace(pattern, replacement)] for a string pattern: the first
    occurrence is replaced; the replacement has no [$] in this program. *)
Fixpoint replace (s pattern replacement : string) : string :=
  match strip_prefix pattern s with
  | Some rest => replacement +:+ rest
  | None =>
      match s with
      | EmptyString => EmptyString
      | String a s' => String a (replace s' pattern replacement)
      end
  end.

(** The regular expression [/\d{2} \w{3} \d{4}/] at the start of [s]: the
    matched text and what follows it. *)
Definition datePattern_here (s : string) : option (string * string) :=
  match s with
  | String d1 (String d2 (String s1 (String w1 (String w2 (String w3
      (String s2 (String y1 (String y2 (String y3 (String y4 rest)))))))))) =>
      if is_digit d1 && is_digit d2 && is_space s1
         && is_word w1 && is_word w2 && is_word w3 && is_space s2
         && is_digit y1 && is_digit y2 && is_digit y3 && is_digit y4
      then Some (String d1 (String d2 (String s1 (String w1 (String w2 (String w3
                   (String s2 (String y1 (String y2 (String y3 (String y4
                      EmptyString)))))))))), rest)
      else None
  | _ => None
  end.

(** [s.match(datePattern)]: the text of the leftmost match, [dateMatch[0]]. *)
Fixpoint match_datePattern (s : string) : option string :=
  match datePattern_here s with
  | Some (text, _) => Some text
  | None =>
      match s with
      | EmptyString => None
      | String _ s' => match_datePattern s'
      end
  end.

(** The character [a] occurs in [s]. *)
Fixpoint has_char (a : ascii) (s : string) : bool :=
  match s with
  | EmptyString => false
  | String b s' => bool_decide (a = b) || has_char a s'
  end.

(** [text] has the shape of [datePattern], from end to end. *)
Definition date_shaped (text : string) : Prop :=
  datePattern_here text = Some (text, EmptyString).

(** The ten digits. *)
Definition digits : list ascii :=
  ["0"; "1"; "2"; "3"; "4"; "5"; "6"; "7"; "8"; "9"]%char.

(** A number in decimal, as [String(n)] writes an integer. *)
Definition decimal (n : Z) : string := NilZero.string_of_int (Z.to_int n).

Definition two_digits (n : Z) : string :=
  if n <? 10 then "0" +:+ decimal n else decimal n.

End JSString.

Module JSDate.
Import JSString.

Definition is_leap (y : Z) : bool :=
  ((y mod 4 =? 0) && negb (y mod 100 =? 0)) || (y mod 400 =? 0).

(** Months are numbered from 0, as [getMonth] does. *)
Definition days_in_month (y m : Z) : Z :=
  if m =? 1 then (if is_leap y then 29 else 28)
  else if (m =? 3) || (m =? 5) || (m =? 8) || (m =? 10) then 30
  else 31.

Record civil := Civil { year : Z; month : Z; day : Z }.

Definition next_day (c : civil) : civil :=
  if day c <? days_in_month (year c) (month c) then Civil (year c) (month c) (day c + 1)
  else if month c <? 11 then Civil (year c) (month c + 1) 1
  else Civil (year c + 1) 0 1.

Definition prev_day (c : civil) : civil :=
  if 1 <? day c then Civil (year c) (month c) (day c - 1)
  else if 0 <? month c
       then Civil (year c) (month c - 1) (days_in_month (year c) (month c - 1))
       else Civil (year c - 1) 11 31.

(** The day [n] days after [c] (before it when [n] is negative). *)
Definition add_days (c : civil) (n : Z) : civil :=
  if 0 <=? n then Nat.iter (Z.to_nat n) next_day c
  else Nat.iter (Z.to_nat (- n)) prev_day c.

Definition valid (c : civil) : Prop :=
  0 <= month c <= 11 ∧ 1 <= day c <= days_in_month (year c) (month c).

(** A [Date] in the fields of the local clock, or [None] for the invalid
    date. The local zone is taken to have no clock change at the times
    the program touches. *)
Record fields := Fields { on : civil; hours : Z; minutes : Z }.
Definition Date := option fields.

(** [d.setDate(n)]: the day [n] of the month of [d], counted on from the
    first of that month. *)
Definition setDate (d : Date) (n : Z) : Date :=
  f ← d;
  Some (Fields (add_days (Civil (year (on f)) (month (on f)) 1) (n - 1))
               (hours f) (minutes f)).

(** [d.setHours(h, m, 0, 0)]: hours and minutes beyond the day carry
    into the date. *)
Definition setHours (d : Date) (h m : Z) : Date :=
  f ← d;
  let total := h * 60 + m in
  Some (Fields (add_days (on f) (total / 1440))
               ((total mod 1440) / 60) ((total mod 1440) mod 60)).

Definition getDate (d : Date) : option Z := f ← d; Some (day (on f)).
Definition getMonth (d : Date) : option Z := f ← d; Some (month (on f)).
Definition getFullYear (d : Date) : option Z := f ← d; Some (year (on f)).

(** [monthNames] of [routes/hubspotRoute.js]. *)
Definition monthNames : list string :=
  ["Jan"; "Feb"; "Mar"; "Apr"; "May"; "Jun"; "Jul"; "Aug"; "Sep"; "Oct"; "Nov"; "Dec"].

(** The short month names of the locale [en-GB]. *)
Definition en_GB_short : list string :=
  ["Jan"; "Feb"; "Mar"; "Apr"; "May"; "Jun"; "Jul"; "Aug"; "Sept"; "Oct"; "Nov"; "Dec"].

(** [d.toLocaleDateString("en-GB", {day: "2-digit", month: "short",
    year: "numeric"})] *)
Definition toLocaleDateString (d : Date) : string :=
  match d with
  | None => "Invalid Date"
  | Some f =>
      two_digits (day (on f)) +:+ " "
        +:+ default "" (en_GB_short !! Z.to_nat (month (on f))) +:+ " "
        +:+ decimal (year (on f))
  end.

(** The date in the form [DD Mon YYYY], with the English month. *)
Definition format_DD_Mon_YYYY (c : civil) : string :=
  two_digits (day c) +:+ " "
    +:+ default "" (monthNames !! Z.to_nat (month c)) +:+ " "
    +:+ decimal (year c).

(** Two digits are written back as they were read, and so are the four
    digits of a year from 1000 on. *)
Definition two_digits_read_back : bool :=
  forallb (fun d1 => forallb (fun d2 =>
    String.eqb (two_digits (10 * digit_value d1 + digit_value d2))
               (String d1 (String d2 EmptyString))) digits) digits.

Definition year_read_back : bool :=
  forallb (fun y1 => forallb (fun y2 => forallb (fun y3 => forallb (fun y4 =>
    let y := 1000 * digit_value y1 + 100 * digit_value y2
             + 10 * digit_value y3 + digit_value y4 in
    implb (1000 <=? y)
      (String.eqb (decimal y)
                  (String y1 (String y2 (String y3 (String y4 EmptyString))))))
    digits) digits) digits) digits.

Fixpoint index_of (name : string) (names : list string) : option Z :=
  match names with
  | [] => None
  | n :: names' => if decide (n = name) then Some 0 else Z.succ <$> index_of name names'
  end.

(** The text [DD Mon YYYY] with an English month, a day that month has
    and a year of a hundred or more, read as that day at midnight. *)
Definition parse_DD_Mon_YYYY (s : string) : option fields :=
  match s with
  | String d1 (String d2 (String s1 (String w1 (String w2 (String w3
      (String s2 (String y1 (String y2 (String y3 (String y4 EmptyString)))))))))) =>
      m ← index_of (String w1 (String w2 (String w3 EmptyString))) monthNames;
      let d := 10 * digit_value d1 + digit_value d2 in
      let y := 1000 * digit_value y1 + 100 * digit_value y2
               + 10 * digit_value y3 + digit_value y4 in
      if is_digit d1 && is_digit d2 && is_space s1 && is_space s2
         && is_digit y1 && is_digit y2 && is_digit y3 && is_digit y4
         && (1 <=? d) && (d <=? days_in_month y m) && (100 <=? y)
      then Some (Fields (Civil y m d) 0 0)
      else None
  | _ => None
  end.

(** [new Date(text)]: texts of the form above are read as said there;
    what the engine makes of any other text is [legacy text]. *)
Definition new_Date (legacy : string → Date) (text : string) : Date :=
  match parse_DD_Mon_YYYY text with
  | Some f => Some f
  | None => legacy text
  end.

End JSDate.

(** ** Numbers of the JavaScript engine: IEEE 754 binary64 *)

Module JSNumber.

Definition number := spec_float.

(** An integer as a number; exact below [2^53]. *)
Definition of_int (z : Z) : number := binary_normalize 53 1024 z 0 false.

Definition div : number → number → number := SFdiv 53 1024.
Definition mul : number → number → number := SFmul 53 1024.

(** [Math.round]: the integer nearest to [x], the upper one of two
    equally near; zero keeps the sign of [x]. *)
Definition Math_round (x : number) : number :=
  match x with
  | S754_finite s m e =>
      let v := if s then Z.neg m else Z.pos m in
      let r := if 0 <=? e then v * 2 ^ e
               else (2 * v + 2 ^ (- e)) / 2 ^ (1 - e) in
      if r =? 0 then S754_zero s else of_int r
  | _ => x
  end.

End JSNumber.

(** ** Where a number lies between two neighbours of a grid *)

Module Rounding.

(** The number [a / b] lies at, or above, the integer [shr_m mrs], as the
    round bit and the sticky bit of the record say: at it, below the
    middle of it and the next integer, at the middle, or above the
    middle. *)
Definition located (mrs : shr_record) (a b : Z) : Prop :=
  0 <= shr_m mrs
  ∧ match shr_r mrs, shr_s mrs with
    | false, false => a = shr_m mrs * b
    | false, true => shr_m mrs * b < a ∧ 2 * a < (2 * shr_m mrs + 1) * b
    | true, false => 2 * a = (2 * shr_m mrs + 1) * b
    | true, true => (2 * shr_m mrs + 1) * b < 2 * a ∧ a < (shr_m mrs + 1) * b
    end.

End Rounding.

(** ** Chunking helpers of [routes/hubspotRoute.js] *)

Module Chunks.
Import JS.

Section Chunks.
Context {A : Type}.

(** [chunkArray]: [for (i = 0; i < arr.length; i += size) push(slice(i, i + size))].
    The loop runs [fuel] times at most; [chunkArray] gives it the
    length of the array, which a positive [size] never exhausts. *)
Fixpoint chunkArray_loop (fuel : nat) (arr : list A) (size i : Z)
    (chunks : list (list A)) : list (list A) :=
  match fuel with
  | O => chunks
  | S fuel' =>
      if i <? Z.of_nat (length arr)
      then chunkArray_loop fuel' arr size (i + size) (chunks ++ [slice arr i (i + size)])
      else chunks
  end.

Definition chunkArray (arr : list A) (size : Z) : list (list A) :=
  chunkArray_loop (length arr) arr size 0 [].

(** The [while] loop of one tier of [progressiveChunks]:
    [while (index < arr.length) { chunk = slice(index, index + size);
       if (!chunk.length) break; push(chunk); index += size }]. *)
Fixpoint tier_loop (fuel : nat) (arr : list A) (size index : Z)
    (result : list (list A)) : Z * list (list A) :=
  match fuel with
  | O => (index, result)
  | S fuel' =>
      if index <? Z.of_nat (length arr) then
        let chunk := slice arr index (index + size) in
        if Nat.eqb (length chunk) 0 then (index, result)
        else tier_loop fuel' arr size (index + size) (result ++ [chunk])
      else (index, result)
  end.

(** Iterations the loop of a tier can make: a positive size advances
    [index] to the end of the array; any other size pushes once at most. *)
Definition tier_fuel (arr : list A) (size index : Z) : nat :=
  if 0 <? size then Z.to_nat (Z.of_nat (length arr) - index) else 2%nat.

Definition tier (arr : list A) (size index : Z) (result : list (list A))
    : Z * list (list A) :=
  tier_loop (tier_fuel arr size index) arr size index result.

(** [for (const size of sizes) { while ... }] *)
Fixpoint tiers (arr : list A) (sizes : list Z) (index : Z)
    (result : list (list A)) : list (list A) :=
  match sizes with
  | [] => result
  | size :: sizes' =>
      let '(index', result') := tier arr size index result in
      tiers arr sizes' index' result'
  end.

Definition default_sizes : list Z := [300; 100; 50; 1].

Definition progressiveChunks (arr : list A) (sizes : list Z) : list (list A) :=
  tiers arr sizes 0 [].

End Chunks.

(** The sizes the specification words: each tier of the schedule takes
    as many whole chunks of its size as fit in what is left, and leaves
    the rest to the next tier. *)
Fixpoint schedule_sizes (n : Z) (sizes : list Z) : list Z :=
  match sizes with
  | [] => []
  | size :: sizes' =>
      replicate (Z.to_nat (n / size)) size ++ schedule_sizes (n mod size) sizes'
  end.

(** The identifiers [first, first + 1, ...], [n] of them. *)
Definition ids (first : Z) (n : nat) : list Z :=
  map (fun k => first + Z.of_nat k) (seq 0 n).

End Chunks.


(** ** The campaign pipeline of [routes/hubspotRoute.js] *)

Module Hubspot.
Import JS Chunks.

(** [parseInt(process.env.X) || fallback]: an unset or unparsable variable
    is [NaN], and [NaN] and [0] are falsy. *)
Definition parseInt_or (env : option Z) (fallback : Z) : Z :=
  match env with
  | Some n => if n =? 0 then fallback else n
  | None => fallback
  end.

(** A document of the model [Segmentation], as the routes read it. *)
Record campaign_config := Config {
  brand : string;
  campaign : string;
  primaryListId : Z;
  secondaryListId : option Z;
  count : Z;
  domain : string;
  date : JSDate.Date;
  sendContactListId : option Z;
  lastMarketingEmailSentBrand : string
}.

(** The body of a page of [/contacts/v1/lists/:id/contacts/all]. *)
Record page := Page {
  contacts : list Z;        (* the [vid] of each of [res.data.contacts || []] *)
  has_more : bool;          (* [res.data['has-more']] *)
  vid_offset : Z            (* [res.data['vid-offset']] *)
}.

(** [maxCount]: a number, or the default [Infinity]. *)
Inductive count_bound := Finite (n : Z) | Infinity.

Definition below (len : nat) (maxCount : count_bound) : bool :=
  match maxCount with
  | Finite n => Z.of_nat len <? n
  | Infinity => true
  end.

Definition remaining (maxCount : count_bound) (len : nat) (batch : Z) : Z :=
  match maxCount with
  | Finite n => Math_min batch (n - Z.of_nat len)
  | Infinity => batch
  end.

Definition truncate (arr : list Z) (maxCount : count_bound) : list Z :=
  match maxCount with
  | Finite n => slice arr 0 n
  | Infinity => arr
  end.

Definition fetch_error (listId : Z) (message : string) : string :=
  "Unable to fetch contacts from list " +:+ JSString.decimal listId +:+ ": " +:+ message.

(** A document of the model [CreatedList]; [createdDate], the time of the
    write, is left out. *)
Record created_list := CreatedList {
  name : string;
  listId : Z;
  deleted : bool;
  filterCriteria : string * string;                 (* [days], [mode] *)
  campaignDetails : string * string * JSDate.Date;  (* [brand], [campaign], [date] *)
  contactCount : nat;
  requestedCount : Z;
  availableCount : nat;
  filteredCount : nat;
  fulfillmentPercentage : JSNumber.number
}.

(** The responses of the remote API and of the audit store during one campaign. A request is
    named by its rank among the requests of the call that makes it. *)
Record remote := Remote {
  list_page : Z → nat → Z → Z → completion page;   (* list, rank, count, vidOffset *)
  list_add : Z → nat → list Z → completion unit;   (* list, rank, vids *)
  list_create : string → completion (Z * bool);     (* name; [listId] and [deleted] *)
  batch_update : nat → list Z → completion unit;    (* rank, contact ids *)
  CreatedList_create : created_list → completion created_list
}.

(** A page of a list that holds [members] and serves them in order, as
    many as asked for while they last: the cursor is the number of
    members served before the page. *)
Definition serve (members : list Z) (count offset : Z) : page :=
  Page (slice members offset (offset + count))
       (offset + count <? Z.of_nat (length members))
       (offset + count).

Section Pipeline.
Variables RETRIEVAL_BATCH_SIZE MAX_RETRIES : Z.
Variable api : remote.

(** *** [getContactsFromList] *)

(** The [while (hasMore && allContacts.length < maxCount)] loop. [None]
    when [fuel] iterations did not reach the end of it. The timed pauses
    between requests are left out. *)
Fixpoint fetch_loop (fuel : nat) (listId : Z) (maxCount : count_bound)
    (allContacts : list Z) (hasMore : bool) (offset : Z)
    (consecutiveErrors : Z) (totalAttempts : nat)
    : option (completion (list Z)) :=
  if hasMore && below (length allContacts) maxCount then
    match fuel with
    | O => None
    | S fuel' =>
        let countToFetch := remaining maxCount (length allContacts) RETRIEVAL_BATCH_SIZE in
        let totalAttempts := S totalAttempts in
        match list_page api listId totalAttempts countToFetch offset with
        | Return res =>
            let allContacts := allContacts ++ contacts res in
            let hasMore := has_more res && below (length allContacts) maxCount in
            let offset := vid_offset res in
            if negb (below (length allContacts) maxCount)
            then Some (Return (unique (truncate allContacts maxCount)))
            else fetch_loop fuel' listId maxCount allContacts hasMore offset 0 totalAttempts
        | Throw message =>
            let consecutiveErrors := consecutiveErrors + 1 in
            if (0 <? Z.of_nat (length allContacts)) && (MAX_RETRIES <=? consecutiveErrors)
            then Some (Return (unique allContacts))
            else if (Z.of_nat (length allContacts) =? 0) && (MAX_RETRIES <=? consecutiveErrors)
            then Some (Throw (fetch_error listId message))
            else fetch_loop fuel' listId maxCount allContacts hasMore offset
                   consecutiveErrors totalAttempts
        end
    end
  else Some (Return (unique allContacts)).

Definition getContactsFromList (fuel : nat) (listId : Z) (maxCount : count_bound)
    : option (completion (list Z)) :=
  fetch_loop fuel listId maxCount [] true 0 0 0.

(** *** [createHubSpotList] *)

Definition createHubSpotList (name : string) : completion (Z * bool) :=
  try_catch (list_create api name) (fun message => Throw message).

(** *** [addContactsToList] *)

(** The counters of [addContactsToList] when it returns, and the number
    of requests it has sent. *)
Record upload := Upload {
  successCount : Z;
  failedChunks : list (list Z);
  posts : nat
}.

(** One pass of [while (retries < MAX_RETRIES && !success)]: the [try]
    block, and the [catch] block that counts the failure. *)
Definition upload_attempt (listId : Z) (chunk : list Z) (retries : Z) (u : upload)
    : completion (Z * bool * upload) :=
  let rank := S (posts u) in
  try_catch
    (_ ← list_add api listId rank chunk;
     mret (retries, true,
           Upload (successCount u + Z.of_nat (length chunk)) (failedChunks u) rank))
    (fun _ =>
       let retries := retries + 1 in
       if retries <? MAX_RETRIES
       then mret (retries, false, Upload (successCount u) (failedChunks u) rank)
       else mret (retries, false,
                  Upload (successCount u) (failedChunks u ++ [chunk]) rank)).

(** The requests for [chunk], from the one after [posts u] on, fail
    [k] times in a row. *)
Definition fails_in_a_row (listId : Z) (chunk : list Z) (u : upload) (k : nat) : Prop :=
  ∀ j, (j < k)%nat → ∃ message, list_add api listId (S (posts u + j)) chunk = Throw message.

Fixpoint upload_chunk (fuel : nat) (listId : Z) (chunk : list Z)
    (retries : Z) (success : bool) (u : upload) : completion upload :=
  if (retries <? MAX_RETRIES) && negb success then
    match fuel with
    | O => mret u
    | S fuel' =>
        '(retries, success, u) ← upload_attempt listId chunk retries u;
        upload_chunk fuel' listId chunk retries success u
    end
  else mret u.

(** [for (const [index, chunk] of chunks.entries())] *)
Fixpoint upload_chunks (listId : Z) (chunks : list (list Z)) (u : upload)
    : completion upload :=
  match chunks with
  | [] => mret u
  | chunk :: chunks' =>
      u ← upload_chunk (Z.to_nat MAX_RETRIES) listId chunk 0 false u;
      upload_chunks listId chunks' u
  end.

Definition addContactsToList (listId : Z) (contacts : list Z) : completion upload :=
  if Nat.eqb (length contacts) 0 then mret (Upload 0 [] 0)
  else upload_chunks listId (progressiveChunks contacts default_sizes) (Upload 0 [] 0).

(** *** [updateContactProperties] *)

(** The chunks whose batch update failed, each of them logged. *)
Fixpoint update_chunks (chunks : list (list Z)) (rank : nat) (failed : list (list Z))
    : completion (list (list Z)) :=
  match chunks with
  | [] => mret failed
  | chunk :: chunks' =>
      failed ← try_catch (_ ← batch_update api (S rank) chunk; mret failed)
                         (fun _ => mret (failed ++ [chunk]));
      update_chunks chunks' (S rank) failed
  end.

Definition updateContactProperties (contactIds : list Z) : completion (list (list Z)) :=
  update_chunks (chunkArray contactIds 100) 0 [].

(** *** [processSingleCampaign] *)

Definition getFormattedDate (date : JSDate.Date) : string :=
  match date with
  | None => "NaN undefined NaN"
  | Some f =>
      JSString.decimal (JSDate.day (JSDate.on f)) +:+ " "
        +:+ default "undefined"
              (JSDate.monthNames !! Z.to_nat (JSDate.month (JSDate.on f)))
        +:+ " " +:+ JSString.decimal (JSDate.year (JSDate.on f))
  end.

(** What the [try] block of the fetches has assigned when it is left,
    by its end or by an error of a fetch. *)
Record fetched := Fetched {
  primaryContacts : list Z;
  secondaryContacts : list Z;
  primaryBeforeFilter : nat;
  primaryAfterFilter : nat;
  secondaryBeforeFilter : nat;
  secondaryAfterFilter : nat
}.

Definition unused (usedContactsSet : gset Z) (vids : list Z) : list Z :=
  filter (fun vid => vid ∉ usedContactsSet) vids.

Definition fetch_contacts (fuel : nat) (config : campaign_config)
    (usedContactsSet : gset Z) : option fetched :=
  let primaryFetchCount := Math_max (count config * 3) 500 in
  primary ← getContactsFromList fuel (primaryListId config) (Finite primaryFetchCount);
  match primary with
  | Throw _ => Some (Fetched [] [] 0 0 0 0)
  | Return primaryContacts =>
      let primaryBeforeFilter := length primaryContacts in
      let primaryContacts := unused usedContactsSet primaryContacts in
      let primaryAfterFilter := length primaryContacts in
      match secondaryListId config with
      | Some secondary =>
          if (Z.of_nat primaryAfterFilter <? count config) && negb (secondary =? 0) then
            let secondaryNeeded := count config - Z.of_nat primaryAfterFilter in
            let secondaryFetchCount := Math_max (secondaryNeeded * 3) 500 in
            secondaryFetch ← getContactsFromList fuel secondary (Finite secondaryFetchCount);
            match secondaryFetch with
            | Throw _ =>
                Some (Fetched primaryContacts [] primaryBeforeFilter primaryAfterFilter 0 0)
            | Return secondaryContacts =>
                let secondaryBeforeFilter := length secondaryContacts in
                let secondaryContacts := unused usedContactsSet secondaryContacts in
                Some (Fetched primaryContacts secondaryContacts
                        primaryBeforeFilter primaryAfterFilter
                        secondaryBeforeFilter (length secondaryContacts))
            end
          else Some (Fetched primaryContacts [] primaryBeforeFilter primaryAfterFilter 0 0)
      | None => Some (Fetched primaryContacts [] primaryBeforeFilter primaryAfterFilter 0 0)
      end
  end.

(** [count > 0 ? Math.round((selectedContacts.length / count) * 100) : 0] *)
Definition fulfillment (count : Z) (selected : nat) : JSNumber.number :=
  if 0 <? count
  then JSNumber.Math_round
         (JSNumber.mul (JSNumber.div (JSNumber.of_int (Z.of_nat selected))
                                     (JSNumber.of_int count))
                       (JSNumber.of_int 100))
  else JSNumber.of_int 0.

(** The percentage as the specification words it: the integer nearest
    to [100 × selected / count], the upper one of two equally near. *)
Definition rounded_percentage (count : Z) (selected : nat) : Z :=
  (2 * (100 * Z.of_nat selected) + count) / (2 * count).

(** [100 × selected / count] lies half-way between two integers. *)
Definition half_way (count : Z) (selected : nat) : bool :=
  (200 * Z.of_nat selected) mod (2 * count) =? count.

(** The value [processSingleCampaign] returns ([success] is [true]). *)
Record campaign_result := CampaignResult {
  r_listName : string;
  r_listId : Z;
  r_contactCount : nat;
  r_requestedCount : Z;
  r_availableCount : nat;
  r_filteredCount : nat;
  r_fulfillmentPercentage : JSNumber.number;
  r_createdList : created_list
}.

(** A call of [processSingleCampaign]: the shared set as the call leaves
    it, the contacts it selected, and how it completes. *)
Record campaign_run := CampaignRun {
  used_after : gset Z;
  selectedContacts : list Z;
  outcome : completion campaign_result
}.

Definition processSingleCampaign (fuel : nat) (config : campaign_config)
    (daysFilter modeFilter : string) (usedContactsSet : gset Z)
    : option campaign_run :=
  f ← fetch_contacts fuel config usedContactsSet;
  let allContacts := primaryContacts f ++ secondaryContacts f in
  let selectedContacts := slice allContacts 0 (count config) in
  let usedContactsSet := usedContactsSet ∪ list_to_set selectedContacts in
  let fulfillmentPercentage := fulfillment (count config) (length selectedContacts) in
  let listName :=
    brand config +:+ " - " +:+ campaign config +:+ " - " +:+ domain config
      +:+ " - " +:+ getFormattedDate (date config) in
  Some (CampaignRun usedContactsSet selectedContacts (
    newList ← createHubSpotList listName;
    _ ← (if negb (Nat.eqb (length selectedContacts) 0) then
           try_catch
             (_ ← match sendContactListId config with
                  | Some send =>
                      if negb (send =? 0)
                      then _ ← addContactsToList send selectedContacts; mret ()
                      else mret ()
                  | None => mret ()
                  end;
              _ ← addContactsToList (fst newList) selectedContacts;
              _ ← updateContactProperties selectedContacts;
              mret ())
             (fun _ => mret ())
         else mret ());
    let availableCount := (primaryBeforeFilter f + secondaryBeforeFilter f)%nat in
    let filteredCount :=
      ((primaryBeforeFilter f - primaryAfterFilter f)
       + (secondaryBeforeFilter f - secondaryAfterFilter f))%nat in
    createdList ← CreatedList_create api
      (CreatedList listName (fst newList) (snd newList) (daysFilter, modeFilter)
         (brand config, campaign config, date config)
         (length selectedContacts) (count config) availableCount filteredCount
         fulfillmentPercentage);
    mret (CampaignResult listName (fst newList) (length selectedContacts)
            (count config) availableCount filteredCount fulfillmentPercentage
            createdList))).

End Pipeline.

(** *** [processCampaignsWithDelay] *)

Section Runner.
Variables RETRIEVAL_BATCH_SIZE MAX_RETRIES : Z.
(** The responses during the campaign of each rank. *)
Variable apis : nat → remote.

(** What a run has gathered: [results], one settled outcome for each
    campaign, with the contacts each campaign selected, and the set
    [usedContacts]. The pauses between campaigns are left out. *)
Record run := Run {
  results : list (completion campaign_result);
  selections : list (list Z);
  usedContacts : gset Z
}.

(** The selections gathered so far are in the set, and no two of them
    share an identifier. *)
Definition settled (r : run) : Prop :=
  (∀ i s x, selections r !! i = Some s → x ∈ s → x ∈ usedContacts r)
  ∧ (∀ i j si sj x, i ≠ j → selections r !! i = Some si → selections r !! j = Some sj →
       x ∈ si → x ∉ sj).

Fixpoint campaigns_loop (fuel : nat) (index : nat) (listConfigs : list campaign_config)
    (daysFilter modeFilter : string) (r : run) : option run :=
  match listConfigs with
  | [] => Some r
  | config :: listConfigs' =>
      c ← processSingleCampaign RETRIEVAL_BATCH_SIZE MAX_RETRIES (apis index) fuel
            config daysFilter modeFilter (usedContacts r);
      campaigns_loop fuel (S index) listConfigs' daysFilter modeFilter
        (Run (results r ++ [outcome c]) (selections r ++ [selectedContacts c])
             (used_after c))
  end.

Definition processCampaignsWithDelay (fuel : nat) (listConfigs : list campaign_config)
    (daysFilter modeFilter : string) : option run :=
  campaigns_loop fuel 0 listConfigs daysFilter modeFilter (Run [] [] ∅).

End Runner.
End Hubspot.

(** ** Stand-ins for the remote API, for closed examples *)

Module Doubles.
Import JS Hubspot.

(** A remote that creates every list with the id 1 and accepts every
    update and every audit record. *)
Definition list_api (pages : Z → nat → Z → Z → completion page)
    (add : Z → nat → list Z → completion unit) : remote :=
  Remote pages add (fun _ => Return (1, false)) (fun _ _ => Return ()) (fun d => Return d).

(** Every list holds [members] and serves them in order; the requests
    whose rank [fails] selects time out. *)
Definition source_api (members : list Z) (fails : nat → bool) : remote :=
  list_api (fun _ rank count off =>
              if fails rank then Throw "timeout" else Return (serve members count off))
           (fun _ _ _ => Return ()).

(** Lists are served as in [lists]; the chunks that [bad] selects are
    refused at every attempt. *)
Definition upload_api (lists : Z → list Z) (bad : list Z → bool) : remote :=
  list_api (fun listId _ count off => Return (serve (lists listId) count off))
           (fun _ _ chunk => if bad chunk then Throw "Bad Request" else Return ()).

(** A campaign for [count] contacts of the list [primary], with the
    list [secondary] behind it. *)
Definition campaign_for (primary : Z) (secondary : option Z) (count : Z) : campaign_config :=
  Config "Acme" "Spring" primary secondary count "example.com"
         (Some (JSDate.Fields (JSDate.Civil 2025 2 5) 0 0)) None "Acme".

End Doubles.

(** ** The clone scheduler, with batched duplicate checks *)

Module Cloner.
Import JS JSString JSDate Chunks.

(** The body of a search by name: [total] and the length of [results],
    either of which may be missing. *)
Record search_result := SearchResult {
  total : option Z;
  results : option nat
}.

(** [response.data.total > 0 || (response.data.results &&
    response.data.results.length > 0)], as a condition. *)
Definition exists_in (r : search_result) : bool :=
  match total r with
  | Some n => if 0 <? n then true else
                match results r with Some len => Nat.ltb 0 len | None => false end
  | None => match results r with Some len => Nat.ltb 0 len | None => false end
  end.

(** An email object as [GET BASE_URL/:id] returns it: its [name] and the
    places where a custom property may be found. *)
Record email := Email {
  e_name : string;
  root_emailCategory : option string;
  root_mdlzBrand : option string;
  props_emailCategory : option string;
  props_mdlzBrand : option string;
  props_Email_Category : option string;
  props_MDLZ_Brand : option string
}.

(** [a || b || c] on values that are a string or [undefined]. *)
Definition truthy (v : option string) : bool :=
  match v with
  | Some s => negb (String.eqb s "")
  | None => false
  end.
Definition or_else (a b : option string) : option string :=
  if truthy a then a else b.

(** The fields [PUT BASE_URL/:id] sets on the clone. *)
Record update_payload := UpdatePayload {
  u_name : string;
  mailingIlsListsExcluded : list Z;
  mailingIlsListsIncluded : list Z;
  mailingListsExcluded : list Z;
  mailingListsIncluded : list Z;
  publishImmediately : bool;
  publishDate : Date;
  isGraymailSuppressionEnabled : bool;
  u_emailCategory : option string;
  u_mdlzBrand : option string
}.

(** A document of the model [ClonedEmail]. *)
Record cloned_email := ClonedEmail {
  originalEmailId : Z;
  clonedEmailId : Z;
  clonedEmailName : string;
  scheduledTime : Date;
  cloningStrategy : string
}.

(** The responses of the remote API and of the audit store during one
    run. A request is named by its rank in the list the run is
    working through. *)
Record remote := Remote {
  email_get : nat → Z → completion email;                 (* rank, email id *)
  email_search : nat → string → completion search_result; (* rank, name *)
  email_clone : nat → Z → completion Z;                   (* rank, email id; the new id *)
  email_update : nat → Z → update_payload → completion unit;
  ClonedEmail_find : list string → completion (list string);
  ClonedEmail_findOne : nat → string → completion bool;   (* rank, name; found or not *)
  ClonedEmail_save : cloned_email → completion unit
}.

Inductive strategy := Morning | Afternoon | Custom | Smart.

Definition strategy_name (s : strategy) : string :=
  match s with
  | Morning => "morning" | Afternoon => "afternoon"
  | Custom => "custom" | Smart => "smart"
  end.

Record custom_options := CustomOptions {
  customStartHour : option Z;
  customStartMinute : option Z;
  customInterval : option Z
}.

(** [v || fallback] on a number that may be [undefined]. *)
Definition number_or (v : option Z) (fallback : Z) : Z :=
  match v with
  | Some n => if n =? 0 then fallback else n
  | None => fallback
  end.

(** [if (minute >= 60) { hour += Math.floor(minute / 60); minute = minute % 60 }] *)
Definition roll (hour minute : Z) : Z * Z :=
  if 60 <=? minute then (hour + minute / 60, Z.rem minute 60) else (hour, minute).

(** The counters of one day of the schedule. *)
Record counters := Counters {
  morningMinuteCounter : Z;
  afternoonMinuteCounter : Z;
  customTimeCounter : Z;
  emailIndex : Z
}.

Definition MAX_MORNING_SLOTS : Z := 12.

(** The [switch (strategy)] of [EmailCloner]: the hour and minute of the
    next slot, and the counters after it. *)
Definition next_slot (s : strategy) (customOptions : custom_options) (c : counters)
    : Z * Z * counters :=
  match s with
  | Morning =>
      (roll 11 (morningMinuteCounter c),
       Counters (morningMinuteCounter c + 5) (afternoonMinuteCounter c)
                (customTimeCounter c) (emailIndex c))
  | Afternoon =>
      (roll 16 (afternoonMinuteCounter c),
       Counters (morningMinuteCounter c) (afternoonMinuteCounter c + 5)
                (customTimeCounter c) (emailIndex c))
  | Custom =>
      let startHour := number_or (customStartHour customOptions) 11 in
      let startMinute := number_or (customStartMinute customOptions) 0 in
      let interval := number_or (customInterval customOptions) 5 in
      let startTotalMinutes := startHour * 60 + startMinute in
      let scheduledTotalMinutes := startTotalMinutes + customTimeCounter c * interval in
      let scheduledHour := scheduledTotalMinutes / 60 in
      let scheduledMinute := Z.rem scheduledTotalMinutes 60 in
      let slot :=
        if (scheduledHour =? 11) && (scheduledMinute <=? 55)
        then (scheduledHour, scheduledMinute)
        else if (scheduledHour <? 11) || ((scheduledHour =? 11) && (scheduledMinute <=? 55))
        then
          let minute := customTimeCounter c * interval in
          if 55 <? minute then roll 16 (minute - 55 - 1) else (11, minute)
        else
          let morningSlots := 56 / interval in
          let afternoonIndex := customTimeCounter c - morningSlots in
          roll 16 (afternoonIndex * interval) in
      (slot,
       Counters (morningMinuteCounter c) (afternoonMinuteCounter c)
                (customTimeCounter c + 1) (emailIndex c))
  | Smart =>
      if emailIndex c <? MAX_MORNING_SLOTS
      then (roll 11 (morningMinuteCounter c),
            Counters (morningMinuteCounter c + 5) (afternoonMinuteCounter c)
                     (customTimeCounter c) (emailIndex c + 1))
      else (roll 16 (afternoonMinuteCounter c),
            Counters (morningMinuteCounter c) (afternoonMinuteCounter c + 5)
                     (customTimeCounter c) (emailIndex c + 1))
  end.

Record stats := Stats {
  totalAttempted : nat;
  successfullyCloned : nat;
  duplicatesSkipped : nat;
  errors : nat;
  clonedEmails : list (Z * string * Date)      (* [id], [name], [time] *)
}.

(** An entry of [emailScheduleMap]. *)
Record schedule := Schedule {
  s_originalEmailId : Z;
  s_day : Z;
  s_hour : Z;
  s_minute : Z;
  s_scheduledTime : Date;
  s_originalEmailName : string
}.

(** The name of an entry of [stats.clonedEmails]. *)
Definition name_of (c : Z * string * JSDate.Date) : string := c.1.2.

Section Run.
(** What the engine makes of a date text it does not read as
    [DD Mon YYYY]. *)
Variable legacy : string → Date.
Variable api : remote.

(** The name of the clone and the time it is scheduled at: the date
    found in [originalEmailName], [day] days later, at [hour]:[minute].
    [None] when the name holds no date. *)
Definition clone_name (originalEmailName : string) (day hour minute : Z)
    : option (string * Date) :=
  dateMatch ← match_datePattern originalEmailName;
  let clonedDate := new_Date legacy dateMatch in
  let clonedDate :=
    match getDate clonedDate with
    | Some n => setDate clonedDate (n + day)
    | None => None
    end in
  let clonedDate := setHours clonedDate hour minute in
  let updatedDate :=
    replace (replace (toLocaleDateString clonedDate) "," "") "Sept" "Sep" in
  Some (replace originalEmailName dateMatch updatedDate, clonedDate).

(** *** [batchCheckEmailsExist] *)

(** One request of a sub-batch: an error of the request counts as
    "does not exist". *)
Definition check_one (rank : nat) (emailName : string) : completion bool :=
  try_catch (response ← email_search api rank emailName; mret (exists_in response))
            (fun _ => mret false).

(** What the request of rank [rank] makes of [emailName]: found when the
    search answers and holds a result. *)
Definition found (rank : nat) (emailName : string) : bool :=
  match email_search api rank emailName with
  | Return response => exists_in response
  | Throw _ => false
  end.

(** [batchResults.forEach(result => existsMap[result.emailName] = result.exists)]
    for a sub-batch whose first name has rank [rank]. *)
Fixpoint check_batch (rank : nat) (batch : list string) (existsMap : gmap string bool)
    : completion (gmap string bool) :=
  match batch with
  | [] => mret existsMap
  | emailName :: batch' =>
      e ← check_one rank emailName;
      check_batch (S rank) batch' (<[emailName := e]> existsMap)
  end.

Fixpoint check_batches (rank : nat) (batches : list (list string))
    (existsMap : gmap string bool) : completion (gmap string bool) :=
  match batches with
  | [] => mret existsMap
  | batch :: batches' =>
      existsMap ← check_batch rank batch existsMap;
      check_batches (rank + length batch) batches' existsMap
  end.

Definition all_false (emailNames : list string) : gmap string bool :=
  foldl (fun m name => <[name := false]> m) ∅ emailNames.

Definition batchCheckEmailsExist (emailNames : list string) : completion (gmap string bool) :=
  if Nat.eqb (length emailNames) 0 then mret ∅
  else
    try_catch (check_batches 0 (chunkArray emailNames 5) (all_false emailNames))
              (fun _ => mret (all_false emailNames)).

(** [checkEmailExists], the single check kept beside the batch. *)
Definition checkEmailExists (emailName : string) : completion bool :=
  try_catch (response ← email_search api 0 emailName; mret (exists_in response))
            (fun _ => mret false).

(** *** [cloneAndScheduleEmailOptimized] *)

(** [d.toISOString()] throws a [RangeError] on the invalid date. *)
Definition toISOString (d : Date) : completion Date :=
  match d with
  | Some _ => mret d
  | None => Throw "Invalid time value"
  end.

(** What the function returns: [success: true] with the clone, or
    [success: false] with the message of the error. *)
Inductive clone_result :=
| Cloned (emailId : Z) (emailName : string) (scheduledTime : Date)
| NotCloned (error : string).

Definition cloneAndScheduleEmailOptimized (rank : nat) (originalEmailId : Z)
    (dayOffset hour minute : Z) (newEmailName : string) (scheduledTime : Date)
    (s : strategy) : completion clone_result :=
  try_catch
    (_ ← toISOString scheduledTime;
     originalEmail ← email_get api rank originalEmailId;
     let emailCategory :=
       or_else (root_emailCategory originalEmail)
         (or_else (props_emailCategory originalEmail) (props_Email_Category originalEmail)) in
     let mdlzBrand :=
       or_else (root_mdlzBrand originalEmail)
         (or_else (props_mdlzBrand originalEmail) (props_MDLZ_Brand originalEmail)) in
     clonedId ← email_clone api rank originalEmailId;
     _ ← email_update api rank clonedId
           (UpdatePayload newEmailName [10469] [39067] [6591] [31189] false
              scheduledTime false emailCategory mdlzBrand);
     _ ← try_catch
           (ClonedEmail_save api
              (ClonedEmail originalEmailId clonedId newEmailName scheduledTime
                 (strategy_name s)))
           (fun _ => mret ());
     time ← toISOString scheduledTime;
     mret (Cloned clonedId newEmailName time))
    (fun message => mret (NotCloned message)).

(** *** [EmailCloner] *)

Variable s : strategy.
Variable customOptions : custom_options.

(** The first loop: the name of each source email, and the number of
    requests that failed. *)
Fixpoint fetch_names (rank : nat) (emailIds : list Z) (emailInfoMap : gmap Z string)
    (errors : nat) : gmap Z string * nat :=
  match emailIds with
  | [] => (emailInfoMap, errors)
  | emailId :: emailIds' =>
      match email_get api rank emailId with
      | Return response =>
          fetch_names (S rank) emailIds' (<[emailId := e_name response]> emailInfoMap) errors
      | Throw _ => fetch_names (S rank) emailIds' emailInfoMap (S errors)
      end
  end.

(** What the loops over days and emails build. *)
Record plan := Plan {
  p_errors : nat;
  p_totalAttempted : nat;
  emailNamesToCheck : list string;
  emailScheduleMap : gmap string schedule
}.

(** Every name the plan holds has its entry in the map of schedules. *)
Definition scheduled (p : plan) : Prop :=
  ∀ name, name ∈ emailNamesToCheck p → is_Some (emailScheduleMap p !! name).

(** The counters after [i] slots of a day, and the slot of index [i]. *)
Definition counters_after (i : nat) : counters :=
  Nat.iter i (fun c => (next_slot s customOptions c).2) (Counters 0 0 0 0).

Definition slot_at (i : nat) : Z * Z := (next_slot s customOptions (counters_after i)).1.

(** Every email of the list has a name. *)
Definition all_named (emailIds : list Z) (emailInfoMap : gmap Z string) : Prop :=
  ∀ emailId, emailId ∈ emailIds →
    ∃ name, emailInfoMap !! emailId = Some name ∧ String.eqb name "" = false.

(** The loop over [emailIds] of one day. *)
Fixpoint plan_day (day : Z) (emailIds : list Z) (emailInfoMap : gmap Z string)
    (c : counters) (p : plan) : plan :=
  match emailIds with
  | [] => p
  | emailId :: emailIds' =>
      match emailInfoMap !! emailId with
      | Some originalEmailName =>
          if String.eqb originalEmailName "" then
            plan_day day emailIds' emailInfoMap c
              (Plan (S (p_errors p)) (p_totalAttempted p)
                    (emailNamesToCheck p) (emailScheduleMap p))
          else
            let '(hour, minute, c) := next_slot s customOptions c in
            let p :=
              match clone_name originalEmailName day hour minute with
              | Some (newEmailName, clonedDate) =>
                  Plan (p_errors p) (p_totalAttempted p)
                       (emailNamesToCheck p ++ [newEmailName])
                       (<[newEmailName :=
                            Schedule emailId day hour minute clonedDate originalEmailName]>
                          (emailScheduleMap p))
              | None =>
                  Plan (S (p_errors p)) (p_totalAttempted p)
                       (emailNamesToCheck p) (emailScheduleMap p)
              end in
            plan_day day emailIds' emailInfoMap c
              (Plan (p_errors p) (S (p_totalAttempted p))
                    (emailNamesToCheck p) (emailScheduleMap p))
      | None =>
          plan_day day emailIds' emailInfoMap c
            (Plan (S (p_errors p)) (p_totalAttempted p)
                  (emailNamesToCheck p) (emailScheduleMap p))
      end
  end.

(** [for (let day = 1; day <= cloningCount; day++)], the counters
    starting afresh each day. *)
Fixpoint plan_days (days : list Z) (emailIds : list Z) (emailInfoMap : gmap Z string)
    (p : plan) : plan :=
  match days with
  | [] => p
  | day :: days' =>
      plan_days days' emailIds emailInfoMap
        (plan_day day emailIds emailInfoMap (Counters 0 0 0 0) p)
  end.

Definition days_of (cloningCount : Z) : list Z :=
  map Z.of_nat (seq 1 (Z.to_nat cloningCount)).

(** The filter that leaves [emailsToProcess]: the cache, the number of
    duplicates skipped and the names kept so far. *)
Definition keep_new (dbDuplicateNames : gset string) (hubspotDuplicates : gmap string bool)
    (st : gset string * nat * list string) (name : string)
    : gset string * nat * list string :=
  let '(processedEmailsCache, duplicatesSkipped, kept) := st in
  if bool_decide (name ∈ processedEmailsCache)
     || bool_decide (name ∈ dbDuplicateNames)
     || bool_decide (hubspotDuplicates !! name = Some true)
  then (processedEmailsCache, S duplicatesSkipped, kept)
  else ({[name]} ∪ processedEmailsCache, duplicatesSkipped, kept ++ [name]).

(** No layer knows [name]: the cache, the audit store, the remote search. *)
Definition unknown (processedEmailsCache dbDuplicateNames : gset string)
    (hubspotDuplicates : gmap string bool) (name : string) : Prop :=
  (name ∉ processedEmailsCache) ∧ (name ∉ dbDuplicateNames)
  ∧ (hubspotDuplicates !! name ≠ Some true).

#[export] Instance unknown_dec cache db hub name : Decision (unknown cache db hub name).
Proof. unfold unknown. apply _. Defined.

(** The loop over [emailsToProcess]; the groups of three run their
    requests at the same time and are gathered in order. *)
Fixpoint clone_all (rank : nat) (names : list string) (emailScheduleMap : gmap string schedule)
    (st : stats) : completion stats :=
  match names with
  | [] => mret st
  | emailName :: names' =>
      result ←
        match emailScheduleMap !! emailName with
        | Some sch =>
            cloneAndScheduleEmailOptimized rank (s_originalEmailId sch) (s_day sch)
              (s_hour sch) (s_minute sch) emailName (s_scheduledTime sch) s
        | None => Throw "Cannot read properties of undefined"
        end;
      clone_all (S rank) names' emailScheduleMap
        match result with
        | Cloned id name time =>
            Stats (totalAttempted st) (S (successfullyCloned st)) (duplicatesSkipped st)
                  (errors st) (clonedEmails st ++ [(id, name, time)])
        | NotCloned _ =>
            Stats (totalAttempted st) (successfullyCloned st) (duplicatesSkipped st)
                  (S (errors st)) (clonedEmails st)
        end
  end.

(** A call of [EmailCloner]: the cache [processedEmailsCache] as the call
    leaves it, the names it built and those it kept for cloning, and
    what it returns: the statistics with [success: true], or the
    message with [success: false]. *)
Record cloner_run := ClonerRun {
  cache_after : gset string;
  checked : list string;
  emailsToProcess : list string;
  response : completion stats
}.

Definition EmailCloner (emailIds : list Z) (cloningCount : Z)
    (processedEmailsCache : gset string) : cloner_run :=
  let '(emailInfoMap, errors) := fetch_names 0 emailIds ∅ 0 in
  let p := plan_days (days_of cloningCount) emailIds emailInfoMap (Plan errors 0 [] ∅) in
  let failed message := Throw ("Failed to complete cloning process: " +:+ message) in
  match ClonedEmail_find api (emailNamesToCheck p) with
  | Throw message => ClonerRun processedEmailsCache (emailNamesToCheck p) [] (failed message)
  | Return dbDuplicates =>
      let dbDuplicateNames : gset string := list_to_set dbDuplicates in
      match batchCheckEmailsExist (emailNamesToCheck p) with
      | Throw message =>
          ClonerRun processedEmailsCache (emailNamesToCheck p) [] (failed message)
      | Return hubspotDuplicates =>
          let '(cache, duplicatesSkipped, emailsToProcess) :=
            foldl (keep_new dbDuplicateNames hubspotDuplicates)
                  (processedEmailsCache, 0%nat, []) (emailNamesToCheck p) in
          ClonerRun cache (emailNamesToCheck p) emailsToProcess
            (try_catch
               (clone_all (length emailIds) emailsToProcess (emailScheduleMap p)
                  (Stats (p_totalAttempted p) 0 duplicatesSkipped (p_errors p) []))
               failed)
      end
  end.

End Run.
End Cloner.

(** ** Stand-ins for the email API and the audit store, for closed examples *)

Module ClonerDoubles.
Import JS Cloner.

(** The email [id] is named [names id]; a search finds the names in
    [remote], unless [search_fails] selects the name, in which case the
    request fails; the audit store holds the names in [db]; a clone of
    [id] gets the id [id + 1000]. *)
Definition clone_api (names : Z → string) (db remote : list string)
    (search_fails : string → bool) : Cloner.remote :=
  Remote
    (fun _ id => Return (Email (names id) None None None None None None))
    (fun _ name =>
       if search_fails name then Throw "Network Error"
       else Return (SearchResult (Some (if bool_decide (name ∈ remote) then 1 else 0)) None))
    (fun _ id => Return (id + 1000))
    (fun _ _ _ => Return ())
    (fun query => Return (filter (fun name => name ∈ db) query))
    (fun _ name => Return (bool_decide (name ∈ db)))
    (fun _ => Return ()).

(** Three emails dated 5 March 2025. *)
Definition three_names (id : Z) : string :=
  if id =? 1 then "Acme - 05 Mar 2025"
  else if id =? 2 then "Bolt - 05 Mar 2025"
  else "Core - 05 Mar 2025".

(** Emails told apart by their number, all dated 5 March 2025, and the
    map of the names of the first [n] of them. *)
Definition numbered (id : Z) : string := "Mail " +:+ JSString.decimal id +:+ " - 05 Mar 2025".

Definition numbered_info (n : nat) : gmap Z string :=
  list_to_map ((fun id => (id, numbered id)) <$> Chunks.ids 1 n).

(** An engine that reads no other date text. *)
Definition strict : string → JSDate.Date := fun _ => None.

End ClonerDoubles.

(** ** The searches of the batch check, as they are sent *)

Module SearchRequests.
Import JS JSString JSDate Chunks Cloner.

Section Requests.
Variable api : remote.

(** The searches of a sub-batch, which [batch.map] sends together: the
    rank of each and the name it asks for. *)
Definition sent_by (rank : nat) (batch : list string) : list (nat * string) :=
  imap (fun j emailName => ((rank + j)%nat, emailName)) batch.



End Requests.


End SearchRequests.

(** ** The earlier copy of the campaign pipeline, kept in [routes/hubspotRoute.js] *)

Module HubspotLegacy.
Import JS Chunks Hubspot.

Section Pipeline.
Variables RETRIEVAL_BATCH_SIZE MAX_RETRIES : Z.
Variable api : remote.

(** [while (hasMore && retryCount < MAX_RETRIES && allContacts.length < maxCount)] *)
Fixpoint fetch_loop (fuel : nat) (listId : Z) (maxCount : count_bound)
    (allContacts : list Z) (hasMore : bool) (offset : Z) (retryCount : Z) (rank : nat)
    : option (completion (list Z)) :=
  if hasMore && (retryCount <? MAX_RETRIES) && below (length allContacts) maxCount then
    match fuel with
    | O => None
    | S fuel' =>
        let countToFetch := remaining maxCount (length allContacts) RETRIEVAL_BATCH_SIZE in
        match list_page api listId (S rank) countToFetch offset with
        | Return res =>
            let allContacts := allContacts ++ contacts res in
            let hasMore := has_more res && below (length allContacts) maxCount in
            if negb (below (length allContacts) maxCount)
            then Some (Return (unique (truncate allContacts maxCount)))
            else fetch_loop fuel' listId maxCount allContacts hasMore (vid_offset res) 0 (S rank)
        | Throw _ =>
            let retryCount := retryCount + 1 in
            fetch_loop fuel' listId maxCount allContacts
              (if retryCount <? MAX_RETRIES then hasMore else false) offset retryCount (S rank)
        end
    end
  else Some (Return (unique allContacts)).

Definition getContactsFromList (fuel : nat) (listId : Z) (maxCount : count_bound)
    : option (completion (list Z)) :=
  fetch_loop fuel listId maxCount [] true 0 0 0.

(** [for (const chunk of chunks) { try { post } catch (error) { throw error } }];
    the number of chunks added is returned. *)
Fixpoint add_chunks (listId : Z) (chunks : list (list Z)) (rank : nat) : completion nat :=
  match chunks with
  | [] => mret rank
  | chunk :: chunks' =>
      _ ← try_catch (list_add api listId (S rank) chunk) (fun message => Throw message);
      add_chunks listId chunks' (S rank)
  end.

Definition addContactsToList (listId : Z) (contacts : list Z) : completion nat :=
  add_chunks listId (progressiveChunks contacts default_sizes) 0.

(** [Math.round((selectedContacts.length / count) * 100)], with no test
    of [count]. *)
Definition fulfillment (count : Z) (selected : nat) : JSNumber.number :=
  JSNumber.Math_round
    (JSNumber.mul (JSNumber.div (JSNumber.of_int (Z.of_nat selected))
                                (JSNumber.of_int count))
                  (JSNumber.of_int 100)).

End Pipeline.
End HubspotLegacy.

(** ** The clone scheduler of [routes/cloner.js], one email at a time *)

Module ClonerLegacy.
Import JS JSString JSDate Cloner.

(** What [cloneAndScheduleEmail] returns. *)
Inductive clone_result :=
| Cloned (emailId : Z) (emailName : string) (scheduledTime : Date)
| Skipped (reason : string)
| NotCloned (error : string).

Section Run.
Variable legacy : string → Date.
Variable api : remote.

Definition override (current found : option string) : option string :=
  if truthy found then found else current.

(** The call of rank [rank], with the cache [processedEmailsCache] before
    and after it. *)
Definition cloneAndScheduleEmail (rank : nat) (originalEmailId : Z)
    (dayOffset hour minute : Z) (s : strategy) (processedEmailsCache : gset string)
    : gset string * completion clone_result :=
  match email_get api rank originalEmailId with
  | Throw message => (processedEmailsCache, mret (NotCloned message))
  | Return originalEmail =>
      let originalEmailName := e_name originalEmail in
      let emailCategory :=
        override (override (root_emailCategory originalEmail)
                           (props_emailCategory originalEmail))
                 (props_Email_Category originalEmail) in
      let mdlzBrand :=
        override (override (root_mdlzBrand originalEmail) (props_mdlzBrand originalEmail))
                 (props_MDLZ_Brand originalEmail) in
      match clone_name legacy originalEmailName dayOffset hour minute with
      | None => (processedEmailsCache, mret (Skipped "No date in original email name"))
      | Some (newEmailName, clonedDate) =>
          if bool_decide (newEmailName ∈ processedEmailsCache)
          then (processedEmailsCache, mret (Skipped "Duplicate in current batch"))
          else
            let existingInDB :=
              try_catch (ClonedEmail_findOne api rank newEmailName) (fun _ => mret false) in
            match existingInDB with
            | Return true => (processedEmailsCache, mret (Skipped "Duplicate in database"))
            | _ =>
                match checkEmailExists api newEmailName with
                | Return true =>
                    (processedEmailsCache, mret (Skipped "Duplicate in HubSpot"))
                | _ =>
                    ({[newEmailName]} ∪ processedEmailsCache,
                     try_catch
                       (clonedId ← email_clone api rank originalEmailId;
                        _ ← email_update api rank clonedId
                              (UpdatePayload newEmailName [10469] [39067] [6591] [31189]
                                 false clonedDate false emailCategory mdlzBrand);
                        _ ← try_catch
                              (ClonedEmail_save api
                                 (ClonedEmail originalEmailId clonedId newEmailName
                                    clonedDate (strategy_name s)))
                              (fun _ => mret ());
                        time ← toISOString clonedDate;
                        mret (Cloned clonedId newEmailName time))
                       (fun message => mret (NotCloned message)))
                end
            end
      end
  end.

(** The [switch (strategy)] of the loop: hour, minute, and the counters
    [minuteCounter] and [morningSlotsUsed] after the slot. *)
Definition next_slot (s : strategy) (minuteCounter morningSlotsUsed : Z)
    : Z * Z * Z * Z :=
  match s with
  | Morning => (11, minuteCounter, minuteCounter + 5, morningSlotsUsed)
  | Afternoon => (16, minuteCounter, minuteCounter + 5, morningSlotsUsed)
  | Custom => (11, minuteCounter, minuteCounter + 5, morningSlotsUsed)
  | Smart =>
      if morningSlotsUsed <? MAX_MORNING_SLOTS
      then (11, minuteCounter, minuteCounter + 5, morningSlotsUsed + 1)
      else (16, minuteCounter - MAX_MORNING_SLOTS * 5, minuteCounter, morningSlotsUsed)
  end.

(** The counters before the source of index [i] of a day, and its slot. *)
Fixpoint counters_before (s : strategy) (i : nat) : Z * Z :=
  match i with
  | O => (0, 0)
  | S i' =>
      let '(minuteCounter, morningSlotsUsed) := counters_before s i' in
      let '(_, _, minuteCounter, morningSlotsUsed) :=
        next_slot s minuteCounter morningSlotsUsed in
      (minuteCounter, morningSlotsUsed)
  end.

Definition slot_at (s : strategy) (i : nat) : Z * Z :=
  let '(minuteCounter, morningSlotsUsed) := counters_before s i in
  let '(hour, minute, _, _) := next_slot s minuteCounter morningSlotsUsed in
  (hour, minute).

Definition count_result (st : stats) (result : clone_result) : stats :=
  let st := Stats (S (totalAttempted st)) (successfullyCloned st) (duplicatesSkipped st)
                  (errors st) (clonedEmails st) in
  match result with
  | Cloned id name time =>
      Stats (totalAttempted st) (S (successfullyCloned st)) (duplicatesSkipped st)
            (errors st) (clonedEmails st ++ [(id, name, time)])
  | Skipped _ =>
      Stats (totalAttempted st) (successfullyCloned st) (S (duplicatesSkipped st))
            (errors st) (clonedEmails st)
  | NotCloned _ =>
      Stats (totalAttempted st) (successfullyCloned st) (duplicatesSkipped st)
            (S (errors st)) (clonedEmails st)
  end.

Fixpoint clone_day (s : strategy) (day : Z) (rank : nat) (emailIds : list Z)
    (minuteCounter morningSlotsUsed : Z) (cache : gset string) (st : stats)
    : completion (gset string * stats) :=
  match emailIds with
  | [] => mret (cache, st)
  | emailId :: emailIds' =>
      let '(hour, minute, minuteCounter, morningSlotsUsed) :=
        next_slot s minuteCounter morningSlotsUsed in
      let '(cache, call) := cloneAndScheduleEmail rank emailId day hour minute s cache in
      result ← call;
      clone_day s day (S rank) emailIds' minuteCounter morningSlotsUsed cache
        (count_result st result)
  end.

Fixpoint clone_days (s : strategy) (days : list Z) (rank : nat) (emailIds : list Z)
    (cache : gset string) (st : stats) : completion (gset string * stats) :=
  match days with
  | [] => mret (cache, st)
  | day :: days' =>
      '(cache, st) ← clone_day s day rank emailIds 0 0 cache st;
      clone_days s days' (rank + length emailIds) emailIds cache st
  end.

Definition EmailCloner (emailIds : list Z) (cloningCount : Z) (s : strategy)
    (processedEmailsCache : gset string) : completion (gset string * stats) :=
  clone_days s (days_of cloningCount) 0 emailIds processedEmailsCache (Stats 0 0 0 0 []).

End Run.
End ClonerLegacy.

(** ** Notions used to state what the pipeline does *)

Module Requests.
Import JS Chunks Hubspot.

(** The chunks gathered when the loop of [chunkArray] is at [i]: as many
    as [i] holds sizes, each the slice of its place, none empty, and the
    last of them begun inside the array. *)
Definition gathered {A} (arr : list A) (size i : Z) (chunks : list (list A)) : Prop :=
  i = size * Z.of_nat (length chunks)
  ∧ (chunks = [] ∨ i - size < Z.of_nat (length arr))
  ∧ ∀ (j : nat) chunk, chunks !! j = Some chunk →
      chunk = take (Z.to_nat size) (drop (j * Z.to_nat size) arr)
      ∧ 1 <= Z.of_nat (length chunk) <= size.

(** The batch update of rank [rank], for the contacts [chunk], fails. *)
Definition update_fails (api : remote) (rank : nat) (chunk : list Z) : bool :=
  match batch_update api rank chunk with
  | Throw _ => true
  | Return _ => false
  end.

(** The chunks whose batch update fails, when the first of [chunks] is
    sent by the request after [rank]. *)
Fixpoint failing_updates (api : remote) (rank : nat) (chunks : list (list Z))
    : list (list Z) :=
  match chunks with
  | [] => []
  | chunk :: chunks' =>
      (if update_fails api (S rank) chunk then [chunk] else [])
        ++ failing_updates api (S rank) chunks'
  end.

End Requests.

(** ** Numbers read from text, and dates by their day number *)

Module JSParse.
Import JSString JSDate.

(** White space and line ends, among the characters below 256. *)
Definition is_white (a : ascii) : bool :=
  let n := N_of_ascii a in
  (((9 <=? n) && (n <=? 13)) || (n =? 32) || (n =? 160))%N.

Fixpoint skip_white (s : string) : string :=
  match s with
  | String a s' => if is_white a then skip_white s' else s
  | EmptyString => s
  end.

(** The value of [a] as a digit of the radix, if it is one. *)
Definition digit_in (radix : Z) (a : ascii) : option Z :=
  let n := Z.of_N (N_of_ascii a) in
  let v := if (48 <=? n) && (n <=? 57) then n - 48
           else if (97 <=? n) && (n <=? 122) then n - 87
           else if (65 <=? n) && (n <=? 90) then n - 55
           else radix in
  if v <? radix then Some v else None.

(** The value of the longest prefix of [s] made of digits, from [acc]
    on: [None] while no digit was read. *)
Fixpoint read_digits (radix : Z) (s : string) (acc : option Z) : option Z :=
  match s with
  | String a s' =>
      match digit_in radix a with
      | Some d => read_digits radix s' (Some (radix * default 0 acc + d))
      | None => acc
      end
  | EmptyString => acc
  end.

(** [parseInt(s)] with no radix: leading white space, a sign, [0x] or
    [0X] for the radix 16, then digits; [None] is [NaN]. The value is
    kept exact: the number nearest to it differs from it only beyond
    2^53. *)
Definition parseInt (s : string) : option Z :=
  let s := skip_white s in
  let '(sign, s) :=
    match s with
    | String a s' =>
        if Ascii.eqb a "-" then (-1, s') else if Ascii.eqb a "+" then (1, s') else (1, s)
    | EmptyString => (1, s)
    end in
  let '(radix, s) :=
    match s with
    | String a (String b s') =>
        if Ascii.eqb a "0" && (Ascii.eqb b "x" || Ascii.eqb b "X") then (16, s') else (10, s)
    | _ => (10, s)
    end in
  n ← read_digits radix s None;
  Some (sign * n).

(** The number of the day [c] counted from the first of January 1970. *)
Definition day_number (c : civil) : Z :=
  let y := if month c <? 2 then year c - 1 else year c in
  let mp := if month c <? 2 then month c + 10 else month c - 2 in
  let yoe := y mod 400 in
  let doy := (153 * mp + 2) / 5 + day c - 1 in
  (y / 400) * 146097 + yoe * 365 + yoe / 4 - yoe / 100 + doy - 719468.

(** A [Date] holds the times up to 10^8 days from the first of January
    1970, on either side. *)
Definition in_range (c : civil) : bool := Z.abs (day_number c) <=? 100000000.

(** [Date.UTC(year, month, date)] for the fields of a day: a year from 0
    to 99 stands for the year 1900 later, and the day is counted on from
    the first of the month. *)
Definition Date_UTC (c : civil) : civil :=
  let y := if (0 <=? year c) && (year c <=? 99) then 1900 + year c else year c in
  add_days (Civil y (month c) 1) (day c - 1).

(** [s.padStart(width, "0")] *)
Definition padStart (width : nat) (s : string) : string :=
  Nat.iter (width - String.length s) (String "0") s.

(** The date of [d.toISOString()], before the [T]: the year in four
    digits from 0 to 9999, and otherwise in six digits after its sign. *)
Definition iso_date (c : civil) : string :=
  (if (0 <=? year c) && (year c <=? 9999) then padStart 4 (decimal (year c))
   else (if year c <? 0 then "-" else "+") +:+ padStart 6 (decimal (Z.abs (year c))))
  +:+ "-" +:+ padStart 2 (decimal (month c + 1))
  +:+ "-" +:+ padStart 2 (decimal (day c)).

End JSParse.

(** ** The date helpers and the routes of [routes/hubspotRoute.js] *)

Module HubspotRoutes.
Import JS JSString JSDate JSParse.

(** [getFilteredDate], for the local day [now] of the clock. The day
    [daysToAdd] days after today is in the range of [Date] when its
    number is. *)
Definition getFilteredDate (now : civil) (daysFilter : string) : completion (option string) :=
  let today := Date_UTC now in
  if String.eqb daysFilter "today" then
    if in_range today then Return (Some (iso_date today)) else Throw "Invalid time value"
  else
    match strip_prefix "t+" daysFilter with
    | Some rest =>
        match parseInt rest with
        | None => Return None
        | Some daysToAdd =>
            if in_range today && (Z.abs (day_number today + daysToAdd) <=? 100000000)
            then Return (Some (iso_date (add_days today daysToAdd)))
            else Throw "Invalid time value"
        end
    | None => Return None
    end.

(** [validDaysFilters] of the route [/create-lists]. *)
Definition validDaysFilters : list string := ["today"; "t+1"; "t+2"; "t+3"; "all"].

(** [formatDateForDisplay] *)
Definition formatDateForDisplay (date : Date) : string :=
  match date with
  | None => "NaN Invalid Date NaN 12:NaNAM"
  | Some f =>
      let day := decimal (day (on f)) in
      let month := default "" (monthNames !! Z.to_nat (month (on f))) in
      let year := decimal (year (on f)) in
      let minutes := padStart 2 (decimal (minutes f)) in
      let ampm := if 12 <=? hours f then "PM" else "AM" in
      let hours := if Z.rem (hours f) 12 =? 0 then 12 else Z.rem (hours f) 12 in
      day +:+ " " +:+ month +:+ " " +:+ year +:+ " " +:+ decimal hours +:+ ":"
        +:+ minutes +:+ ampm
  end.

End HubspotRoutes.

(** ** The route [/include-list-in-email] of [routes/hubspotRoute.js] *)

Module IncludeList.
Import JS JSString.

(** An error of a request: its message, and the status and the message
    of the response when there is one. *)
Record http_error := HttpError {
  error_message : string;
  response_status : option Z;
  response_data_message : option string
}.

Inductive reply (A : Type) : Type :=
| Ok (a : A)
| Failed (error : http_error).
Arguments Ok {A} a.
Arguments Failed {A} error.

(** The email as the API gives it: its state, and the lists included
    and excluded, each identifier as [String] writes it. *)
Record email := Email {
  state : option string;
  mailingListsIncluded : list string;
  mailingListsExcluded : list string
}.

(** The body of the [PUT]; [mailingListsExcluded] is set only when there
    are excluded lists. *)
Record update_payload := UpdatePayload {
  p_mailingListsIncluded : list string;
  p_mailingListsExcluded : option (list string)
}.

Record remote := Remote {
  email_get : string → reply email;
  email_put : string → update_payload → reply unit
}.

(** What the route answers. *)
Inductive answer :=
| NotDraft (state : string)                      (* [success: false], the email untouched *)
| AlreadyIncluded                                (* [success: true] *)
| Included (updatedIncludedLists updatedExcludedLists : list string)
| Refused (status : Z) (message : string).

(** A string that is neither [undefined] nor empty. *)
Definition truthy (v : option string) : bool :=
  match v with
  | Some s => negb (String.eqb s "")
  | None => false
  end.

(** The answer to an error, in the [catch] block. *)
Definition refusal (emailId listId : string) (error : http_error) : answer :=
  let status := response_status error in
  let errorMessage :=
    if bool_decide (status = Some 404)
    then "Email " +:+ emailId +:+ " or list " +:+ listId +:+ " not found in HubSpot"
    else if bool_decide (status = Some 401)
    then "HubSpot authentication failed - check access token"
    else if bool_decide (status = Some 400)
    then "Invalid request - "
           +:+ (if truthy (response_data_message error)
                then default "" (response_data_message error)
                else "check email and list IDs")
    else if bool_decide (status = Some 403)
    then "Permission denied - this email may be locked or require manual configuration"
    else if truthy (response_data_message error)
    then default "" (response_data_message error)
    else "Failed to include list in email" in
  Refused (match status with
           | Some code => if code =? 0 then 500 else code
           | None => 500
           end)
          errorMessage.

(** The handler: the bodies it has [PUT], and its answer. *)
Definition include_list_in_email (api : remote) (emailId listId : string)
    : list update_payload * answer :=
  match email_get api emailId with
  | Failed error => ([], refusal emailId listId error)
  | Ok currentEmail =>
      if truthy (state currentEmail)
         && negb (String.eqb (default "" (state currentEmail)) "DRAFT")
      then ([], NotDraft (default "" (state currentEmail)))
      else
        let existingIncludedLists := unique (mailingListsIncluded currentEmail) in
        let existingExcludedLists := mailingListsExcluded currentEmail in
        if bool_decide (listId ∈ existingIncludedLists) then ([], AlreadyIncluded)
        else
          let updatedIncludeLists := unique (existingIncludedLists ++ [listId]) in
          let updatePayload :=
            UpdatePayload updatedIncludeLists
              (if Nat.ltb 0 (length existingExcludedLists)
               then Some existingExcludedLists else None) in
          match email_put api emailId updatePayload with
          | Failed error => ([updatePayload], refusal emailId listId error)
          | Ok _ => ([updatePayload], Included updatedIncludeLists existingExcludedLists)
          end
  end.

End IncludeList.

(** * Properties *)

(** ** Arrays and sets *)

Module JSFacts.
Import JS.

Lemma length_slice {A} (arr : list A) (s e : Z) :
  0 <= s → 0 <= e →
  Z.of_nat (length (slice arr s e))
  = Z.max 0 (Z.min e (Z.of_nat (length arr)) - Z.min s (Z.of_nat (length arr))).
Proof.
  intros Hs He. unfold slice.
  destruct (Z.ltb_spec s 0); [lia|]. destruct (Z.ltb_spec e 0); [lia|].
  rewrite length_take, length_drop. lia.
Qed.

Lemma slice_0 {A} (arr : list A) (n : Z) :
  0 <= n → slice arr 0 n = take (Z.to_nat n) arr.
Proof.
  intros Hn. unfold slice. simpl (0 <? 0).
  destruct (Z.ltb_spec n 0); [lia|].
  rewrite (Z.min_l 0) by lia. rewrite Z.sub_0_r.
  change (Z.to_nat 0) with 0%nat. rewrite drop_0.
  destruct (Z.min_spec n (Z.of_nat (length arr))) as [[? ->]|[? ->]]; [done|].
  rewrite Nat2Z.id. rewrite !take_ge; [done|lia|lia].
Qed.

(** A slice taken backwards, or from before the array, is empty. *)
Lemma slice_backwards {A} (arr : list A) (s size : Z) :
  size <= 0 → s < 0 ∨ 0 <= s + size → slice arr s (s + size) = [].
Proof.
  intros Hsize Hs. unfold slice.
  destruct (Z.ltb_spec s 0), (Z.ltb_spec (s + size) 0); try lia;
    match goal with
    | |- take (Z.to_nat ?n) _ = _ => replace (Z.to_nat n) with 0%nat by lia
    end; done.
Qed.

Lemma slice_subset {A} (arr : list A) (s e : Z) (x : A) :
  x ∈ slice arr s e → x ∈ arr.
Proof.
  unfold slice. intros H.
  apply elem_of_take in H as (i & H & _).
  rewrite lookup_drop in H. by eapply list_elem_of_lookup_2.
Qed.

Section Unique.
Context `{EqDecision A}.
Implicit Types arr acc : list A.




Lemma foldl_set_add_NoDup arr : ∀ acc,
  NoDup (acc ++ arr) → foldl set_add acc arr = acc ++ arr.
Proof.
  induction arr as [|x arr IH]; intros acc Hnd; simpl.
  - by rewrite app_nil_r.
  - unfold set_add at 2. case_decide as Hin.
    + apply NoDup_app in Hnd as (_ & Hd & _). exfalso.
      apply (Hd x Hin). left.
    + rewrite IH; rewrite <- app_assoc; done.
Qed.

(** A list without repetition is its own set. *)
Lemma unique_NoDup arr : NoDup arr → unique arr = arr.
Proof. intros H. apply (foldl_set_add_NoDup arr []). done. Qed.

Lemma foldl_set_add_elem arr : ∀ acc x,
  x ∈ foldl set_add acc arr ↔ x ∈ acc ∨ x ∈ arr.
Proof.
  induction arr as [|y arr IH]; intros acc x; simpl.
  - rewrite elem_of_nil. tauto.
  - rewrite IH. unfold set_add. rewrite elem_of_cons.
    case_decide as Hin.
    + split; [tauto|]. intros [?|[->|?]]; tauto.
    + rewrite elem_of_app, list_elem_of_singleton. tauto.
Qed.

Lemma elem_of_unique arr x : x ∈ unique arr ↔ x ∈ arr.
Proof.
  unfold unique. rewrite foldl_set_add_elem, elem_of_nil. tauto.
Qed.



End Unique.
End JSFacts.

(** ** Chunking *)

Module ChunkFacts.
Import JS JSFacts Chunks.

Section Tier.
Context {A : Type}.
Implicit Types (arr : list A) (result : list (list A)).

(** Once [index] has reached the end of the array a tier adds nothing. *)
Lemma tier_loop_done fuel arr size index result :
  Z.of_nat (length arr) <= index →
  tier_loop fuel arr size index result = (index, result).
Proof.
  intros H. destruct fuel; simpl; [done|].
  destruct (Z.ltb_spec index (Z.of_nat (length arr))); [lia|done].
Qed.

Lemma tiers_done arr sizes : ∀ index result,
  Z.of_nat (length arr) <= index → tiers arr sizes index result = result.
Proof.
  induction sizes as [|size sizes IH]; intros index result H; simpl; [done|].
  unfold tier. rewrite tier_loop_done by done. by apply IH.
Qed.

(** A tier of positive size is the loop of [chunkArray]: it runs to the
    end of the array, the last chunk taking what is left. *)
Lemma tier_loop_positive arr size : 0 < size → ∀ fuel index result,
  0 <= index → Z.of_nat (length arr) - index <= Z.of_nat fuel →
  ∃ index', Z.of_nat (length arr) <= index' ∧
    tier_loop fuel arr size index result
    = (index', chunkArray_loop fuel arr size index result).
Proof.
  intros Hsize. induction fuel as [|fuel IH]; intros index result Hi Hfuel; simpl.
  - exists index. split; [lia|done].
  - destruct (Z.ltb_spec index (Z.of_nat (length arr))) as [Hlt|Hge].
    + pose proof (length_slice arr index (index + size)) as Hlen.
      destruct (Nat.eqb_spec (length (slice arr index (index + size))) 0) as [E|_].
      { rewrite E in Hlen. lia. }
      apply IH; lia.
    + exists index. split; [lia|done].
Qed.

(** The loop of a tier makes no more iterations than [tier_fuel] counts:
    more fuel changes nothing. *)
Lemma tier_loop_positive_fuel arr size : 0 < size → ∀ fuel fuel' index result,
  Z.of_nat (length arr) - index <= Z.of_nat fuel →
  Z.of_nat (length arr) - index <= Z.of_nat fuel' →
  tier_loop fuel arr size index result = tier_loop fuel' arr size index result.
Proof.
  intros Hsize. induction fuel as [|fuel IH]; intros fuel' index result H H'.
  - by rewrite !tier_loop_done by lia.
  - destruct fuel' as [|fuel']; [by rewrite !tier_loop_done by lia|].
    cbn [tier_loop].
    destruct (Z.ltb_spec index (Z.of_nat (length arr))); [|done].
    destruct (length (slice arr index (index + size)) =? 0)%nat; [done|].
    apply IH; lia.
Qed.

Lemma tier_loop_backwards arr size : size <= 0 → ∀ fuel index result,
  tier_loop (S (S fuel)) arr size index result = tier_loop 2 arr size index result.
Proof.
  intros Hsize fuel index result. cbn [tier_loop].
  destruct (Z.ltb_spec index (Z.of_nat (length arr))); [|done].
  destruct (decide (index < 0 ∨ 0 <= index + size)) as [Hback|Hfwd].
  { by rewrite slice_backwards. }
  destruct (length (slice arr index (index + size)) =? 0)%nat; [done|].
  destruct (Z.ltb_spec (index + size) (Z.of_nat (length arr))); [|lia].
  rewrite slice_backwards by lia. simpl. by destruct fuel.
Qed.

Lemma tier_fuel_enough arr size index result (fuel : nat) :
  (tier_fuel arr size index <= fuel)%nat →
  tier_loop fuel arr size index result = tier arr size index result.
Proof.
  unfold tier, tier_fuel. destruct (Z.ltb_spec 0 size); intros Hfuel.
  - apply tier_loop_positive_fuel; [done|lia|lia].
  - destruct fuel as [|[|fuel]]; [lia|lia|]. apply tier_loop_backwards. lia.
Qed.

(** The tiers after the first are never reached: with a positive first
    size [progressiveChunks] is [chunkArray] at that size. *)
Lemma progressiveChunks_first_tier arr size sizes :
  0 < size → progressiveChunks arr (size :: sizes) = chunkArray arr size.
Proof.
  intros Hsize. unfold progressiveChunks, chunkArray. simpl. unfold tier, tier_fuel.
  destruct (Z.ltb_spec 0 size); [|lia].
  rewrite Z.sub_0_r, Nat2Z.id.
  destruct (tier_loop_positive arr size Hsize (length arr) 0 []) as (i & Hi & ->);
    [lia|lia|].
  by apply tiers_done.
Qed.

End Tier.

(** The chunks of [chunkArray], put end to end, are the array. *)
Lemma chunkArray_loop_concat {A} (arr : list A) (size : Z) :
  0 < size → ∀ fuel i chunks,
  0 <= i → Z.of_nat (length arr) - i <= Z.of_nat fuel →
  concat chunks = take (Z.to_nat i) arr →
  concat (chunkArray_loop fuel arr size i chunks) = arr.
Proof.
  intros Hsize. induction fuel as [|fuel IH]; intros i chunks Hi Hfuel Hinv; simpl.
  - rewrite Hinv. apply take_ge. lia.
  - destruct (Z.ltb_spec i (Z.of_nat (length arr))) as [Hlt|Hge].
    + apply IH; [lia|lia|].
      rewrite concat_app, Hinv. simpl. rewrite app_nil_r. unfold slice.
      destruct (Z.ltb_spec i 0); [lia|]. destruct (Z.ltb_spec (i + size) 0); [lia|].
      rewrite (Z.min_l i) by lia. rewrite take_take_drop.
      destruct (Z.min_spec (i + size) (Z.of_nat (length arr))) as [[? ->]|[? ->]].
      * f_equal. lia.
      * rewrite !take_ge; [done|lia|lia].
    + rewrite Hinv. apply take_ge. lia.
Qed.

Lemma concat_progressiveChunks (arr : list Z) :
  concat (progressiveChunks arr default_sizes) = arr.
Proof.
  unfold default_sizes. rewrite progressiveChunks_first_tier by lia.
  apply chunkArray_loop_concat; simpl; (done || lia).
Qed.

(** C1. The chunk split of the uploader does not follow the schedule
    [300, 100, 50, 1] tier by tier: the tier of 300 takes the whole input,
    its last chunk being whatever is left. A thousand identifiers are
    split into chunks of 300, 300, 300 and 100, as the schedule has it,
    but 307 identifiers are split into a chunk of 300 and a chunk of 7,
    where the schedule has a chunk of 300 and seven chunks of 1. *)
Theorem progressiveChunks_sizes :
  length <$> progressiveChunks (ids 1 1000) default_sizes = [300; 300; 300; 100]%nat
  ∧ schedule_sizes 1000 default_sizes = [300; 300; 300; 100]
  ∧ length <$> progressiveChunks (ids 1 307) default_sizes = [300; 7]%nat
  ∧ schedule_sizes 307 default_sizes = [300; 1; 1; 1; 1; 1; 1; 1]
  ∧ ∀ arr : list Z, progressiveChunks arr default_sizes = chunkArray arr 300.
Proof.
  repeat split; try (vm_compute; reflexivity).
  intros arr. by apply progressiveChunks_first_tier.
Qed.

End ChunkFacts.

(** ** The paginated fetch *)

Module FetchFacts.
Import JS JSFacts Chunks Hubspot.

Section Errors.
Variables RETRIEVAL_BATCH_SIZE MAX_RETRIES : Z.
Variable api : remote.
Variable listId : Z.
Variable maxCount : count_bound.

Local Abbreviation fetch_loop :=
  (Hubspot.fetch_loop RETRIEVAL_BATCH_SIZE MAX_RETRIES api).

(** Requests fail from the rank after [totalAttempts] on, the request
    of rank [k] with the message [message k]: the run of failures ends
    by the partial result, or by the error of the last request. *)
Lemma fetch_loop_errors (message : nat → string) (allContacts : list Z) (offset : Z) :
  below (length allContacts) maxCount = true →
  ∀ (n : nat) (consecutiveErrors : Z) (totalAttempts fuel : nat),
  (∀ k count off, (totalAttempts < k)%nat →
     list_page api listId k count off = Throw (message k)) →
  Z.of_nat n = Z.max 1 (MAX_RETRIES - consecutiveErrors) →
  (n <= fuel)%nat →
  fetch_loop fuel listId maxCount allContacts true offset consecutiveErrors totalAttempts
  = Some (if 0 <? Z.of_nat (length allContacts)
          then Return (unique allContacts)
          else Throw (fetch_error listId (message (totalAttempts + n)%nat))).
Proof.
  intros Hbelow. induction n as [|n IH]; intros ce attempts fuel Herr Hn Hfuel; [lia|].
  destruct fuel as [|fuel]; [lia|]. simpl. rewrite Hbelow. simpl.
  rewrite Herr by lia.
  destruct (Z.leb_spec MAX_RETRIES (ce + 1)) as [Hmax|Hmax].
  - assert (n = 0%nat) as -> by lia.
    replace (attempts + 1)%nat with (S attempts) by lia.
    destruct (Z.ltb_spec 0 (Z.of_nat (length allContacts))) as [Hpos|Hzero]; simpl; [done|].
    destruct (Z.eqb_spec (Z.of_nat (length allContacts)) 0); [done|lia].
  - rewrite !andb_false_r.
    rewrite (IH (ce + 1) (S attempts) fuel); [|intros; apply Herr; lia|lia|lia].
    by replace (S attempts + n)%nat with (attempts + S n)%nat by lia.
Qed.

End Errors.

(** *** The cap [maxCount] *)

Section Cap.
Variables RETRIEVAL_BATCH_SIZE MAX_RETRIES : Z.
Variable api : remote.
Variable listId : Z.
Variable N : Z.

Local Abbreviation fetch_loop :=
  (Hubspot.fetch_loop RETRIEVAL_BATCH_SIZE MAX_RETRIES api).



(** More fuel does not change what the loop returns. *)
Lemma fetch_loop_fuel maxCount : ∀ fuel fuel' allContacts hasMore offset
    consecutiveErrors totalAttempts result,
  (fuel <= fuel')%nat →
  fetch_loop fuel listId maxCount allContacts hasMore offset
    consecutiveErrors totalAttempts = Some result →
  fetch_loop fuel' listId maxCount allContacts hasMore offset
    consecutiveErrors totalAttempts = Some result.
Proof.
  induction fuel as [|fuel IH];
    intros fuel' allContacts hasMore offset ce attempts result Hle.
  - simpl. destruct fuel'; simpl; destruct (hasMore && _); done.
  - destruct fuel' as [|fuel']; [lia|]. simpl.
    destruct (hasMore && _); [|done].
    destruct (list_page _ _ _ _ _) as [res|message].
    + destruct (negb _); [done|]. apply IH. lia.
    + destruct (_ && _); [done|]. destruct (_ && _); [done|]. apply IH. lia.
Qed.

End Cap.

(** *** A list that serves its members in order *)

Section Source.
Variables RETRIEVAL_BATCH_SIZE MAX_RETRIES : Z.
Variable api : remote.
Variable listId : Z.
Variable N : Z.
Variable members : list Z.
Variable fails : nat → bool.
Variable message : nat → string.

Hypothesis batch_positive : 1 <= RETRIEVAL_BATCH_SIZE.
Hypothesis enough_members : 0 <= N <= Z.of_nat (length members).
(** The request of rank [k] fails when [fails k], and is served
    otherwise. *)
Hypothesis source : ∀ rank count off,
  list_page api listId rank count off
  = if fails rank then Throw (message rank) else Return (serve members count off).
(** No run of requests failing in a row reaches the limit. *)
Hypothesis never_terminal : ∀ r j,
  (∀ i, (i < j)%nat → fails (r + i) = true) → Z.of_nat j < MAX_RETRIES.

Local Abbreviation fetch_loop :=
  (Hubspot.fetch_loop RETRIEVAL_BATCH_SIZE MAX_RETRIES api).





End Source.




End FetchFacts.

(** ** The chunked upload *)

Module UploadFacts.
Import JS JSFacts Chunks ChunkFacts Hubspot.

Section Upload.
Variable MAX_RETRIES : Z.
Variable api : remote.
Variable listId : Z.

Local Abbreviation upload_attempt := (Hubspot.upload_attempt MAX_RETRIES api listId).
Local Abbreviation upload_chunk := (Hubspot.upload_chunk MAX_RETRIES api).
Local Abbreviation upload_chunks := (Hubspot.upload_chunks MAX_RETRIES api listId).

(** The [catch] block takes every error of the request. *)
Lemma upload_attempt_returns chunk retries u : returns (upload_attempt chunk retries u).
Proof.
  unfold returns, Hubspot.upload_attempt.
  destruct (list_add api listId (S (posts u)) chunk) as [[]|message]; simpl.
  - by eexists.
  - destruct (_ <? _); by eexists.
Qed.

Lemma upload_chunk_returns chunk : ∀ fuel retries success u,
  returns (upload_chunk fuel listId chunk retries success u).
Proof.
  induction fuel as [|fuel IH]; intros retries success u; simpl.
  - destruct (_ && _); by eexists.
  - destruct (_ && _); [|by eexists].
    destruct (upload_attempt_returns chunk retries u) as [[[r s] u'] ->]. simpl.
    apply IH.
Qed.

Lemma upload_chunks_returns : ∀ chunks u, returns (upload_chunks chunks u).
Proof.
  induction chunks as [|chunk chunks IH]; intros u; simpl; [by eexists|].
  destruct (upload_chunk_returns chunk (Z.to_nat MAX_RETRIES) 0 false u) as [u' ->].
  simpl. apply IH.
Qed.

(** What the retry loop of a chunk leaves: the chunk is added at the
    first request that succeeds, or recorded as failed when the
    [MAX_RETRIES] requests fail. *)
Lemma upload_chunk_outcome chunk : ∀ (k : nat) retries u,
  Z.of_nat k = MAX_RETRIES - retries → (0 < k)%nat →
  ∃ u', upload_chunk k listId chunk retries false u = Return u'
    ∧ ((∃ i, (i < k)%nat ∧ fails_in_a_row api listId chunk u i
             ∧ list_add api listId (S (posts u + i)) chunk = Return ()
             ∧ u' = Upload (successCount u + Z.of_nat (length chunk)) (failedChunks u)
                      (S (posts u + i)))
       ∨ (fails_in_a_row api listId chunk u k
          ∧ u' = Upload (successCount u) (failedChunks u ++ [chunk]) (posts u + k))).
Proof.
  induction k as [|k IH]; intros retries u Hk Hpos; [lia|]. simpl.
  destruct (Z.ltb_spec retries MAX_RETRIES); [|lia]. simpl.
  unfold Hubspot.upload_attempt.
  destruct (list_add api listId (S (posts u)) chunk) as [[]|message] eqn:Hadd; simpl.
  - (* added at this request *)
    exists (Upload (successCount u + Z.of_nat (length chunk)) (failedChunks u) (S (posts u))).
    split.
    { destruct k; simpl; by rewrite andb_false_r. }
    left. exists 0%nat. rewrite Nat.add_0_r. repeat split; [lia| |done].
    intros j Hj. lia.
  - destruct (Z.ltb_spec (retries + 1) MAX_RETRIES) as [Hlt|Hge]; simpl.
    + (* another attempt *)
      destruct (IH (retries + 1) (Upload (successCount u) (failedChunks u) (S (posts u))))
        as (u' & -> & Hu'); [lia|lia|].
      exists u'. split; [done|]. simpl in Hu'.
      destruct Hu' as [(i & Hi & Hrow & Hok & ->)|(Hrow & ->)]; [left|right].
      * exists (S i). replace (posts u + S i)%nat with (S (posts u) + i)%nat by lia.
        repeat split; [lia| |done].
        intros [|j] Hj; [rewrite Nat.add_0_r; by eexists|].
        replace (posts u + S j)%nat with (S (posts u) + j)%nat by lia. apply Hrow. lia.
      * replace (posts u + S k)%nat with (S (posts u) + k)%nat by lia. split; [|done].
        intros [|j] Hj; [rewrite Nat.add_0_r; by eexists|].
        replace (posts u + S j)%nat with (S (posts u) + j)%nat by lia. apply Hrow. lia.
    + (* the last attempt failed *)
      assert (k = 0%nat) as -> by lia.
      exists (Upload (successCount u) (failedChunks u ++ [chunk]) (S (posts u))).
      split; [simpl; by destruct (_ && _)|].
      right. replace (posts u + 1)%nat with (S (posts u)) by lia.
      split; [|done]. intros j Hj. replace j with 0%nat by lia.
      rewrite Nat.add_0_r. by eexists.
Qed.

(** Every chunk is added or recorded as failed: none is dropped. *)
Lemma upload_chunks_conservation : 1 <= MAX_RETRIES → ∀ chunks u u',
  upload_chunks chunks u = Return u' →
  successCount u' + Z.of_nat (length (concat (failedChunks u')))
  = successCount u + Z.of_nat (length (concat (failedChunks u)))
    + Z.of_nat (length (concat chunks)).
Proof.
  intros Hmax. induction chunks as [|chunk chunks IH]; intros u u' H; simpl in *.
  - injection H as <-. lia.
  - destruct (upload_chunk_outcome chunk (Z.to_nat MAX_RETRIES) 0 u) as (u1 & Hu1 & Hcase);
      [lia|lia|].
    rewrite Hu1 in H. simpl in H. apply IH in H. rewrite H, length_app.
    destruct Hcase as [(i & _ & _ & _ & ->)|(_ & ->)]; simpl.
    + lia.
    + rewrite concat_app, length_app. simpl. rewrite app_nil_r. lia.
Qed.

(** When the remote refuses the chunks that [bad] selects, at every
    attempt, and takes the others: the failed chunks are the bad ones,
    and every other chunk is added, those after a bad chunk too. *)
Lemma upload_chunks_bad (bad : list Z → bool) :
  1 <= MAX_RETRIES →
  (∀ rank chunk, list_add api listId rank chunk = Return () ↔ bad chunk = false) →
  ∀ chunks u u',
  upload_chunks chunks u = Return u' →
  failedChunks u' = failedChunks u ++ filter (fun c => bad c = true) chunks
  ∧ successCount u'
    = successCount u
      + Z.of_nat (length (concat (filter (fun c => bad c = false) chunks))).
Proof.
  intros Hmax Hbad. induction chunks as [|chunk chunks IH]; intros u u' H; simpl in *.
  - injection H as <-. rewrite app_nil_r. split; [done|lia].
  - destruct (upload_chunk_outcome chunk (Z.to_nat MAX_RETRIES) 0 u) as (u1 & Hu1 & Hcase);
      [lia|lia|].
    rewrite Hu1 in H. simpl in H. apply IH in H as [Hf Hs]. rewrite Hf, Hs.
    destruct Hcase as [(i & _ & _ & Hok & ->)|(Hrow & ->)]; simpl.
    + apply Hbad in Hok. rewrite !filter_cons. rewrite Hok.
      destruct (decide (false = true)); [done|]. destruct (decide (false = false)); [|done].
      split; [done|]. simpl. rewrite length_app. lia.
    + destruct (Hrow 0%nat) as [message Hthrow]; [lia|]. rewrite Nat.add_0_r in Hthrow.
      assert (bad chunk = true) as Hb.
      { destruct (bad chunk) eqn:E; [done|].
        pose proof (proj2 (Hbad (S (posts u)) chunk) E). congruence. }
      rewrite !filter_cons. rewrite Hb.
      destruct (decide (true = true)); [|done]. destruct (decide (true = false)); [done|].
      rewrite <- app_assoc. split; [done|lia].
Qed.

End Upload.

(** The upload of lines 161-211. Whatever the remote answers to the
    requests, the chunked upload returns and raises nothing. With no
    identifier it returns at once, without a request. With a retry
    limit of one or more, every chunk is either added or, its retries
    exhausted, recorded as failed, and the
    chunks after it are still sent: the identifiers added and those of
    the failed chunks make up the whole input, and when the remote
    refuses some chunks at every attempt and takes the others, the
    failed chunks are the refused ones and all the others are added. *)
Lemma addContactsToList_never_raises MAX_RETRIES api listId (contacts : list Z) :
  ∃ u, addContactsToList MAX_RETRIES api listId contacts = Return u
    ∧ (contacts = [] → u = Upload 0 [] 0)
    ∧ (1 <= MAX_RETRIES →
       successCount u + Z.of_nat (length (concat (failedChunks u)))
       = Z.of_nat (length contacts))
    ∧ (1 <= MAX_RETRIES →
       ∀ bad : list Z → bool,
       (∀ rank chunk, list_add api listId rank chunk = Return () ↔ bad chunk = false) →
       failedChunks u
       = filter (fun c => bad c = true) (progressiveChunks contacts default_sizes)
       ∧ successCount u
         = Z.of_nat (length (concat (filter (fun c => bad c = false)
                                       (progressiveChunks contacts default_sizes))))).
Proof.
  unfold addContactsToList. destruct contacts as [|vid contacts].
  - exists (Upload 0 [] 0). simpl. repeat split; try done.
  - change (Nat.eqb (length (vid :: contacts)) 0) with false. cbv iota.
    destruct (upload_chunks_returns MAX_RETRIES api listId
                (progressiveChunks (vid :: contacts) default_sizes) (Upload 0 [] 0))
      as [u Hu].
    exists u. split; [done|]. split; [done|]. split.
    + intros Hmax. rewrite (upload_chunks_conservation _ _ _ Hmax _ _ _ Hu).
      simpl. by rewrite concat_progressiveChunks.
    + intros Hmax bad Hbad.
      destruct (upload_chunks_bad _ _ _ bad Hmax Hbad _ _ _ Hu) as [-> ->].
      simpl. done.
Qed.

End UploadFacts.

(** ** The shared set of used identifiers *)

Module AllocationFacts.
Import JS JSFacts Chunks Hubspot.

Section Campaign.
Variables RETRIEVAL_BATCH_SIZE MAX_RETRIES : Z.
Variable api : remote.

Local Abbreviation fetch_contacts :=
  (Hubspot.fetch_contacts RETRIEVAL_BATCH_SIZE MAX_RETRIES api).
Local Abbreviation processSingleCampaign :=
  (Hubspot.processSingleCampaign RETRIEVAL_BATCH_SIZE MAX_RETRIES api).

Lemma elem_of_unused used vids x : x ∈ unused used vids → x ∉ used.
Proof. unfold unused. rewrite list_elem_of_filter. tauto. Qed.

(** Both lists come out of the [try] block filtered against the set. *)
Lemma fetch_contacts_unused fuel config used f x :
  fetch_contacts fuel config used = Some f →
  x ∈ primaryContacts f ++ secondaryContacts f → x ∉ used.
Proof.
  unfold Hubspot.fetch_contacts. intros H Hx.
  destruct (getContactsFromList _ _ _ _ _ _) as [[primary|]|]; simpl in H; [| |done].
  - destruct (secondaryListId config) as [secondary|].
    + destruct (_ && _).
      * destruct (getContactsFromList _ _ _ _ _ _) as [[sec|]|]; simpl in H; [| |done];
          injection H as <-; simpl in Hx; rewrite ?app_nil_r in Hx.
        -- apply elem_of_app in Hx as [Hx|Hx]; by eapply elem_of_unused.
        -- by eapply elem_of_unused.
      * injection H as <-. simpl in Hx. rewrite app_nil_r in Hx. by eapply elem_of_unused.
    + injection H as <-. simpl in Hx. rewrite app_nil_r in Hx. by eapply elem_of_unused.
  - injection H as <-. simpl in Hx. by apply elem_of_nil in Hx.
Qed.

(** A call selects among the identifiers that are not in the set, and
    leaves the set grown by its selection. *)
Lemma processSingleCampaign_selection fuel config daysFilter modeFilter used c :
  processSingleCampaign fuel config daysFilter modeFilter used = Some c →
  (∀ x, x ∈ selectedContacts c → x ∉ used)
  ∧ used_after c = used ∪ list_to_set (selectedContacts c).
Proof.
  unfold Hubspot.processSingleCampaign. intros H.
  destruct (fetch_contacts fuel config used) as [f|] eqn:Hf; simpl in H; [|done].
  injection H as <-. simpl. split; [|done].
  intros x Hx. apply slice_subset in Hx. by eapply fetch_contacts_unused.
Qed.

End Campaign.

Section Run.
Variables RETRIEVAL_BATCH_SIZE MAX_RETRIES : Z.
Variable apis : nat → remote.

Lemma campaigns_loop_settled fuel daysFilter modeFilter : ∀ listConfigs index r r',
  settled r →
  campaigns_loop RETRIEVAL_BATCH_SIZE MAX_RETRIES apis fuel index listConfigs
    daysFilter modeFilter r = Some r' →
  settled r'.
Proof.
  induction listConfigs as [|config listConfigs IH]; intros index r r' Hr H; simpl in H.
  - by injection H as <-.
  - destruct (processSingleCampaign _ _ _ _ _ _ _ _) as [c|] eqn:Hc; simpl in H; [|done].
    apply processSingleCampaign_selection in Hc as [Hnew Hafter].
    apply IH in H; [done|]. destruct Hr as [Hin Hdisj]. split; simpl.
    + intros i s x Hi Hx. rewrite Hafter.
      apply lookup_snoc_Some in Hi as [[_ Hi]|[_ <-]].
      * apply elem_of_union. left. by eapply Hin.
      * apply elem_of_union. right. by apply elem_of_list_to_set.
    + intros i j si sj x Hij Hi Hj Hx Hx'.
      apply lookup_snoc_Some in Hi as [[Hli Hi]|[Hli <-]];
        apply lookup_snoc_Some in Hj as [[Hlj Hj]|[Hlj <-]].
      * by eapply (Hdisj i j).
      * eapply Hnew; [done|]. by eapply Hin.
      * eapply Hnew; [done|]. by eapply Hin.
      * lia.
Qed.

End Run.

(** C3. In a run that shares one set of used identifiers: every
    identifier a campaign selects is put into the set, and is not in
    the set as the campaign found it, the fetched identifiers being
    filtered against it before the selection. Hence two calls in
    sequence on the same set select no identifier in common, whatever
    the remote answers to either, and no two campaigns of a run do. *)
Theorem selections_never_overlap RETRIEVAL_BATCH_SIZE MAX_RETRIES :
  (∀ api fuel config daysFilter modeFilter used c,
     processSingleCampaign RETRIEVAL_BATCH_SIZE MAX_RETRIES api fuel config
       daysFilter modeFilter used = Some c →
     ∀ x, x ∈ selectedContacts c → x ∈ used_after c ∧ x ∉ used)
  ∧ (∀ api1 api2 fuel1 fuel2 config1 config2 daysFilter modeFilter used c1 c2,
       processSingleCampaign RETRIEVAL_BATCH_SIZE MAX_RETRIES api1 fuel1 config1
         daysFilter modeFilter used = Some c1 →
       processSingleCampaign RETRIEVAL_BATCH_SIZE MAX_RETRIES api2 fuel2 config2
         daysFilter modeFilter (used_after c1) = Some c2 →
       ∀ x, x ∈ selectedContacts c1 → x ∉ selectedContacts c2)
  ∧ (∀ apis fuel listConfigs daysFilter modeFilter r,
       processCampaignsWithDelay RETRIEVAL_BATCH_SIZE MAX_RETRIES apis fuel listConfigs
         daysFilter modeFilter = Some r →
       ∀ i j si sj x, i ≠ j →
         selections r !! i = Some si → selections r !! j = Some sj →
         x ∈ si → x ∉ sj).
Proof.
  split; [|split].
  - intros api fuel config d m used c H x Hx.
    apply processSingleCampaign_selection in H as [Hnew ->]. split; [|by apply Hnew].
    apply elem_of_union. right. by apply elem_of_list_to_set.
  - intros api1 api2 fuel1 fuel2 config1 config2 d m used c1 c2 H1 H2 x Hx1 Hx2.
    apply processSingleCampaign_selection in H1 as [_ H1].
    apply processSingleCampaign_selection in H2 as [H2 _].
    apply (H2 x Hx2). rewrite H1. apply elem_of_union. right. by apply elem_of_list_to_set.
  - intros apis fuel listConfigs d m r H.
    apply campaigns_loop_settled in H as [_ H]; [done|].
    split; intros *; rewrite ?lookup_nil; done.
Qed.

(** Two campaigns for two contacts each draw on the same list of five:
    the first selects 1 and 2, the second 3 and 4. *)
Lemma selections_never_overlap_witness :
  ∃ r, processCampaignsWithDelay 1000 3
         (fun _ => Doubles.upload_api (fun _ => ids 1 5) (fun _ => false)) 5
         [Doubles.campaign_for 1 None 2; Doubles.campaign_for 1 None 2] "today" "BAU"
       = Some r
    ∧ selections r = [[1; 2]; [3; 4]]
    ∧ ∀ x, x ∈ [1; 2] → x ∉ [3; 4].
Proof.
  destruct (processCampaignsWithDelay 1000 3
              (fun _ => Doubles.upload_api (fun _ => ids 1 5) (fun _ => false)) 5
              [Doubles.campaign_for 1 None 2; Doubles.campaign_for 1 None 2] "today" "BAU")
    as [r|] eqn:Hr; [|vm_compute in Hr; discriminate].
  exists r. split; [reflexivity|].
  assert (Hsel : selections r = [[1; 2]; [3; 4]]).
  { vm_compute in Hr. injection Hr as <-. reflexivity. }
  split; [exact Hsel|].
  destruct (selections_never_overlap 1000 3) as (_ & _ & H).
  intros x. apply (H _ _ _ _ _ r Hr 0%nat 1%nat [1; 2] [3; 4] x).
  - lia.
  - rewrite Hsel. reflexivity.
  - rewrite Hsel. reflexivity.
Defined.

End AllocationFacts.

(** ** Rounding to binary64 *)

Module RoundingFacts.
Import Rounding.

(** *** The number of binary digits *)

Lemma digits2_size (p : positive) : digits2_pos p = Pos.size p.
Proof. induction p as [p IH|p IH|]; simpl; congruence. Qed.

Lemma Zdigits2_bounds (p : positive) :
  2 ^ (Zdigits2 (Z.pos p) - 1) <= Z.pos p < 2 ^ Zdigits2 (Z.pos p).
Proof.
  cbn [Zdigits2]. rewrite digits2_size.
  pose proof (Pos.size_gt p) as Hgt. pose proof (Pos.size_le p) as Hle.
  apply Pos2Z.pos_lt_pos in Hgt. apply Pos2Z.pos_le_pos in Hle.
  rewrite Pos2Z.inj_pow in Hgt, Hle. change (Z.pos p~0) with (2 * Z.pos p) in Hle.
  replace (2 ^ Z.pos (Pos.size p)) with (2 * 2 ^ (Z.pos (Pos.size p) - 1)) in Hle.
  - split; [lia|]. replace (2 * 2 ^ (Z.pos (Pos.size p) - 1)) with (2 ^ Z.pos (Pos.size p)); [done|].
    rewrite <- Z.pow_succ_r by lia. f_equal. lia.
  - rewrite <- Z.pow_succ_r by lia. f_equal. lia.
Qed.

Lemma Zdigits2_unique (p : positive) (d : Z) :
  2 ^ (d - 1) <= Z.pos p < 2 ^ d → Zdigits2 (Z.pos p) = d.
Proof.
  intros [Hlo Hhi]. pose proof (Zdigits2_bounds p) as [Hlo' Hhi'].
  assert (0 < Zdigits2 (Z.pos p)) by (cbn; lia).
  assert (0 < d).
  { destruct (Z.lt_trichotomy d 0) as [Hneg|[->|Hpos]]; [|simpl in Hhi; lia|done].
    rewrite Z.pow_neg_r in Hhi by done. lia. }
  destruct (Z.lt_trichotomy (Zdigits2 (Z.pos p)) d) as [Hlt|[Heq|Hgt]]; [|done|].
  - assert (2 ^ Zdigits2 (Z.pos p) <= 2 ^ (d - 1)) by (apply Z.pow_le_mono_r; lia). lia.
  - assert (2 ^ d <= 2 ^ (Zdigits2 (Z.pos p) - 1)) by (apply Z.pow_le_mono_r; lia). lia.
Qed.

Lemma Zdigits2_range (p : positive) (lo hi : Z) :
  0 <= lo → 2 ^ lo <= Z.pos p < 2 ^ hi → lo + 1 <= Zdigits2 (Z.pos p) <= hi.
Proof.
  intros Hlo [H1 H2]. pose proof (Zdigits2_bounds p) as [H3 H4].
  assert (0 < Zdigits2 (Z.pos p)) by (cbn; lia).
  split.
  - destruct (Z.le_gt_cases (lo + 1) (Zdigits2 (Z.pos p))) as [|Hgt]; [done|].
    assert (2 ^ Zdigits2 (Z.pos p) <= 2 ^ lo) by (apply Z.pow_le_mono_r; lia). lia.
  - destruct (Z.le_gt_cases (Zdigits2 (Z.pos p)) hi) as [|Hgt]; [done|].
    assert (2 ^ hi <= 2 ^ (Zdigits2 (Z.pos p) - 1)) by (apply Z.pow_le_mono_r; lia). lia.
Qed.

(** *** Shifting a mantissa to the right *)

Lemma located_floor mrs a b :
  0 < b → located mrs a b → shr_m mrs * b <= a < (shr_m mrs + 1) * b.
Proof.
  intros Hb [Hm H]. destruct (shr_r mrs), (shr_s mrs); nia.
Qed.

(** One shift halves the mantissa and keeps the place of the number. *)
Lemma shr_1_located mrs a b :
  0 < b → located mrs a b → located (shr_1 mrs) a (2 * b).
Proof.
  intros Hb [Hm H]. destruct mrs as [m r s]. cbn [shr_m shr_r shr_s] in *.
  destruct m as [|[p|p|]|p]; [| | | |lia]; destruct r, s; cbn [shr_1 orb];
    (split; [cbn [shr_m]; lia|]); cbn [shr_m shr_r shr_s]; nia.
Qed.

Lemma iter_shr_1_located (p : positive) : ∀ mrs a b,
  0 < b → located mrs a b → located (SpecFloat.iter_pos shr_1 p mrs) a (2 ^ Z.pos p * b).
Proof.
  induction p as [p IH|p IH|]; intros mrs a b Hb H; cbn [SpecFloat.iter_pos].
  - replace (2 ^ Z.pos p~1 * b) with (2 ^ Z.pos p * (2 ^ Z.pos p * (2 * b))).
    + apply IH; [|apply IH; [lia|by apply shr_1_located]].
      pose proof (Z.pow_pos_nonneg 2 (Z.pos p) ltac:(lia) ltac:(lia)). nia.
    + replace (Z.pos p~1) with (Z.pos p + Z.pos p + 1) by lia.
      rewrite !Z.pow_add_r, Z.pow_1_r by lia. ring.
  - replace (2 ^ Z.pos p~0 * b) with (2 ^ Z.pos p * (2 ^ Z.pos p * b)).
    + apply IH; [|by apply IH].
      pose proof (Z.pow_pos_nonneg 2 (Z.pos p) ltac:(lia) ltac:(lia)). nia.
    + replace (Z.pos p~0) with (Z.pos p + Z.pos p) by lia.
      rewrite !Z.pow_add_r by lia. ring.
  - rewrite Z.pow_1_r. by apply shr_1_located.
Qed.

(** [shr] by [n] places, for any [n] that is not negative. *)
Lemma shr_located mrs e (n : Z) a b :
  0 <= n → 0 < b → located mrs a b →
  located (shr mrs e n).1 a (2 ^ n * b) ∧ (shr mrs e n).2 = e + n.
Proof.
  intros Hn Hb H. destruct n as [|p|p]; [| |lia]; cbn [shr fst snd].
  - rewrite Z.pow_0_r, Z.mul_1_l, Z.add_0_r. done.
  - split; [by apply iter_shr_1_located|done].
Qed.

(** *** Rounding to the nearest, ties to even *)

Lemma round_nearest_even_located mrs a b :
  0 < b → located mrs a b →
  let m1 := round_nearest_even (shr_m mrs) (loc_of_shr_record mrs) in
  shr_m mrs <= m1 <= shr_m mrs + 1
  ∧ - b <= 2 * (m1 * b) - 2 * a <= b
  ∧ (shr_r mrs = false → shr_s mrs = false → m1 = shr_m mrs).
Proof.
  intros Hb [Hm H]. destruct mrs as [m r s]. cbn [shr_m shr_r shr_s] in *.
  destruct r, s; cbn [loc_of_shr_record round_nearest_even]; try (repeat split; (done || nia)).
  destruct (Z.even m); repeat split; (done || nia).
Qed.

Lemma located_of_loc_exact (m : Z) : 0 <= m → located (shr_record_of_loc m loc_Exact) m 1.
Proof. intros Hm. split; [done|]. simpl. lia. Qed.

(** *** [binary_round_aux], for binary64, away from the subnormal
    numbers and from the overflow *)

(** A mantissa of 53 digits or more, with the place of the number that
    is rounded: the result has 53 digits, and is away from the number by
    [2^-53] of itself at most. *)
Lemma binary_round_aux_spec sx (mx : positive) ex lx a b :
  0 < b → located (shr_record_of_loc (Z.pos mx) lx) a b →
  let n := Zdigits2 (Z.pos mx) - 53 in
  0 <= n → -1074 <= ex + n → ex + n < 971 →
  ∃ (m : positive) (e : Z),
    binary_round_aux 53 1024 sx (Z.pos mx) ex lx = S754_finite sx m e
    ∧ ex + n <= e <= ex + n + 1
    ∧ 2 ^ 52 <= Z.pos m < 2 ^ 53
    ∧ 2 ^ 52 * Z.abs (2 * (Z.pos m * 2 ^ (e - ex) * b) - 2 * a)
      <= Z.pos m * 2 ^ (e - ex) * b
    ∧ (lx = loc_Exact → n = 0 → m = mx ∧ e = ex).
Proof.
  intros Hb Hloc n Hn Hmin Hmax.
  pose proof (Zdigits2_bounds mx) as Hdigits. fold n in Hdigits.
  assert (HT : 0 < 2 ^ n) by (apply Z.pow_pos_nonneg; lia).
  assert (Hlo : 2 ^ 52 * 2 ^ n <= Z.pos mx).
  { rewrite <- Z.pow_add_r by lia. replace (52 + n) with (Zdigits2 (Z.pos mx) - 1) by lia.
    apply Hdigits. }
  assert (Hhi : Z.pos mx < 2 ^ 53 * 2 ^ n).
  { rewrite <- Z.pow_add_r by lia. replace (53 + n) with (Zdigits2 (Z.pos mx)) by lia.
    apply Hdigits. }
  unfold binary_round_aux, shr_fexp.
  assert (Hshift : fexp 53 1024 (Zdigits2 (Z.pos mx) + ex) - ex = n).
  { unfold fexp, emin. lia. }
  rewrite Hshift.
  destruct (shr_located (shr_record_of_loc (Z.pos mx) lx) ex n a b Hn Hb Hloc) as [Hloc' He'].
  destruct (shr (shr_record_of_loc (Z.pos mx) lx) ex n) as [mrs' e'] eqn:Hshr.
  cbn [fst snd] in Hloc', He'. subst e'.
  set (T := 2 ^ n) in *.
  pose proof (located_floor _ _ _ Hb Hloc) as Hfloor.
  assert (HTb : 0 < T * b) by nia.
  pose proof (located_floor _ _ _ HTb Hloc') as Hfloor'.
  assert (Hmx : shr_m (shr_record_of_loc (Z.pos mx) lx) = Z.pos mx) by by destruct lx as [|[]].
  rewrite Hmx in Hfloor.
  assert (Hm' : 2 ^ 52 <= shr_m mrs' < 2 ^ 53).
  { split.
    - assert (2 ^ 52 * (T * b) < (shr_m mrs' + 1) * (T * b)) by nia.
      apply Z.mul_lt_mono_pos_r in H; lia.
    - assert (shr_m mrs' * (T * b) < 2 ^ 53 * (T * b)) by nia.
      apply Z.mul_lt_mono_pos_r in H; lia. }
  destruct (round_nearest_even_located mrs' a (T * b) HTb Hloc') as (Hm1 & Herr & Hexact).
  set (m1 := round_nearest_even (shr_m mrs') (loc_of_shr_record mrs')) in *.
  assert (Hrel : 2 ^ 52 * Z.abs (2 * (m1 * T * b) - 2 * a) <= m1 * T * b).
  { replace (m1 * T * b) with (m1 * (T * b)) by ring.
    assert (Z.abs (2 * (m1 * (T * b)) - 2 * a) <= T * b) by lia.
    assert (2 ^ 52 * (T * b) <= m1 * (T * b)) by (apply Z.mul_le_mono_nonneg_r; lia).
    nia. }
  destruct (Z.eq_dec m1 (2 ^ 53)) as [Hcarry|Hnocarry].
  - (* the mantissa rounded up to [2^53] *)
    rewrite Hcarry in *. change (Zdigits2 (2 ^ 53)) with 54.
    replace (fexp 53 1024 (54 + (ex + n)) - (ex + n)) with 1 by (unfold fexp, emin; lia).
    cbn [shr_record_of_loc shr SpecFloat.iter_pos shr_1 shr_m].
    change (2 ^ 53) with (Z.pos (2 ^ 52)~0) at 1. cbn [orb].
    destruct (Z.leb_spec (ex + n + 1) (1024 - 53)); [|lia].
    exists (2 ^ 52)%positive, (ex + n + 1). split; [done|]. split; [lia|].
    split; [done|]. split.
    + replace (ex + n + 1 - ex) with (n + 1) by lia.
      rewrite Z.pow_add_r, Z.pow_1_r by lia. fold T.
      replace (Z.pos (2 ^ 52) * (T * 2) * b) with (2 ^ 53 * T * b) by (change (Z.pos (2 ^ 52)) with (2 ^ 52); change (2 ^ 53) with (2 ^ 52 * 2); ring).
      exact Hrel.
    + intros -> Hn0. exfalso.
      assert (Hsame : mrs' = shr_record_of_loc (Z.pos mx) loc_Exact).
      { rewrite Hn0 in Hshr. cbn [shr] in Hshr. by injection Hshr as <-. }
      subst mrs'. cbn [shr_record_of_loc shr_m shr_r shr_s] in *.
      specialize (Hexact eq_refl eq_refl). subst T. rewrite Hn0 in *.
      change (2 ^ 0) with 1 in *. lia.
  - assert (Hm1' : 2 ^ 52 <= m1 < 2 ^ 53) by lia.
    destruct m1 as [|q|q] eqn:Hq; [lia| |lia].
    rewrite (Zdigits2_unique q 53) by (change (53 - 1) with 52; lia).
    replace (fexp 53 1024 (53 + (ex + n)) - (ex + n)) with 0 by (unfold fexp, emin; lia).
    cbn [shr_record_of_loc shr shr_m].
    destruct (Z.leb_spec (ex + n) (1024 - 53)); [|lia].
    exists q, (ex + n). split; [done|]. split; [lia|]. split; [done|]. split.
    + replace (ex + n - ex) with n by lia. fold T. exact Hrel.
    + intros -> Hn0.
      assert (Hsame : mrs' = shr_record_of_loc (Z.pos mx) loc_Exact).
      { rewrite Hn0 in Hshr. cbn [shr] in Hshr. by injection Hshr as <-. }
      subst mrs'. cbn [shr_record_of_loc shr_m shr_r shr_s] in *.
      specialize (Hexact eq_refl eq_refl). split; [congruence|lia].
Qed.

(** *** The operations of [JSNumber] *)

Lemma pos_iter_xO (p k : positive) : Z.pos (Pos.iter xO p k) = Z.pos p * 2 ^ Z.pos k.
Proof.
  rewrite (Pos.iter_swap_gen _ _ Z.pos xO (Z.mul 2)) by done.
  change (Pos.iter (Z.mul 2) (Z.pos p) k) with (Z.shiftl (Z.pos p) (Z.pos k)).
  by rewrite Z.shiftl_mul_pow2.
Qed.

(** An integer below [2^53] is a number, exactly: its mantissa is the
    integer shifted to 53 digits. *)
Lemma of_int_spec (z : Z) :
  0 < z < 2 ^ 53 →
  ∃ (m : positive) (k : Z),
    JSNumber.of_int z = S754_finite false m (- k)
    ∧ 0 <= k <= 52 ∧ Z.pos m = z * 2 ^ k ∧ 2 ^ 52 <= Z.pos m < 2 ^ 53.
Proof.
  intros Hz. destruct z as [|p|p]; [lia| |lia].
  unfold JSNumber.of_int, binary_normalize, binary_round.
  pose proof (Zdigits2_bounds p) as Hd. cbn [Zdigits2] in Hd.
  set (d := Z.pos (digits2_pos p)) in *.
  assert (Hd53 : 1 <= d <= 53).
  { split; [subst d; lia|].
    destruct (Z.le_gt_cases d 53) as [|Hgt]; [done|].
    assert (2 ^ 53 <= 2 ^ (d - 1)) by (apply Z.pow_le_mono_r; lia). lia. }
  replace (fexp 53 1024 (d + 0)) with (d - 53) by (unfold fexp, emin; lia).
  assert (Hshl : ∃ mz, shl_align p 0 (d - 53) = (mz, d - 53)
                       ∧ Z.pos mz = Z.pos p * 2 ^ (53 - d)).
  { unfold shl_align. destruct (d - 53 - 0) as [|k|k] eqn:Hk; [|lia|].
    - exists p. assert (d = 53) as -> by lia. split; [done|]. simpl. lia.
    - eexists. split; [reflexivity|]. rewrite pos_iter_xO. do 2 f_equal. lia. }
  destruct Hshl as (mz & -> & Hmz).
  assert (Hmz53 : 2 ^ 52 <= Z.pos mz < 2 ^ 53).
  { assert (H52 : 2 ^ 52 = 2 ^ (d - 1) * 2 ^ (53 - d))
      by (rewrite <- Z.pow_add_r by lia; f_equal; lia).
    assert (H53 : 2 ^ 53 = 2 ^ d * 2 ^ (53 - d))
      by (rewrite <- Z.pow_add_r by lia; f_equal; lia).
    assert (0 < 2 ^ (53 - d)) by (apply Z.pow_pos_nonneg; lia).
    rewrite Hmz, H52, H53. nia. }
  destruct (binary_round_aux_spec false mz (d - 53) loc_Exact (Z.pos mz) 1)
    as (m & e & -> & _ & _ & _ & Hexact).
  - lia.
  - by apply located_of_loc_exact.
  - rewrite (Zdigits2_unique mz 53) by (change (53 - 1) with 52; lia). lia.
  - rewrite (Zdigits2_unique mz 53) by (change (53 - 1) with 52; lia). lia.
  - rewrite (Zdigits2_unique mz 53) by (change (53 - 1) with 52; lia). lia.
  - destruct Hexact as [-> ->]; [done| |].
    { rewrite (Zdigits2_unique mz 53) by (change (53 - 1) with 52; lia). lia. }
    exists mz, (53 - d). split; [f_equal; lia|]. split; [lia|]. by split.
Qed.

Lemma new_location_located (q nb k : Z) :
  0 <= q → 0 <= k < nb →
  located (shr_record_of_loc q (new_location nb k)) (q * nb + k) nb.
Proof.
  intros Hq Hk. unfold new_location, new_location_even, new_location_odd.
  destruct (Z.even nb) eqn:Heven.
  - destruct (Z.eqb_spec k 0) as [->|Hk0]; [split; simpl; lia|].
    destruct (Z.compare_spec (2 * k) nb); split; simpl; lia.
  - destruct (Z.eqb_spec k 0) as [->|Hk0]; [split; simpl; lia|].
    assert (Hodd : Z.odd nb = true) by by rewrite <- Z.negb_even, Heven.
    apply Z.odd_spec in Hodd as [j Hj].
    destruct (Z.compare_spec (2 * k + 1) nb); split; simpl; lia.
Qed.

(** The quotient of two numbers of 53 digits: a number of 53 digits,
    away from the quotient of the reals by [2^-53] of itself at most. *)
Lemma div_spec (ms mt : positive) (es et : Z) :
  2 ^ 52 <= Z.pos ms < 2 ^ 53 → 2 ^ 52 <= Z.pos mt < 2 ^ 53 →
  -1074 <= es - et - 53 → es - et - 52 < 971 →
  ∃ (m : positive) (e : Z),
    JSNumber.div (S754_finite false ms es) (S754_finite false mt et) = S754_finite false m e
    ∧ es - et - 53 <= e <= es - et - 51
    ∧ 2 ^ 52 <= Z.pos m < 2 ^ 53
    ∧ 2 ^ 52 * Z.abs (2 * (Z.pos m * 2 ^ (e - (es - et - 53)) * Z.pos mt)
                      - 2 * (Z.pos ms * 2 ^ 53))
      <= Z.pos m * 2 ^ (e - (es - et - 53)) * Z.pos mt.
Proof.
  intros Hms Hmt Hmin Hmax.
  unfold JSNumber.div, SFdiv, SFdiv_core_binary. cbv zeta.
  rewrite (Zdigits2_unique ms 53), (Zdigits2_unique mt 53) by (change (53 - 1) with 52; lia).
  replace (Z.min (fexp 53 1024 (53 + es - (53 + et))) (es - et)) with (es - et - 53)
    by (unfold fexp, emin; lia).
  replace (es - et - (es - et - 53)) with 53 by lia.
  rewrite Z.shiftl_mul_pow2 by lia.
  pose proof (Z_div_mod (Z.pos ms * 2 ^ 53) (Z.pos mt) ltac:(lia)) as Hdiv.
  destruct (Z.div_eucl (Z.pos ms * 2 ^ 53) (Z.pos mt)) as [q r].
  destruct Hdiv as [Hq Hr].
  assert (Hqb : 2 ^ 52 <= q < 2 ^ 54).
  { change (2 ^ 54) with (2 ^ 53 * 2). change (2 ^ 53) with (2 ^ 52 * 2) in *. nia. }
  destruct q as [|pq|pq]; [lia| |lia].
  pose proof (Zdigits2_range pq 52 54 ltac:(lia) Hqb) as Hdq.
  destruct (binary_round_aux_spec false pq (es - et - 53) (new_location (Z.pos mt) r)
              (Z.pos ms * 2 ^ 53) (Z.pos mt)) as (m & e & Hround & He & Hm & Hrel & _).
  - lia.
  - rewrite Hq, (Z.mul_comm (Z.pos mt)). apply new_location_located; lia.
  - lia.
  - lia.
  - lia.
  - cbn [xorb]. exists m, e. split; [done|]. split; [lia|]. by split.
Qed.

(** The product of two numbers of 53 digits. *)
Lemma mul_spec (mx my : positive) (ex ey : Z) :
  2 ^ 52 <= Z.pos mx < 2 ^ 53 → 2 ^ 52 <= Z.pos my < 2 ^ 53 →
  -1074 <= ex + ey + 52 → ex + ey + 53 < 971 →
  ∃ (m : positive) (e : Z),
    JSNumber.mul (S754_finite false mx ex) (S754_finite false my ey) = S754_finite false m e
    ∧ ex + ey + 52 <= e <= ex + ey + 54
    ∧ 2 ^ 52 <= Z.pos m < 2 ^ 53
    ∧ 2 ^ 52 * Z.abs (2 * (Z.pos m * 2 ^ (e - (ex + ey))) - 2 * (Z.pos mx * Z.pos my))
      <= Z.pos m * 2 ^ (e - (ex + ey)).
Proof.
  intros Hmx Hmy Hmin Hmax. unfold JSNumber.mul, SFmul. cbn [xorb].
  assert (Hprod : 2 ^ 104 <= Z.pos (mx * my) < 2 ^ 106).
  { rewrite Pos2Z.inj_mul. change (2 ^ 104) with (2 ^ 52 * 2 ^ 52).
    change (2 ^ 106) with (2 ^ 53 * 2 ^ 53). nia. }
  pose proof (Zdigits2_range (mx * my) 104 106 ltac:(lia) Hprod) as Hd.
  destruct (binary_round_aux_spec false (mx * my) (ex + ey) loc_Exact (Z.pos (mx * my)) 1)
    as (m & e & Hround & He & Hm & Hrel & _).
  - lia.
  - by apply located_of_loc_exact.
  - lia.
  - lia.
  - lia.
  - exists m, e. split; [done|]. split; [lia|]. split; [done|].
    rewrite !Z.mul_1_r, Pos2Z.inj_mul in Hrel. done.
Qed.

(** *** The percentage *)

(** Two roundings in a row, each within [2^-53] of its result: [p / P]
    is within [1 / (2 t)] of [100 s / t], for [s ≤ t ≤ 2^44]. *)
Lemma two_roundings (s t mq mp Q P : Z) :
  0 < s <= t → t <= 2 ^ 44 → 0 < mq → 0 < mp → 0 < Q → 0 < P →
  2 ^ 53 * Z.abs (mq * t - s * Q) <= mq * t →
  2 ^ 53 * Z.abs (mp * Q - 100 * mq * P) <= mp * Q →
  2 * Z.abs (mp * t - 100 * s * P) < P.
Proof.
  intros Hst Ht Hmq Hmp HQ HP HD HM.
  set (u := 2 ^ 53) in *. assert (Hu : u = 9007199254740992) by reflexivity.
  set (X := mq * t - s * Q) in *. set (Y := mp * Q - 100 * mq * P) in *.
  set (Z0 := mp * t - 100 * s * P).
  (* the quotient is 1 at most, nearly *)
  assert (Ha : (u - 1) * mq <= u * Q).
  { assert (s * Q <= t * Q) by (apply Z.mul_le_mono_nonneg_r; lia).
    assert ((u - 1) * mq * t <= u * Q * t) by (subst X; nia).
    apply Z.mul_le_mono_pos_r in H0; lia. }
  (* the product is 100 at most, nearly *)
  assert (Hb : (u - 1) * (mp * Q) <= 100 * u * (mq * P)) by (subst Y; lia).
  assert (Hc : (u - 1) * (u - 1) * mp <= 100 * u * u * P).
  { assert ((u - 1) * (u - 1) * mp * Q <= 100 * u * u * P * Q).
    { assert ((u - 1) * ((u - 1) * (mp * Q)) <= (u - 1) * (100 * u * (mq * P)))
        by (apply Z.mul_le_mono_nonneg_l; lia).
      assert (100 * u * P * ((u - 1) * mq) <= 100 * u * P * (u * Q))
        by (apply Z.mul_le_mono_nonneg_l; nia).
      nia. }
    apply Z.mul_le_mono_pos_r in H; lia. }
  (* the two errors, put together *)
  assert (Hd : Q * Z0 = t * Y + 100 * P * X) by (subst X Y Z0; ring).
  assert (He : u * (Q * Z.abs Z0) <= t * (mp * Q) + 100 * P * (mq * t)).
  { assert (Q * Z.abs Z0 <= t * Z.abs Y + 100 * P * Z.abs X).
    { rewrite <- (Z.abs_eq Q) at 1 by lia. rewrite <- Z.abs_mul, Hd.
      etransitivity; [apply Z.abs_triangle|].
      rewrite !Z.abs_mul, (Z.abs_eq t), (Z.abs_eq 100), (Z.abs_eq P) by lia. lia. }
    assert (t * (u * Z.abs Y) <= t * (mp * Q)) by (apply Z.mul_le_mono_nonneg_l; lia).
    assert (100 * P * (u * Z.abs X) <= 100 * P * (mq * t))
      by (apply Z.mul_le_mono_nonneg_l; lia).
    nia. }
  assert (Hf : (u - 1) * (u - 1) * Z.abs Z0 <= 100 * t * P * (2 * u - 1)).
  { assert ((u - 1) * (u - 1) * Z.abs Z0 * (u * Q) <= 100 * t * P * (2 * u - 1) * (u * Q)).
    { assert (t * Q * ((u - 1) * (u - 1) * mp) <= t * Q * (100 * u * u * P))
        by (apply Z.mul_le_mono_nonneg_l; nia).
      assert (100 * P * t * (u - 1) * ((u - 1) * mq) <= 100 * P * t * (u - 1) * (u * Q))
        by (apply Z.mul_le_mono_nonneg_l; nia).
      assert ((u - 1) * (u - 1) * (u * (Q * Z.abs Z0))
              <= (u - 1) * (u - 1) * (t * (mp * Q) + 100 * P * (mq * t)))
        by (apply Z.mul_le_mono_nonneg_l; nia).
      nia. }
    apply Z.mul_le_mono_pos_r in H; nia. }
  destruct (Z.lt_ge_cases (2 * Z.abs Z0) P) as [|Hge]; [done|]. exfalso.
  assert ((u - 1) * (u - 1) * P <= 200 * t * P * (2 * u - 1)).
  { assert ((u - 1) * (u - 1) * P <= (u - 1) * (u - 1) * (2 * Z.abs Z0))
      by (apply Z.mul_le_mono_nonneg_l; nia).
    lia. }
  assert ((u - 1) * (u - 1) <= 200 * t * (2 * u - 1)).
  { replace (200 * t * P * (2 * u - 1)) with (200 * t * (2 * u - 1) * P) in H by ring.
    apply Z.mul_le_mono_pos_r in H; lia. }
  assert (200 * t * (2 * u - 1) <= 200 * 2 ^ 44 * (2 * u - 1)) by nia.
  rewrite Hu in *. change (2 ^ 44) with 17592186044416 in *. lia.
Qed.

(** The double [(s / t) × 100], for [1 ≤ s ≤ t ≤ 2^44]: a positive
    number [mp / 2^kp] within [1 / (2 t)] of [100 s / t]. *)
Lemma percentage_number (s t : Z) :
  0 < s <= t → t <= 2 ^ 44 →
  ∃ (mp : positive) (kp : Z),
    JSNumber.mul (JSNumber.div (JSNumber.of_int s) (JSNumber.of_int t)) (JSNumber.of_int 100)
    = S754_finite false mp (- kp)
    ∧ 0 < kp
    ∧ 2 * Z.abs (Z.pos mp * t - 100 * s * 2 ^ kp) < 2 ^ kp.
Proof.
  intros Hst Ht.
  assert (2 ^ 44 < 2 ^ 53) by done.
  destruct (of_int_spec s) as (ms & ks & -> & Hks & Hms & Hms53); [lia|].
  destruct (of_int_spec t) as (mt & kt & -> & Hkt & Hmt & Hmt53); [lia|].
  change (JSNumber.of_int 100) with (S754_finite false 7036874417766400 (-46)).
  (* the smaller integer is shifted further *)
  assert (Hk : kt <= ks).
  { destruct (Z.le_gt_cases kt ks) as [|Hgt]; [done|]. exfalso.
    assert (2 ^ kt = 2 ^ ks * 2 ^ (kt - ks)).
    { rewrite <- Z.pow_add_r by lia. f_equal. lia. }
    assert (2 <= 2 ^ (kt - ks)).
    { change 2 with (2 ^ 1) at 1. apply Z.pow_le_mono_r; lia. }
    assert (0 < 2 ^ ks) by (apply Z.pow_pos_nonneg; lia).
    change (2 ^ 53) with (2 * 2 ^ 52) in *. nia. }
  destruct (div_spec ms mt (- ks) (- kt) Hms53 Hmt53) as (mq & eq & -> & Heq & Hmq53 & HDw);
    [lia|lia|].
  destruct (mul_spec mq 7036874417766400 eq (-46) Hmq53) as (mp & ep & -> & Hep & Hmp53 & HMw);
    [done|lia|lia|].
  exists mp, (- ep). rewrite Z.opp_involutive. split; [done|]. split; [lia|].
  set (kq := - eq). set (kp := - ep).
  assert (HQ : 0 < 2 ^ kq) by (apply Z.pow_pos_nonneg; lia).
  assert (HP : 0 < 2 ^ kp) by (apply Z.pow_pos_nonneg; lia).
  apply (two_roundings s t (Z.pos mq) (Z.pos mp) (2 ^ kq) (2 ^ kp)); try (done || lia).
  - (* the division *)
    set (F := 2 ^ (eq - (- ks - - kt - 53)) * 2 ^ kt).
    assert (HF : 0 < F).
    { apply Z.mul_pos_pos; apply Z.pow_pos_nonneg; lia. }
    assert (H1 : Z.pos mq * 2 ^ (eq - (- ks - - kt - 53)) * Z.pos mt = F * (Z.pos mq * t)).
    { rewrite Hmt. subst F. ring. }
    assert (H2 : Z.pos ms * 2 ^ 53 = F * (s * 2 ^ kq)).
    { rewrite Hms. subst F.
      replace (2 ^ (eq - (- ks - - kt - 53)) * 2 ^ kt * (s * 2 ^ kq))
        with (s * (2 ^ (eq - (- ks - - kt - 53)) * 2 ^ kt * 2 ^ kq)) by ring.
      rewrite <- !Z.pow_add_r by lia. rewrite <- Z.mul_assoc, <- Z.pow_add_r by lia.
      do 2 f_equal. subst kq. lia. }
    rewrite H1, H2 in HDw.
    replace (2 * (F * (Z.pos mq * t)) - 2 * (F * (s * 2 ^ kq)))
      with (2 * F * (Z.pos mq * t - s * 2 ^ kq)) in HDw by ring.
    rewrite Z.abs_mul, (Z.abs_eq (2 * F)) in HDw by lia.
    apply (Z.mul_le_mono_pos_l _ _ F); [done|].
    change (2 ^ 53) with (2 ^ 52 * 2).
    etrans; [|exact HDw]. apply Z.eq_le_incl. ring.
  - (* the multiplication *)
    set (E := 2 ^ (ep - (eq + -46))) in *.
    assert (H1 : Z.pos mp * E * 2 ^ kp = 2 ^ 46 * (Z.pos mp * 2 ^ kq)).
    { subst E. rewrite <- Z.mul_assoc, <- Z.pow_add_r by lia.
      replace (ep - (eq + -46) + kp) with (46 + kq) by (subst kq kp; lia).
      rewrite Z.pow_add_r by lia. ring. }
    set (X := 2 * (Z.pos mp * E) - 2 * (Z.pos mq * 7036874417766400)) in *.
    set (Y := Z.pos mp * 2 ^ kq - 100 * Z.pos mq * 2 ^ kp).
    assert (HXP : X * 2 ^ kp = 2 ^ 47 * Y).
    { subst X Y. rewrite Z.mul_sub_distr_r.
      replace (2 * (Z.pos mp * E) * 2 ^ kp) with (2 * (Z.pos mp * E * 2 ^ kp)) by ring.
      rewrite H1. change 7036874417766400 with (100 * 2 ^ 46).
      change (2 ^ 47) with (2 * 2 ^ 46). ring. }
    assert (HA : Z.abs X * 2 ^ kp = 2 ^ 47 * Z.abs Y).
    { transitivity (Z.abs (X * 2 ^ kp)).
      - by rewrite Z.abs_mul, (Z.abs_eq (2 ^ kp)) by lia.
      - by rewrite HXP, Z.abs_mul. }
    assert (H0 : 2 ^ 52 * Z.abs X * 2 ^ kp <= Z.pos mp * E * 2 ^ kp)
      by (apply Z.mul_le_mono_nonneg_r; lia).
    rewrite H1, <- Z.mul_assoc, HA in H0.
    apply (Z.mul_le_mono_pos_l _ _ (2 ^ 46)); [done|].
    etrans; [|exact H0]. apply Z.eq_le_incl.
    change (2 ^ 53) with (2 ^ 6 * 2 ^ 47). change (2 ^ 52) with (2 ^ 46 * 2 ^ 6). ring.
Qed.

(** [Math.round] of a positive double [mp / 2^kp] within [1 / (2 t)] of
    [100 s / t]: the integer nearest to [100 s / t], or the one below it
    when [100 s / t] lies half-way between two integers. *)
Lemma Math_round_near (s t : Z) (mp : positive) (kp : Z) :
  0 <= s → 0 < t → 0 < kp →
  2 * Z.abs (Z.pos mp * t - 100 * s * 2 ^ kp) < 2 ^ kp →
  let N := (2 * (100 * s) + t) / (2 * t) in
  ((200 * s) mod (2 * t) ≠ t →
   JSNumber.Math_round (S754_finite false mp (- kp)) = JSNumber.of_int N)
  ∧ (JSNumber.Math_round (S754_finite false mp (- kp)) = JSNumber.of_int N
     ∨ JSNumber.Math_round (S754_finite false mp (- kp)) = JSNumber.of_int (N - 1)).
Proof.
  intros Hs Ht Hkp Hnear N.
  assert (HP : 0 < 2 ^ kp) by (apply Z.pow_pos_nonneg; lia).
  set (r := (2 * Z.pos mp + 2 ^ kp) / (2 * 2 ^ kp)).
  assert (Hround : JSNumber.Math_round (S754_finite false mp (- kp)) = JSNumber.of_int r).
  { unfold JSNumber.Math_round. destruct (Z.leb_spec 0 (- kp)); [lia|].
    rewrite Z.opp_involutive.
    replace (2 ^ (1 - - kp)) with (2 * 2 ^ kp)
      by (replace (1 - - kp) with (1 + kp) by lia; by rewrite Z.pow_add_r by lia).
    fold r. by destruct (Z.eqb_spec r 0) as [->|]. }
  rewrite Hround.
  (* the two quotients *)
  assert (HN : 2 * t * N <= 200 * s + t < 2 * t * (N + 1)).
  { unfold N. replace (2 * (100 * s) + t) with (200 * s + t) by ring.
    pose proof (Z.mul_div_le (200 * s + t) (2 * t)).
    pose proof (Z.mul_succ_div_gt (200 * s + t) (2 * t)). lia. }
  assert (Hr : 2 * 2 ^ kp * r <= 2 * Z.pos mp + 2 ^ kp < 2 * 2 ^ kp * (r + 1)).
  { unfold r.
    pose proof (Z.mul_div_le (2 * Z.pos mp + 2 ^ kp) (2 * 2 ^ kp)).
    pose proof (Z.mul_succ_div_gt (2 * Z.pos mp + 2 ^ kp) (2 * 2 ^ kp)). lia. }
  set (P := 2 ^ kp) in *. set (m := Z.pos mp) in *.
  assert (Hm : 200 * s * P - P < 2 * (m * t) < 200 * s * P + P) by lia.
  (* [r] lies within one of [N] *)
  assert (Hlow : N - 1 <= r).
  { assert (N < r + 2); [|lia].
    apply (Z.mul_lt_mono_pos_l (2 * t * P)); [lia|].
    assert (P * (2 * t * N) <= P * (200 * s + t)) by (apply Z.mul_le_mono_nonneg_l; lia).
    assert (t * (2 * m + P) < t * (2 * P * (r + 1))) by (apply Z.mul_lt_mono_pos_l; lia).
    nia. }
  assert (Hhigh : r <= N).
  { assert (r < N + 1); [|lia].
    apply (Z.mul_lt_mono_pos_l (2 * t * P)); [lia|].
    assert (P * (200 * s + t) < P * (2 * t * (N + 1))) by (apply Z.mul_lt_mono_pos_l; lia).
    assert (t * (2 * P * r) <= t * (2 * m + P)) by (apply Z.mul_le_mono_nonneg_l; lia).
    nia. }
  split.
  - intros Hhalf. f_equal.
    assert (Hrho : 2 * t * N + 1 <= 200 * s + t).
    { destruct (Z.eq_dec (2 * t * N) (200 * s + t)) as [Heq|]; [|lia].
      destruct Hhalf. symmetry. apply (Z.mod_unique_pos _ _ (N - 1)); lia. }
    assert (N < r + 1); [|lia].
    apply (Z.mul_lt_mono_pos_l (2 * t * P)); [lia|].
    assert (P * (2 * t * N + 1) <= P * (200 * s + t)) by (apply Z.mul_le_mono_nonneg_l; lia).
    assert (t * (2 * m + P) < t * (2 * P * (r + 1))) by (apply Z.mul_lt_mono_pos_l; lia).
    nia.
  - assert (r = N ∨ r = N - 1) as [->| ->] by lia; [by left|by right].
Qed.

(** The percentage of line 308: for a count up to [2^44] and no more
    selected than the count, [Math.round((selected / count) * 100)] is
    the integer nearest to [100 × selected / count], unless that
    percentage lies half-way between two integers, where it is the
    integer above it or the one below. *)
Lemma fulfillment_nearest (count : Z) (selected : nat) :
  0 < count <= 2 ^ 44 → Z.of_nat selected <= count →
  (Hubspot.half_way count selected = false →
   Hubspot.fulfillment count selected
   = JSNumber.of_int (Hubspot.rounded_percentage count selected))
  ∧ (Hubspot.fulfillment count selected
     = JSNumber.of_int (Hubspot.rounded_percentage count selected)
     ∨ Hubspot.fulfillment count selected
       = JSNumber.of_int (Hubspot.rounded_percentage count selected - 1)).
Proof.
  intros Hcount Hsel. unfold Hubspot.fulfillment, Hubspot.half_way, Hubspot.rounded_percentage.
  destruct (Z.ltb_spec 0 count); [|lia].
  destruct selected as [|n].
  - (* nothing selected *)
    assert (2 ^ 44 < 2 ^ 53) by done.
    destruct (of_int_spec count) as (mt & kt & -> & _); [lia|].
    change (Z.of_nat 0) with 0.
    replace ((2 * (100 * 0) + count) / (2 * count)) with 0
      by (symmetry; apply Z.div_small; lia).
    split; [done|by left].
  - set (s := Z.of_nat (S n)) in *.
    destruct (percentage_number s count) as (mp & kp & -> & Hkp & Hnear); [lia|lia|].
    destruct (Math_round_near s count mp kp) as [Hexact Hnext]; [lia|lia|done|done|].
    split; [|done]. intros Hhalf. apply Hexact. by apply Z.eqb_neq.
Qed.

End RoundingFacts.

(** ** The fulfillment percentage *)

Module FulfillmentFacts.
Import JS JSFacts Chunks Hubspot.

Section Campaign.
Variables RETRIEVAL_BATCH_SIZE MAX_RETRIES : Z.
Variable api : remote.

Local Abbreviation fetch_contacts :=
  (Hubspot.fetch_contacts RETRIEVAL_BATCH_SIZE MAX_RETRIES api).
Local Abbreviation processSingleCampaign :=
  (Hubspot.processSingleCampaign RETRIEVAL_BATCH_SIZE MAX_RETRIES api).

(** The selection is the head of the primary contacts followed by the
    secondary ones, and the value returned reports its size and its
    percentage of the count. *)
Lemma processSingleCampaign_result fuel config daysFilter modeFilter used c :
  processSingleCampaign fuel config daysFilter modeFilter used = Some c →
  ∃ f, fetch_contacts fuel config used = Some f
    ∧ selectedContacts c
      = slice (primaryContacts f ++ secondaryContacts f) 0 (count config)
    ∧ ∀ res, outcome c = Return res →
        r_contactCount res = length (selectedContacts c)
        ∧ r_requestedCount res = count config
        ∧ r_fulfillmentPercentage res
          = fulfillment (count config) (length (selectedContacts c)).
Proof.
  unfold Hubspot.processSingleCampaign. intros H.
  destruct (fetch_contacts fuel config used) as [f|]; simpl in H; [|done].
  exists f. injection H as <-. split; [done|]. split; [done|].
  cbn [outcome selectedContacts]. intros res Hres.
  destruct (createHubSpotList api _) as [newList|]; simpl in Hres; [|done].
  destruct (if negb _ then _ else _) as [[]|]; simpl in Hres; [|done].
  destruct (CreatedList_create api _) as [createdList|]; simpl in Hres; [|done].
  by injection Hres as <-.
Qed.

End Campaign.

Lemma fetch_contacts_no_secondary RETRIEVAL_BATCH_SIZE MAX_RETRIES api fuel config used f :
  fetch_contacts RETRIEVAL_BATCH_SIZE MAX_RETRIES api fuel config used = Some f →
  secondaryListId config = None → secondaryContacts f = [].
Proof.
  unfold fetch_contacts. intros H Hnone. rewrite Hnone in H.
  destruct (getContactsFromList _ _ _ _ _ _) as [[primary|]|]; simpl in H; [| |done];
    by injection H as <-.
Qed.

(** 23 selected of 40 requested: the double nearest to 23/40, times 100,
    is the double just below 57.5, and [Math.round] makes 57 of it, in
    both copies of the code; the nearest integer to the percentage 57.5
    is 58. Nothing selected of a count of 0: the copy of lines 970-975,
    which does not test the count, rounds 0/0 and reports no number. *)
Lemma fulfillment_23_of_40 :
  fulfillment 40 23 = JSNumber.of_int 57
  ∧ rounded_percentage 40 23 = 58
  ∧ fulfillment 40 23 ≠ JSNumber.of_int (rounded_percentage 40 23)
  ∧ HubspotLegacy.fulfillment 40 23 = JSNumber.of_int 57
  ∧ HubspotLegacy.fulfillment 0 0 = S754_nan
  ∧ HubspotLegacy.fulfillment 0 0 ≠ JSNumber.of_int 0.
Proof. vm_compute. repeat split; congruence. Qed.

(** Beyond [2^44] the two roundings of the quotient and of the product
    can carry a percentage across a half: of a count of
    1125899906842701, a selection of 568579452955564 is 50.4999...
    percent, not half-way, and the code reports 51. *)
Lemma fulfillment_large_count :
  half_way 1125899906842701 (Z.to_nat 568579452955564) = false
  ∧ rounded_percentage 1125899906842701 (Z.to_nat 568579452955564) = 50
  ∧ fulfillment 1125899906842701 (Z.to_nat 568579452955564) = JSNumber.of_int 51.
Proof.
  unfold half_way, rounded_percentage, fulfillment.
  rewrite Z2Nat.id by lia. vm_compute. repeat split.
Qed.

(** C9, amended. A campaign that runs to its end reports the size of its
    selection and a percentage. In the code of lines 302-310 the
    percentage is 0 when the count requested is 0 or less; for a
    positive count it is, in both copies of the code, [Math.round] of
    the double [(selected / count) × 100], [selected] being the size of
    the selection. For the counts up to [2^44] this is the integer
    nearest to [100 × selected / count] unless that percentage lies
    half-way between two integers, where it is the integer above it or
    the one below. With a count of 100, 60 unused primary and 50 unused
    secondary identifiers make a selection of 100 and 100%; 40 unused
    primary identifiers and no secondary list make a selection of 40 and
    40%. *)
Theorem fulfillment_percentage RETRIEVAL_BATCH_SIZE MAX_RETRIES api fuel config
    daysFilter modeFilter used c res :
  processSingleCampaign RETRIEVAL_BATCH_SIZE MAX_RETRIES api fuel config
    daysFilter modeFilter used = Some c →
  outcome c = Return res →
  let selected := length (selectedContacts c) in
  let percentage := r_fulfillmentPercentage res in
  r_contactCount res = selected
  ∧ r_requestedCount res = count config
  ∧ (count config <= 0 → percentage = JSNumber.of_int 0)
  ∧ (0 < count config →
     Z.of_nat selected <= count config
     ∧ percentage
       = JSNumber.Math_round
           (JSNumber.mul (JSNumber.div (JSNumber.of_int (Z.of_nat selected))
                                       (JSNumber.of_int (count config)))
                         (JSNumber.of_int 100))
     ∧ HubspotLegacy.fulfillment (count config) selected = percentage)
  ∧ (0 < count config <= 2 ^ 44 →
     (half_way (count config) selected = false →
      percentage = JSNumber.of_int (rounded_percentage (count config) selected))
     ∧ (percentage = JSNumber.of_int (rounded_percentage (count config) selected)
        ∨ percentage = JSNumber.of_int (rounded_percentage (count config) selected - 1)))
  ∧ (∀ f, fetch_contacts RETRIEVAL_BATCH_SIZE MAX_RETRIES api fuel config used = Some f →
       count config = 100 →
       (length (primaryContacts f) = 60%nat → length (secondaryContacts f) = 50%nat →
        selected = 100%nat ∧ percentage = JSNumber.of_int 100)
       ∧ (length (primaryContacts f) = 40%nat → secondaryListId config = None →
          selected = 40%nat ∧ percentage = JSNumber.of_int 40)).
Proof.
  intros H Hreturn selected percentage.
  destruct (processSingleCampaign_result _ _ _ _ _ _ _ _ _ H) as (f & Hf & Hsel & Hres).
  destruct (Hres res Hreturn) as (Hcontacts & Hrequested & Hpercentage).
  fold selected in Hpercentage. fold percentage in Hpercentage.
  assert (Hlen : 0 <= count config →
            Z.of_nat selected
            = Z.min (count config)
                (Z.of_nat (length (primaryContacts f) + length (secondaryContacts f)))).
  { intros Hc. unfold selected. rewrite Hsel, length_slice, length_app by lia. lia. }
  rewrite Hpercentage.
  split; [done|]. split; [done|]. split; [|split; [|split]].
  - intros Hc. unfold fulfillment. by destruct (Z.ltb_spec 0 (count config)); [lia|].
  - intros Hc. split; [rewrite Hlen by lia; lia|].
    unfold fulfillment, HubspotLegacy.fulfillment.
    by destruct (Z.ltb_spec 0 (count config)); [|lia].
  - intros Hc. apply RoundingFacts.fulfillment_nearest; [done|]. rewrite Hlen by lia. lia.
  - intros f' Hf' Hcount. rewrite Hf in Hf'. injection Hf' as <-. split.
    + intros Hp Hs. assert (selected = 100%nat) as -> by (rewrite Hcount, Hp, Hs in Hlen; lia).
      split; [done|]. rewrite Hcount. vm_compute. reflexivity.
    + intros Hp Hnone. rewrite (fetch_contacts_no_secondary _ _ _ _ _ _ _ Hf Hnone) in Hlen.
      assert (selected = 40%nat) as -> by (rewrite Hcount, Hp in Hlen; simpl in Hlen; lia).
      split; [done|]. rewrite Hcount. vm_compute. reflexivity.
Qed.

(** A count of 100; the primary list holds 70 contacts, ten of them used
    already, the secondary list 50: the campaign runs to its end, the
    selection has 100 contacts and the percentage reported is 100. *)
Lemma fulfillment_percentage_witness :
  let api := Doubles.upload_api (fun listId => if listId =? 1 then ids 1 70 else ids 101 50)
               (fun _ => false) in
  ∃ c res, processSingleCampaign 1000 3 api 5 (Doubles.campaign_for 1 (Some 2) 100)
             "today" "BAU" (list_to_set (ids 1 10))
           = Some c
    ∧ outcome c = Return res
    ∧ r_contactCount res = 100%nat
    ∧ r_fulfillmentPercentage res = JSNumber.of_int 100.
Proof.
  intros api.
  destruct (processSingleCampaign 1000 3 api 5 (Doubles.campaign_for 1 (Some 2) 100)
              "today" "BAU" (list_to_set (ids 1 10))) as [c|] eqn:Hc;
    [|vm_compute in Hc; discriminate].
  destruct (outcome c) as [res|error] eqn:Hres;
    [|vm_compute in Hc; injection Hc as <-; discriminate].
  exists c, res. split; [reflexivity|]. split; [exact Hres|].
  destruct (fulfillment_percentage _ _ _ _ _ _ _ _ _ _ Hc Hres) as (Hn & _ & _ & _ & _ & H).
  destruct (fetch_contacts 1000 3 api 5 (Doubles.campaign_for 1 (Some 2) 100)
              (list_to_set (ids 1 10))) as [f|] eqn:Hf;
    [|vm_compute in Hf; discriminate].
  destruct (H f eq_refl eq_refl) as [H100 _].
  rewrite Hn. apply H100.
  - vm_compute in Hf. injection Hf as <-. reflexivity.
  - vm_compute in Hf. injection Hf as <-. reflexivity.
Defined.

End FulfillmentFacts.

(** ** The duplicate checks of the clone scheduler *)

Module DuplicateFacts.
Import JS JSFacts Chunks ChunkFacts Cloner.

Section Checks.
Variable api : remote.

Lemma check_one_found rank emailName :
  check_one api rank emailName = Return (found api rank emailName).
Proof.
  unfold check_one, found. by destruct (email_search api rank emailName).
Qed.

(** A sub-batch leaves, for each of its names, what one of the requests
    for that name found, and leaves the other names as they were. *)
Lemma check_batch_spec : ∀ batch rank existsMap,
  ∃ m, check_batch api rank batch existsMap = Return m
    ∧ (∀ name, name ∈ batch → ∃ k, m !! name = Some (found api k name))
    ∧ (∀ name, name ∉ batch → m !! name = existsMap !! name).
Proof.
  induction batch as [|emailName batch IH]; intros rank existsMap; simpl.
  - exists existsMap. split; [done|]. split; [|done]. intros name H. by apply elem_of_nil in H.
  - rewrite check_one_found. simpl.
    destruct (IH (S rank) (<[emailName := found api rank emailName]> existsMap))
      as (m & -> & Hin & Hout).
    exists m. split; [done|]. split.
    + intros name Hname. destruct (decide (name ∈ batch)) as [Hb|Hb]; [by apply Hin|].
      apply elem_of_cons in Hname as [->|Hname]; [|done].
      exists rank. by rewrite Hout, lookup_insert_eq.
    + intros name Hname. apply not_elem_of_cons in Hname as [Hne Hb].
      by rewrite Hout, lookup_insert_ne.
Qed.

Lemma check_batches_spec : ∀ batches rank existsMap,
  ∃ m, check_batches api rank batches existsMap = Return m
    ∧ (∀ name, name ∈ concat batches → ∃ k, m !! name = Some (found api k name))
    ∧ (∀ name, name ∉ concat batches → m !! name = existsMap !! name).
Proof.
  induction batches as [|batch batches IH]; intros rank existsMap; simpl.
  - exists existsMap. split; [done|]. split; [|done]. intros name H. by apply elem_of_nil in H.
  - destruct (check_batch_spec batch rank existsMap) as (m1 & -> & Hin1 & Hout1). simpl.
    destruct (IH (rank + length batch)%nat m1) as (m & -> & Hin & Hout).
    exists m. split; [done|]. split.
    + intros name Hname. destruct (decide (name ∈ concat batches)) as [Hb|Hb]; [by apply Hin|].
      apply elem_of_app in Hname as [Hname|Hname]; [|done].
      rewrite Hout by done. by apply Hin1.
    + intros name Hname. apply not_elem_of_app in Hname as [H1 H2].
      by rewrite Hout, Hout1.
Qed.

(** The batch check never raises: it gives each name what one of the
    searches for it found, an error of a search counting as "not found". *)
Lemma batchCheckEmailsExist_spec (emailNames : list string) :
  ∃ m, batchCheckEmailsExist api emailNames = Return m
    ∧ (∀ name, name ∈ emailNames → ∃ k, m !! name = Some (found api k name))
    ∧ (∀ name, name ∉ emailNames → m !! name = None).
Proof.
  unfold batchCheckEmailsExist. destruct emailNames as [|name0 emailNames].
  - exists ∅. split; [done|]. split; [|done]. intros name H. by apply elem_of_nil in H.
  - change (Nat.eqb (length (name0 :: emailNames)) 0) with false. cbv iota.
    set (names := name0 :: emailNames).
    destruct (check_batches_spec (chunkArray names 5) 0 (all_false names))
      as (m & -> & Hin & Hout).
    assert (Hconcat : concat (chunkArray names 5) = names).
    { apply chunkArray_loop_concat; simpl; (done || lia). }
    rewrite Hconcat in Hin, Hout.
    exists m. split; [done|]. split; [done|].
    intros name Hname. rewrite Hout by done.
    unfold all_false.
    assert (∀ (l : list string) (m0 : gmap string bool), name ∉ l →
              foldl (fun m n => <[n := false]> m) m0 l !! name = m0 !! name) as H.
    { induction l as [|n l IH]; intros m1 Hl; simpl; [done|].
      apply not_elem_of_cons in Hl as [Hne Hl]. by rewrite IH, lookup_insert_ne. }
    by rewrite H.
Qed.

End Checks.

(** *** The filter that leaves [emailsToProcess] *)

Section Filter.
Variable db : gset string.
Variable hub : gmap string bool.

Lemma keep_new_known cache k kept name :
  ¬ unknown cache db hub name →
  keep_new db hub (cache, k, kept) name = (cache, S k, kept).
Proof.
  intros H. unfold keep_new.
  destruct (bool_decide (name ∈ cache)) eqn:E1; [done|].
  destruct (bool_decide (name ∈ db)) eqn:E2; [done|].
  destruct (bool_decide (hub !! name = Some true)) eqn:E3; [done|].
  exfalso. apply H. apply bool_decide_eq_false in E1, E2, E3. by repeat split.
Qed.

Lemma keep_new_unknown cache k kept name :
  unknown cache db hub name →
  keep_new db hub (cache, k, kept) name = ({[name]} ∪ cache, k, kept ++ [name]).
Proof.
  intros (H1 & H2 & H3). unfold keep_new.
  by rewrite !bool_decide_eq_false_2 by done.
Qed.

(** The names kept are those that no layer knows, each of them once;
    the cache grows by them, and every other name counts as a duplicate. *)
Lemma keep_new_fold : ∀ names cache k kept,
  ∃ new k',
    foldl (keep_new db hub) (cache, k, kept) names
    = (list_to_set new ∪ cache, k', kept ++ new)
    ∧ (∀ name, name ∈ new ↔ name ∈ names ∧ unknown cache db hub name)
    ∧ NoDup new
    ∧ (k' + length new = k + length names)%nat.
Proof.
  induction names as [|name names IH]; intros cache k kept; cbn [foldl].
  - exists [], k. rewrite app_nil_r. split; [do 2 f_equal; by rewrite list_to_set_nil, union_empty_l_L|].
    split; [|split; [constructor|simpl; lia]].
    intros name. rewrite !elem_of_nil. tauto.
  - destruct (decide (unknown cache db hub name)) as [Hu|Hk].
    + rewrite keep_new_unknown by done.
      destruct (IH ({[name]} ∪ cache) k (kept ++ [name])) as (new & k' & -> & Hin & Hnd & Hk').
      exists (name :: new), k'. split; [|split; [|split]].
      * rewrite <- app_assoc. simpl. f_equal. f_equal. set_solver.
      * intros x. rewrite !elem_of_cons, Hin. unfold unknown in *.
        split.
        -- intros [->|(Hx & Hc & Hd & Hh)]; [tauto|]. split; [tauto|]. set_solver.
        -- intros ([->|Hx] & Hc & Hd & Hh); [tauto|].
           destruct (decide (x = name)) as [->|Hne]; [tauto|]. right. set_solver.
      * constructor; [|done]. rewrite Hin. unfold unknown. set_solver.
      * simpl. lia.
    + rewrite keep_new_known by done.
      destruct (IH cache (S k) kept) as (new & k' & -> & Hin & Hnd & Hk').
      exists new, k'. split; [done|]. split; [|split; [done|simpl; lia]].
      intros x. rewrite Hin, elem_of_cons. split; [tauto|].
      intros ([->|Hx] & Hu); [done|tauto].
Qed.

End Filter.

(** *** The clone step and the whole run *)

Section Run.
Variable legacy : string → JSDate.Date.
Variable api : remote.
Variable s : strategy.
Variable customOptions : custom_options.

(** The clone step takes every error of its requests, and a clone bears
    the name it was asked for. *)
Lemma cloneAndScheduleEmailOptimized_returns rank id day hour minute newEmailName time :
  ∃ r, cloneAndScheduleEmailOptimized api rank id day hour minute newEmailName time s
       = Return r
    ∧ ∀ emailId emailName scheduledTime,
        r = Cloned emailId emailName scheduledTime → emailName = newEmailName.
Proof.
  unfold cloneAndScheduleEmailOptimized.
  destruct (toISOString time) as [t|] eqn:Ht; simpl; [|by eexists].
  destruct (email_get api rank id) as [originalEmail|]; simpl; [|by eexists].
  destruct (email_clone api rank id) as [clonedId|]; simpl; [|by eexists].
  destruct (email_update api rank clonedId _) as [[]|]; simpl; [|by eexists].
  destruct (ClonedEmail_save api _) as [[]|]; simpl; eexists; (split; [done|]);
    by intros ? ? ? [= _ <- _].
Qed.

(** Every name handed to the clone step is run through it once, and ends
    as a clone or as an error. *)
Lemma clone_all_spec (emailScheduleMap : gmap string schedule) : ∀ names rank st,
  (∀ name, name ∈ names → is_Some (emailScheduleMap !! name)) →
  ∃ st' cloned,
    clone_all api s rank names emailScheduleMap st = Return st'
    ∧ totalAttempted st' = totalAttempted st
    ∧ duplicatesSkipped st' = duplicatesSkipped st
    ∧ clonedEmails st' = clonedEmails st ++ cloned
    ∧ successfullyCloned st' = (successfullyCloned st + length cloned)%nat
    ∧ (errors st' + length cloned = errors st + length names)%nat
    ∧ (name_of <$> cloned) `sublist_of` names.
Proof.
  induction names as [|name names IH]; intros rank st Hmap; simpl.
  - exists st, []. rewrite app_nil_r. repeat split; (done || lia || constructor).
  - destruct (Hmap name) as [sch ->]; [left|].
    destruct (cloneAndScheduleEmailOptimized_returns rank (s_originalEmailId sch) (s_day sch)
                (s_hour sch) (s_minute sch) name (s_scheduledTime sch)) as (r & -> & Hr).
    simpl.
    match goal with |- context [clone_all _ _ _ _ _ ?st1] =>
      destruct (IH (S rank) st1) as (st' & cloned & -> & Ht & Hd & Hc & Hs & He & Hsub)
    end.
    { intros n Hn. apply Hmap. by right. }
    destruct r as [id n time|message]; simpl in *.
    + rewrite (Hr id n time eq_refl) in *.
      exists st', ((id, name, time) :: cloned). rewrite <- app_assoc in Hc.
      repeat split; try done; simpl; [lia|lia|]. by constructor.
    + exists st', cloned. repeat split; try done; [lia|]. by constructor.
Qed.

Lemma plan_day_scheduled day emailInfoMap : ∀ emailIds c p,
  scheduled p → scheduled (plan_day legacy s customOptions day emailIds emailInfoMap c p).
Proof.
  induction emailIds as [|emailId emailIds IH]; intros c p Hp; simpl; [done|].
  destruct (emailInfoMap !! emailId) as [originalEmailName|]; [|by apply IH].
  destruct (String.eqb originalEmailName ""); [by apply IH|].
  destruct (next_slot s customOptions c) as [[hour minute] c'].
  apply IH.
  destruct (clone_name legacy originalEmailName day hour minute) as [[newEmailName clonedDate]|];
    [|done].
  intros name. simpl. rewrite elem_of_app, list_elem_of_singleton. intros [Hn| ->].
  - destruct (decide (newEmailName = name)) as [->|Hne].
    + rewrite lookup_insert_eq. by eexists.
    + rewrite lookup_insert_ne by done. by apply Hp.
  - rewrite lookup_insert_eq. by eexists.
Qed.

Lemma plan_days_scheduled emailIds emailInfoMap : ∀ days p,
  scheduled p → scheduled (plan_days legacy s customOptions days emailIds emailInfoMap p).
Proof.
  induction days as [|day days IH]; intros p Hp; simpl; [done|].
  by apply IH, plan_day_scheduled.
Qed.

(** What a run of [EmailCloner] does with the names it has built. *)
Lemma EmailCloner_layers emailIds cloningCount (cache : gset string) :
  let run := EmailCloner legacy api s customOptions emailIds cloningCount cache in
  (∀ message, ClonedEmail_find api (checked run) = Throw message →
     emailsToProcess run = [] ∧ cache_after run = cache
     ∧ response run = Throw ("Failed to complete cloning process: " +:+ message))
  ∧ (∀ db, ClonedEmail_find api (checked run) = Return db →
     ∃ hub st,
       batchCheckEmailsExist api (checked run) = Return hub
       ∧ (∀ name, name ∈ checked run → ∃ k, hub !! name = Some (found api k name))
       ∧ (∀ name, name ∈ emailsToProcess run
                  ↔ name ∈ checked run ∧ unknown cache (list_to_set db) hub name)
       ∧ NoDup (emailsToProcess run)
       ∧ cache_after run = list_to_set (emailsToProcess run) ∪ cache
       ∧ response run = Return st
       ∧ (duplicatesSkipped st + length (emailsToProcess run) = length (checked run))%nat
       ∧ successfullyCloned st = length (clonedEmails st)
       ∧ (name_of <$> clonedEmails st) `sublist_of` emailsToProcess run).
Proof.
  unfold EmailCloner.
  destruct (fetch_names api 0 emailIds ∅ 0) as [emailInfoMap errors0].
  set (p := plan_days legacy s customOptions (days_of cloningCount) emailIds emailInfoMap
              (Plan errors0 0 [] ∅)).
  assert (Hp : scheduled p).
  { apply plan_days_scheduled. intros name H. by apply elem_of_nil in H. }
  destruct (ClonedEmail_find api (emailNamesToCheck p)) as [dbDuplicates|message] eqn:Hfind.
  - destruct (batchCheckEmailsExist_spec api (emailNamesToCheck p)) as (hub & Hhub & Hin & _).
    rewrite Hhub.
    destruct (keep_new_fold (list_to_set dbDuplicates) hub (emailNamesToCheck p) cache 0%nat [])
      as (new & k' & -> & Hnew & Hnd & Hk').
    simpl app.
    destruct (clone_all_spec (emailScheduleMap p) new (length emailIds)
                (Stats (p_totalAttempted p) 0 k' (p_errors p) []))
      as (st & cloned & Hst & _ & Hd & Hc & Hs & _ & Hsub).
    { intros name Hname. apply Hp. by apply Hnew. }
    cbv zeta. cbn [cache_after checked emailsToProcess response]. rewrite Hfind.
    split; [done|]. intros db [= <-].
    exists hub, st. rewrite Hst. simpl in *. rewrite Hc, Hd, Hs.
    split; [done|]. split; [done|]. split; [exact Hnew|]. split; [done|].
    split; [done|]. split; [done|]. split; [lia|]. by split.
  - cbv zeta. cbn [cache_after checked emailsToProcess response]. rewrite Hfind.
    split; [|done]. by intros message' [= <-].
Qed.

End Run.

(** C10. When the search for a name fails, by an error of the transport
    or of the API, the existence check gives "does not exist" and raises
    nothing: the single check returns [false], a request of a sub-batch
    counts as not found, and the batch check leaves the name unmarked when
    every search for it fails. A name built in a run, known neither to the
    cache nor to the audit store, is then handed to the clone step,
    whether the remote system holds it or not. *)
Theorem search_error_means_absent legacy (api : remote) :
  (∀ name message,
     email_search api 0 name = Throw message → checkEmailExists api name = Return false)
  ∧ (∀ rank name message,
       email_search api rank name = Throw message → check_one api rank name = Return false)
  ∧ (∀ names name,
       (∀ rank, ∃ message, email_search api rank name = Throw message) →
       ∃ hub, batchCheckEmailsExist api names = Return hub ∧ hub !! name ≠ Some true)
  ∧ (∀ s customOptions emailIds cloningCount (cache : gset string) db name,
       let run := EmailCloner legacy api s customOptions emailIds cloningCount cache in
       ClonedEmail_find api (checked run) = Return db →
       (∀ rank, ∃ message, email_search api rank name = Throw message) →
       name ∈ checked run → name ∉ cache → name ∉ db →
       name ∈ emailsToProcess run).
Proof.
  assert (Hfound : ∀ name, (∀ rank, ∃ message, email_search api rank name = Throw message) →
            ∀ k, found api k name = false).
  { intros name H k. unfold found. by destruct (H k) as [message ->]. }
  split; [|split; [|split]].
  - intros name message H. unfold checkEmailExists. by rewrite H.
  - intros rank name message H. unfold check_one. by rewrite H.
  - intros names name H.
    destruct (batchCheckEmailsExist_spec api names) as (hub & Hhub & Hin & Hout).
    exists hub. split; [done|].
    destruct (decide (name ∈ names)) as [Hn|Hn].
    + destruct (Hin name Hn) as [k ->]. by rewrite Hfound.
    + by rewrite Hout.
  - intros s customOptions emailIds cloningCount cache db name run Hfind Herr Hname Hcache Hdb.
    destruct (EmailCloner_layers legacy api s customOptions emailIds cloningCount cache)
      as [_ H].
    destruct (H db Hfind) as (hub & st & _ & Hin & Hkept & _).
    apply Hkept. split; [done|]. split; [done|]. split.
    + by rewrite elem_of_list_to_set.
    + destruct (Hin name Hname) as [k ->]. by rewrite Hfound.
Qed.

(** The remote system holds the name built for the first email, and the
    search for that name fails: the name is handed to the clone step. *)
Lemma search_error_means_absent_witness :
  let api := ClonerDoubles.clone_api ClonerDoubles.three_names
               [] ["Acme - 06 Mar 2025"] (String.eqb "Acme - 06 Mar 2025") in
  "Acme - 06 Mar 2025"
  ∈ emailsToProcess
      (EmailCloner ClonerDoubles.strict api Smart (CustomOptions None None None) [1] 1 ∅).
Proof.
  intros api.
  destruct (search_error_means_absent ClonerDoubles.strict api) as (_ & _ & _ & H).
  apply (H Smart (CustomOptions None None None) [1] 1 ∅ []).
  - vm_compute. reflexivity.
  - intros rank. exists "Network Error". reflexivity.
  - vm_compute. left.
  - apply not_elem_of_empty.
  - apply not_elem_of_nil.
Defined.

End DuplicateFacts.

(** ** The slots of a day *)

Module SlotFacts.
Import JS JSFacts Cloner.

Lemma roll_nonneg hour minute :
  0 <= minute → roll hour minute = (hour + minute / 60, minute mod 60).
Proof.
  intros H. unfold roll. destruct (Z.leb_spec 60 minute).
  - by rewrite Z.rem_mod_nonneg by lia.
  - by rewrite Z.div_small, Z.mod_small, Z.add_0_r by lia.
Qed.

Section Smart.
Variable customOptions : custom_options.

Lemma smart_counters_after (i : nat) :
  counters_after Smart customOptions i
  = Counters (5 * Z.min (Z.of_nat i) 12) (5 * Z.max (Z.of_nat i - 12) 0) 0 (Z.of_nat i).
Proof.
  induction i as [|i IH]; [done|].
  unfold counters_after in *. rewrite Nat.iter_succ, IH. clear IH.
  unfold next_slot, MAX_MORNING_SLOTS. cbn [emailIndex].
  destruct (Z.ltb_spec (Z.of_nat i) 12); cbn [snd morningMinuteCounter afternoonMinuteCounter
    customTimeCounter emailIndex]; f_equal; lia.
Qed.

(** The slot of index [i] under the smart strategy. *)
Lemma smart_slot_at (i : nat) :
  slot_at Smart customOptions i
  = if Z.of_nat i <? 12 then (11, 5 * Z.of_nat i)
    else (16 + (5 * (Z.of_nat i - 12)) / 60, (5 * (Z.of_nat i - 12)) mod 60).
Proof.
  unfold slot_at. rewrite smart_counters_after.
  unfold next_slot, MAX_MORNING_SLOTS. cbn [emailIndex].
  destruct (Z.ltb_spec (Z.of_nat i) 12); cbn [fst morningMinuteCounter afternoonMinuteCounter].
  - rewrite roll_nonneg by lia. rewrite Z.min_l by lia.
    by rewrite Z.div_small, Z.mod_small by lia.
  - rewrite roll_nonneg by lia. by rewrite Z.max_l by lia.
Qed.

End Smart.

Section Plan.
Variable legacy : string → JSDate.Date.
Variable s : strategy.
Variable customOptions : custom_options.
Variable emailInfoMap : gmap Z string.

Local Abbreviation plan_day := (Cloner.plan_day legacy s customOptions).
Local Abbreviation plan_days := (Cloner.plan_days legacy s customOptions).

(** A day adds names to the plan, and touches the entries of no other
    name. *)
Lemma plan_day_grows day : ∀ emailIds c p,
  ∃ added,
    emailNamesToCheck (plan_day day emailIds emailInfoMap c p) = emailNamesToCheck p ++ added
    ∧ ∀ name, name ∉ added →
        emailScheduleMap (plan_day day emailIds emailInfoMap c p) !! name
        = emailScheduleMap p !! name.
Proof.
  induction emailIds as [|emailId emailIds IH]; intros c p; simpl.
  - exists []. by rewrite app_nil_r.
  - assert (Hskip : ∀ c1 errors attempted,
      ∃ added,
        emailNamesToCheck (plan_day day emailIds emailInfoMap c1
          (Plan errors attempted (emailNamesToCheck p) (emailScheduleMap p)))
        = emailNamesToCheck p ++ added
        ∧ ∀ name, name ∉ added →
            emailScheduleMap (plan_day day emailIds emailInfoMap c1
              (Plan errors attempted (emailNamesToCheck p) (emailScheduleMap p))) !! name
            = emailScheduleMap p !! name).
    { intros c1 errors attempted. apply (IH c1 (Plan errors attempted _ _)). }
    destruct (emailInfoMap !! emailId) as [originalEmailName|]; [|apply Hskip].
    destruct (String.eqb originalEmailName ""); [apply Hskip|].
    destruct (next_slot s customOptions c) as [[hour minute] c'].
    destruct (clone_name legacy originalEmailName day hour minute)
      as [[newEmailName clonedDate]|]; [|apply Hskip].
    match goal with |- context [plan_day _ _ _ _ ?p1] =>
      destruct (IH c' p1) as (added & -> & Hmap) end.
    exists (newEmailName :: added). simpl. rewrite <- app_assoc. split; [done|].
    intros name Hname. apply not_elem_of_cons in Hname as [Hne Hname].
    rewrite Hmap by done. simpl. by rewrite lookup_insert_ne.
Qed.

Lemma plan_days_grows emailIds : ∀ days p,
  ∃ added,
    emailNamesToCheck (plan_days days emailIds emailInfoMap p) = emailNamesToCheck p ++ added
    ∧ ∀ name, name ∉ added →
        emailScheduleMap (plan_days days emailIds emailInfoMap p) !! name
        = emailScheduleMap p !! name.
Proof.
  induction days as [|day days IH]; intros p; simpl.
  - exists []. by rewrite app_nil_r.
  - destruct (plan_day_grows day emailIds (Counters 0 0 0 0) p) as (added1 & H1 & Hmap1).
    destruct (IH (plan_day day emailIds emailInfoMap (Counters 0 0 0 0) p))
      as (added & -> & Hmap).
    exists (added1 ++ added). rewrite H1, <- app_assoc. split; [done|].
    intros name Hname. apply not_elem_of_app in Hname as [Hn1 Hn].
    by rewrite Hmap, Hmap1.
Qed.

(** The email at position [i] of a day whose emails all have names gets
    the slot of index [i], and the plan holds its entry under the name
    built for it, when the names the plan ends with are all different. *)
Lemma plan_day_entry day : ∀ emailIds (k : nat) p (i : nat) emailId originalEmailName
    newEmailName clonedDate,
  all_named emailIds emailInfoMap →
  emailIds !! i = Some emailId →
  emailInfoMap !! emailId = Some originalEmailName →
  clone_name legacy originalEmailName day
    (slot_at s customOptions (k + i)).1 (slot_at s customOptions (k + i)).2
  = Some (newEmailName, clonedDate) →
  let p' := plan_day day emailIds emailInfoMap (counters_after s customOptions k) p in
  newEmailName ∈ emailNamesToCheck p'
  ∧ (NoDup (emailNamesToCheck p') →
     emailScheduleMap p' !! newEmailName
     = Some (Schedule emailId day (slot_at s customOptions (k + i)).1
               (slot_at s customOptions (k + i)).2 clonedDate originalEmailName)).
Proof.
  induction emailIds as [|emailId0 emailIds IH];
    intros k p i emailId originalEmailName newEmailName clonedDate Hnamed Hi Hinfo Hname;
    [done|].
  destruct (Hnamed emailId0) as (name0 & Hinfo0 & Hne0); [left|].
  assert (Hnamed' : all_named emailIds emailInfoMap).
  { intros id Hid. apply Hnamed. by right. }
  cbn [Cloner.plan_day]. rewrite Hinfo0, Hne0.
  destruct (next_slot s customOptions (counters_after s customOptions k))
    as [[hour minute] c'] eqn:Hnext.
  assert (Hslot : slot_at s customOptions k = (hour, minute)).
  { unfold slot_at. by rewrite Hnext. }
  assert (Hc' : counters_after s customOptions (S k) = c').
  { unfold counters_after. rewrite Nat.iter_succ.
    fold (counters_after s customOptions k). by rewrite Hnext. }
  rewrite <- Hc'.
  destruct i as [|i].
  - (* the email at the head of the list *)
    injection Hi as ->. rewrite Hinfo in Hinfo0. injection Hinfo0 as <-.
    rewrite Nat.add_0_r, Hslot in Hname |- *. cbn [fst snd] in *. rewrite Hname.
    match goal with |- context [plan_day _ _ _ _ ?p1] =>
      destruct (plan_day_grows day emailIds (counters_after s customOptions (S k)) p1)
        as (added & Hnames & Hmap) end.
    cbv zeta. rewrite Hnames. cbn [emailNamesToCheck]. split.
    + rewrite !elem_of_app, list_elem_of_singleton. tauto.
    + intros Hnd. rewrite Hmap; [cbn [emailScheduleMap]; by rewrite lookup_insert_eq|].
      rewrite <- app_assoc in Hnd. apply NoDup_app in Hnd as (_ & _ & Hnd).
      apply NoDup_cons in Hnd as [Hnd _]. done.
  - (* a later email *)
    replace (k + S i)%nat with (S k + i)%nat in * by lia.
    cbn [lookup list_lookup] in Hi.
    destruct (clone_name legacy name0 day hour minute) as [[name1 date1]|];
      by eapply IH.
Qed.

Lemma plan_days_entry emailIds : ∀ days p day (i : nat) emailId originalEmailName
    newEmailName clonedDate,
  all_named emailIds emailInfoMap →
  day ∈ days →
  emailIds !! i = Some emailId →
  emailInfoMap !! emailId = Some originalEmailName →
  clone_name legacy originalEmailName day
    (slot_at s customOptions i).1 (slot_at s customOptions i).2
  = Some (newEmailName, clonedDate) →
  let p' := plan_days days emailIds emailInfoMap p in
  NoDup (emailNamesToCheck p') →
  emailScheduleMap p' !! newEmailName
  = Some (Schedule emailId day (slot_at s customOptions i).1
            (slot_at s customOptions i).2 clonedDate originalEmailName).
Proof.
  induction days as [|day0 days IH];
    intros p day i emailId originalEmailName newEmailName clonedDate Hnamed Hday Hi Hinfo Hname;
    [by apply elem_of_nil in Hday|].
  intros p'. subst p'. cbn [Cloner.plan_days]. intros Hnd.
  destruct (plan_days_grows emailIds days
              (plan_day day0 emailIds emailInfoMap (Counters 0 0 0 0) p))
    as (added & Hnames & Hmap).
  destruct (decide (newEmailName ∈ added)) as [Hin|Hout].
  - (* the name is built again on a later day *)
    apply elem_of_cons in Hday as [->|Hday]; [|by eapply IH].
    destruct (plan_day_entry day0 emailIds 0 p i emailId originalEmailName newEmailName
                clonedDate Hnamed Hi Hinfo Hname) as [Hin0 _].
    rewrite Hnames in Hnd. apply NoDup_app in Hnd as (_ & Hnd & _).
    by destruct (Hnd newEmailName Hin0).
  - apply elem_of_cons in Hday as [->|Hday].
    + rewrite Hmap by done.
      apply (plan_day_entry day0 emailIds 0 p i); try done.
      rewrite Hnames in Hnd. by apply NoDup_app in Hnd as (Hnd & _).
    + by eapply IH.
Qed.

End Plan.

End SlotFacts.

(** ** Strings *)

Module StringFacts.
Import JSString.

Lemma append_empty_r (s : string) : s +:+ "" = s.
Proof.
  induction s as [|a s IH]; [done|].
  change (String a s +:+ "") with (String a (s +:+ "")). by rewrite IH.
Qed.

Lemma append_assoc (s1 s2 s3 : string) : (s1 +:+ s2) +:+ s3 = s1 +:+ s2 +:+ s3.
Proof.
  induction s1 as [|a s1 IH]; [done|].
  change ((String a s1 +:+ s2) +:+ s3) with (String a ((s1 +:+ s2) +:+ s3)).
  by rewrite IH.
Qed.

Lemma strip_prefix_app (p rest : string) : strip_prefix p (p +:+ rest) = Some rest.
Proof.
  induction p as [|a p IH]; [done|].
  change (String a p +:+ rest) with (String a (p +:+ rest)).
  cbn [strip_prefix]. by destruct (decide (a = a)).
Qed.

Lemma strip_prefix_Some : ∀ (p s rest : string),
  strip_prefix p s = Some rest → s = p +:+ rest.
Proof.
  induction p as [|a p IH]; intros s rest; cbn [strip_prefix].
  - by intros [= ->].
  - destruct s as [|b s]; [done|]. destruct (decide (a = b)) as [->|]; [|done].
    intros H. by rewrite (IH _ _ H).
Qed.

Lemma has_char_app a (s1 s2 : string) :
  has_char a (s1 +:+ s2) = has_char a s1 || has_char a s2.
Proof.
  induction s1 as [|b s1 IH]; [done|].
  change (String b s1 +:+ s2) with (String b (s1 +:+ s2)).
  cbn [has_char]. by rewrite IH, orb_assoc.
Qed.

(** A pattern whose first character does not occur is not found. *)
Lemma replace_absent a (pattern replacement : string) : ∀ s1 s2 : string,
  has_char a s1 = false →
  replace (s1 +:+ s2) (String a pattern) replacement
  = s1 +:+ replace s2 (String a pattern) replacement.
Proof.
  induction s1 as [|b s1 IH]; intros s2 H; [done|].
  simpl in H. apply orb_false_elim in H as [Hab H].
  apply bool_decide_eq_false in Hab.
  change (String b s1 +:+ s2) with (String b (s1 +:+ s2)).
  cbn [replace strip_prefix]. destruct (decide (a = b)); [done|].
  by rewrite IH.
Qed.

Lemma replace_absent_all a (pattern replacement : string) (s : string) :
  has_char a s = false → replace s (String a pattern) replacement = s.
Proof.
  intros H. rewrite <- (append_empty_r s) at 1.
  rewrite replace_absent by done. simpl. by rewrite append_empty_r.
Qed.

(** The text of a match has the shape of the pattern, and a string that
    starts with such a text matches at its start. *)
Lemma datePattern_here_Some (s text rest : string) :
  datePattern_here s = Some (text, rest) → s = text +:+ rest ∧ date_shaped text.
Proof.
  unfold date_shaped, datePattern_here.
  do 11 (destruct s as [|? s]; [done|]).
  destruct (_ && _) eqn:E; [|done]. intros [= <- <-]. by rewrite E.
Qed.

Lemma date_shaped_here (text rest : string) :
  date_shaped text → datePattern_here (text +:+ rest) = Some (text, rest).
Proof.
  unfold date_shaped, datePattern_here.
  do 11 (destruct text as [|? text]; [done|]).
  destruct (_ && _) eqn:E; [|done]. intros H.
  assert (text = EmptyString) as -> by congruence. simpl. by rewrite E.
Qed.

(** The text [match] finds is where [replace] finds it first. *)
Lemma match_replace : ∀ (name text : string),
  match_datePattern name = Some text →
  date_shaped text
  ∧ ∃ pre post, name = pre +:+ text +:+ post
      ∧ ∀ replacement, replace name text replacement = pre +:+ replacement +:+ post.
Proof.
  induction name as [|a name IH]; intros text; [done|].
  cbn [match_datePattern].
  destruct (datePattern_here (String a name)) as [[t rest]|] eqn:Hhere.
  - intros [= ->]. apply datePattern_here_Some in Hhere as [Hname Hshape].
    split; [done|]. exists EmptyString, rest. split; [done|].
    intros replacement. rewrite Hname. destruct text as [|b text]; [done|].
    change (String b text +:+ rest) with (String b (text +:+ rest)).
    cbn [replace]. change (String b (text +:+ rest)) with (String b text +:+ rest).
    by rewrite strip_prefix_app.
  - intros Hmatch. destruct (IH text Hmatch) as (Hshape & pre & post & Hname & Hreplace).
    split; [done|]. exists (String a pre), post. split; [by rewrite Hname|].
    intros replacement. cbn [replace].
    destruct (strip_prefix text (String a name)) as [rest|] eqn:Hstrip.
    + apply strip_prefix_Some in Hstrip. rewrite Hstrip in Hhere.
      by rewrite date_shaped_here in Hhere.
    + by rewrite Hreplace.
Qed.

End StringFacts.

(** ** Dates *)

Module DateFacts.
Import JSString JSDate StringFacts.

Lemma days_in_month_bounds y m : 28 <= days_in_month y m <= 31.
Proof.
  unfold days_in_month.
  destruct (m =? 1); [destruct (is_leap y); lia|]. destruct (_ || _); lia.
Qed.

Lemma next_day_valid c : valid c → valid (next_day c).
Proof.
  unfold valid, next_day. intros [Hm Hd].
  destruct (Z.ltb_spec (day c) (days_in_month (year c) (month c))); simpl; [lia|].
  destruct (Z.ltb_spec (month c) 11); simpl.
  - pose proof (days_in_month_bounds (year c) (month c + 1)). lia.
  - pose proof (days_in_month_bounds (year c + 1) 0). lia.
Qed.

Lemma iter_next_day_valid (n : nat) c : valid c → valid (Nat.iter n next_day c).
Proof.
  intros H. induction n as [|n IH]; [done|]. rewrite Nat.iter_succ. by apply next_day_valid.
Qed.

Lemma add_days_valid c n : 0 <= n → valid c → valid (add_days c n).
Proof.
  intros Hn H. unfold add_days. destruct (Z.leb_spec 0 n); [|lia].
  by apply iter_next_day_valid.
Qed.

(** Days later in the same month. *)
Lemma iter_next_day_in_month y m d (k : nat) :
  d + Z.of_nat k <= days_in_month y m →
  Nat.iter k next_day (Civil y m d) = Civil y m (d + Z.of_nat k).
Proof.
  induction k as [|k IH]; intros H.
  - simpl. f_equal. lia.
  - rewrite Nat.iter_succ, IH by lia. unfold next_day. cbn [year month day].
    destruct (Z.ltb_spec (d + Z.of_nat k) (days_in_month y m)); [|lia]. f_equal. lia.
Qed.

Lemma add_days_add c a b : 0 <= a → 0 <= b → add_days (add_days c a) b = add_days c (a + b).
Proof.
  intros Ha Hb. unfold add_days.
  destruct (Z.leb_spec 0 a); [|lia]. destruct (Z.leb_spec 0 b); [|lia].
  destruct (Z.leb_spec 0 (a + b)); [|lia].
  rewrite Z2Nat.inj_add, Nat.add_comm by lia. by rewrite Nat.iter_add.
Qed.

(** [d.setDate(d.getDate() + n)] is the date [n] days later. *)
Lemma setDate_getDate c h mi n :
  valid c → 0 <= n →
  setDate (Some (Fields c h mi)) (day c + n) = Some (Fields (add_days c n) h mi).
Proof.
  intros [Hm Hd] Hn. unfold setDate. simpl. do 2 f_equal.
  replace (day c + n - 1) with ((day c - 1) + n) by lia.
  rewrite <- add_days_add by lia. f_equal.
  unfold add_days. destruct (Z.leb_spec 0 (day c - 1)); [|lia].
  rewrite iter_next_day_in_month by lia. destruct c as [y m d]. simpl in *. f_equal. lia.
Qed.

Lemma index_of_range name : ∀ names i,
  index_of name names = Some i → 0 <= i < Z.of_nat (length names).
Proof.
  induction names as [|n names IH]; intros i; simpl; [done|].
  destruct (decide (n = name)); [intros [= <-]; lia|].
  destruct (index_of name names) as [j|]; simpl; [|done].
  intros [= <-]. specialize (IH j eq_refl). lia.
Qed.

(** What [parse_DD_Mon_YYYY] reads is a day of the calendar, at midnight. *)
Lemma parse_valid text f :
  parse_DD_Mon_YYYY text = Some f → valid (on f) ∧ hours f = 0 ∧ minutes f = 0.
Proof.
  unfold parse_DD_Mon_YYYY.
  do 11 (destruct text as [|? text]; [done|]). destruct text; [|done].
  destruct (index_of _ monthNames) as [m|] eqn:Hm; simpl; [|done].
  apply index_of_range in Hm. simpl in Hm.
  match goal with |- context [if ?c then _ else _] => destruct c eqn:E end; [|done].
  intros [= <-]. simpl. unfold valid. simpl.
  repeat (apply andb_prop in E as [E ?]). split; [|done]. lia.
Qed.

(** *** A date read and written back *)

Lemma is_digit_digits a : is_digit a = true → In a digits.
Proof.
  destruct a as [[] [] [] [] [] [] [] []]; try discriminate; intros _;
    vm_compute; tauto.
Qed.

Lemma is_space_eq a : is_space a = true → a = " "%char.
Proof. destruct a as [[] [] [] [] [] [] [] []]; try discriminate; done. Qed.

Lemma index_of_lookup name : ∀ names i,
  index_of name names = Some i → names !! Z.to_nat i = Some name.
Proof.
  induction names as [|n names IH]; intros i; simpl; [done|].
  destruct (decide (n = name)) as [->|]; [by intros [= <-]|].
  destruct (index_of name names) as [j|] eqn:Hj; simpl; [|done].
  intros [= <-]. pose proof (index_of_range _ _ _ Hj).
  rewrite Z2Nat.inj_succ by lia. by apply IH.
Qed.

Lemma two_digits_read d1 d2 :
  is_digit d1 = true → is_digit d2 = true →
  two_digits (10 * digit_value d1 + digit_value d2) = String d1 (String d2 EmptyString).
Proof.
  intros H1 H2.
  assert (H : two_digits_read_back = true) by (vm_compute; reflexivity).
  unfold two_digits_read_back in H. rewrite forallb_forall in H.
  specialize (H d1 (is_digit_digits d1 H1)). rewrite forallb_forall in H.
  specialize (H d2 (is_digit_digits d2 H2)). by apply String.eqb_eq in H.
Qed.

Lemma year_read y1 y2 y3 y4 :
  is_digit y1 = true → is_digit y2 = true → is_digit y3 = true → is_digit y4 = true →
  1000 <= 1000 * digit_value y1 + 100 * digit_value y2 + 10 * digit_value y3 + digit_value y4 →
  decimal (1000 * digit_value y1 + 100 * digit_value y2 + 10 * digit_value y3 + digit_value y4)
  = String y1 (String y2 (String y3 (String y4 EmptyString))).
Proof.
  intros H1 H2 H3 H4 Hy.
  assert (H : year_read_back = true) by (vm_compute; reflexivity).
  unfold year_read_back in H. rewrite forallb_forall in H.
  specialize (H y1 (is_digit_digits y1 H1)). rewrite forallb_forall in H.
  specialize (H y2 (is_digit_digits y2 H2)). rewrite forallb_forall in H.
  specialize (H y3 (is_digit_digits y3 H3)). rewrite forallb_forall in H.
  specialize (H y4 (is_digit_digits y4 H4)). cbv zeta in H.
  destruct (Z.leb_spec 1000 (1000 * digit_value y1 + 100 * digit_value y2
                             + 10 * digit_value y3 + digit_value y4)); [|lia].
  by apply String.eqb_eq in H.
Qed.

(** The text of a date with a year of four digits is the date it reads
    as, written in the form [DD Mon YYYY]. *)
Lemma format_parse text f :
  parse_DD_Mon_YYYY text = Some f → 1000 <= year (on f) →
  format_DD_Mon_YYYY (on f) = text.
Proof.
  unfold parse_DD_Mon_YYYY.
  destruct text as [|d1 [|d2 [|s1 [|w1 [|w2 [|w3 [|s2 [|y1 [|y2 [|y3 [|y4 [|]]]]]]]]]]]];
    try done.
  destruct (index_of _ monthNames) as [m|] eqn:Hm; simpl; [|done].
  apply index_of_lookup in Hm.
  match goal with |- context [if ?c then _ else _] => destruct c eqn:E end; [|done].
  intros [= <-]. cbn [on year month day]. intros Hy.
  repeat (apply andb_prop in E as [E ?]).
  assert (is_digit d1 = true) by (apply andb_true_intro; by split).
  unfold format_DD_Mon_YYYY. cbn [year month day].
  rewrite Hm, two_digits_read, year_read by done.
  by rewrite (is_space_eq s1), (is_space_eq s2) by done.
Qed.

(** *** The characters of a formatted date *)

Lemma uint_chars a : is_digit a = false → ∀ d, has_char a (NilEmpty.string_of_uint d) = false.
Proof.
  intros Ha. induction d as [|d IH|d IH|d IH|d IH|d IH|d IH|d IH|d IH|d IH|d IH]; simpl;
    [done|..]; rewrite IH, orb_false_r; apply bool_decide_eq_false; by intros ->.
Qed.

Lemma decimal_chars a z : is_digit a = false → a ≠ "-"%char → has_char a (decimal z) = false.
Proof.
  intros Ha Hminus. unfold decimal.
  assert (Hz : ∀ d, has_char a (NilZero.string_of_uint d) = false).
  { intros d. pose proof (uint_chars a Ha d) as H. destruct d; try done.
    simpl. rewrite orb_false_r. apply bool_decide_eq_false. by intros ->. }
  destruct (Z.to_int z) as [d|d]; simpl; [done|].
  rewrite Hz, orb_false_r. by apply bool_decide_eq_false.
Qed.

Lemma two_digits_chars a n : is_digit a = false → a ≠ "-"%char → has_char a (two_digits n) = false.
Proof.
  intros Ha Hminus. unfold two_digits. destruct (n <? 10); [|by apply decimal_chars].
  rewrite has_char_app, decimal_chars by done. rewrite orb_false_r. simpl.
  rewrite orb_false_r. apply bool_decide_eq_false. by intros ->.
Qed.

Lemma replace_in_date (dd mon mon' yyyy : string) :
  has_char "," dd = false → has_char "S" dd = false →
  has_char "," yyyy = false → has_char "," mon = false →
  replace (mon +:+ " " +:+ yyyy) "Sept" "Sep" = mon' +:+ " " +:+ yyyy →
  replace (replace (dd +:+ " " +:+ mon +:+ " " +:+ yyyy) "," "") "Sept" "Sep"
  = dd +:+ " " +:+ mon' +:+ " " +:+ yyyy.
Proof.
  intros Hdd1 Hdd2 Hy Hmon Hsept.
  rewrite (replace_absent_all "," "" "").
  2: { rewrite !has_char_app, Hdd1, Hmon, Hy. done. }
  rewrite (replace_absent "S" "ept" "Sep" dd) by done.
  rewrite (replace_absent "S" "ept" "Sep" " ") by done.
  by rewrite Hsept.
Qed.

Lemma replace_no_sept (mon yyyy : string) :
  has_char "S" mon = false → has_char "S" yyyy = false →
  replace (mon +:+ " " +:+ yyyy) "Sept" "Sep" = mon +:+ " " +:+ yyyy.
Proof.
  intros Hmon Hy.
  rewrite (replace_absent "S" "ept" "Sep" mon) by done.
  rewrite (replace_absent "S" "ept" "Sep" " ") by done.
  by rewrite (replace_absent_all "S" "ept" "Sep" yyyy).
Qed.

(** The date as the locale writes it, once [Sept] is made [Sep], is the
    date in the form [DD Mon YYYY]. *)
Lemma toLocaleDateString_format c h mi :
  valid c →
  replace (replace (toLocaleDateString (Some (Fields c h mi))) "," "") "Sept" "Sep"
  = format_DD_Mon_YYYY c.
Proof.
  intros [Hm Hd]. unfold toLocaleDateString, format_DD_Mon_YYYY. cbn [on].
  assert (Hdd1 := two_digits_chars "," (day c) eq_refl ltac:(done)).
  assert (Hdd2 := two_digits_chars "S" (day c) eq_refl ltac:(done)).
  assert (Hy1 := decimal_chars "," (year c) eq_refl ltac:(done)).
  assert (Hy2 := decimal_chars "S" (year c) eq_refl ltac:(done)).
  generalize dependent (two_digits (day c)). generalize dependent (decimal (year c)).
  intros yyyy Hy1 Hy2 dd Hdd1 Hdd2.
  assert (Hcases : ∃ k : nat, (k < 12)%nat ∧ Z.to_nat (month c) = k) by (eexists; split; [|done]; lia).
  destruct Hcases as (k & Hk & ->).
  do 12 (destruct k as [|k];
         [simpl; apply replace_in_date; try done; (by apply replace_no_sept)|]).
  lia.
Qed.

End DateFacts.

(** ** The name of a clone *)

Module NameFacts.
Import JS JSString JSDate StringFacts DateFacts Cloner.

(** The date found in the name reads as a day of the calendar: the name
    of the clone has, in its place, the day of the scheduled time, which
    is [day] days later, and a day more for every 24 hours of the slot. *)
Lemma clone_name_date legacy (originalEmailName text : string) f (day hour minute : Z) :
  match_datePattern originalEmailName = Some text →
  parse_DD_Mon_YYYY text = Some f →
  0 <= day → 0 <= hour * 60 + minute →
  ∃ pre post,
    originalEmailName = pre +:+ text +:+ post
    ∧ let date := add_days (on f) (day + (hour * 60 + minute) / 1440) in
      clone_name legacy originalEmailName day hour minute
      = Some (pre +:+ format_DD_Mon_YYYY date +:+ post,
              Some (Fields date (((hour * 60 + minute) mod 1440) / 60)
                      (((hour * 60 + minute) mod 1440) mod 60))).
Proof.
  intros Hmatch Hparse Hday Hslot.
  destruct (match_replace _ _ Hmatch) as (_ & pre & post & Hname & Hreplace).
  destruct (parse_valid _ _ Hparse) as (Hvalid & Hh & Hmi).
  exists pre, post. split; [done|]. cbv zeta.
  unfold clone_name. rewrite Hmatch. cbn [mbind option_bind].
  unfold new_Date. rewrite Hparse. destruct f as [c h mi]. cbn [on hours minutes] in *.
  subst h mi. cbn [getDate mbind option_bind on].
  rewrite setDate_getDate by done.
  unfold setHours. cbn [mbind option_bind on].
  rewrite add_days_add by (done || (apply Z.div_pos; lia)).
  rewrite toLocaleDateString_format.
  2: { apply add_days_valid; [|done]. pose proof (Z.div_pos (hour * 60 + minute) 1440). lia. }
  by rewrite Hreplace.
Qed.

(** The slots of the smart strategy lie within the day up to the index
    107; the slot of index 108 is at hour 24. *)
Lemma smart_slot_within_day customOptions (i : nat) :
  (i < 108)%nat →
  0 <= (slot_at Smart customOptions i).1 * 60 + (slot_at Smart customOptions i).2 < 1440.
Proof.
  intros Hi. rewrite SlotFacts.smart_slot_at.
  destruct (Z.ltb_spec (Z.of_nat i) 12); cbn [fst snd]; [lia|].
  pose proof (Z.div_mod (5 * (Z.of_nat i - 12)) 60 ltac:(lia)).
  pose proof (Z.mod_pos_bound (5 * (Z.of_nat i - 12)) 60 ltac:(lia)). lia.
Qed.

Section Plan.
Variable legacy : string → Date.
Variable s : strategy.
Variable customOptions : custom_options.

(** A pair whose source name holds no date takes its slot, adds one to
    the errors and to the pairs attempted, and builds no name: nothing of
    it is there to be counted as a duplicate. *)
Lemma plan_day_no_date day emailId emailIds emailInfoMap c p originalEmailName :
  emailInfoMap !! emailId = Some originalEmailName →
  String.eqb originalEmailName "" = false →
  match_datePattern originalEmailName = None →
  plan_day legacy s customOptions day (emailId :: emailIds) emailInfoMap c p
  = plan_day legacy s customOptions day emailIds emailInfoMap (next_slot s customOptions c).2
      (Plan (S (p_errors p)) (S (p_totalAttempted p))
            (emailNamesToCheck p) (emailScheduleMap p)).
Proof.
  intros Hinfo Hne Hmatch. cbn [plan_day]. rewrite Hinfo, Hne.
  destruct (next_slot s customOptions c) as [[hour minute] c'].
  unfold clone_name. by rewrite Hmatch.
Qed.

End Plan.

(** In [routes/cloner.js] a source name that holds no date is reported
    as skipped, before any check or request for a clone, and the loop
    counts it among the duplicates. *)
Lemma legacy_no_date_is_skipped legacy api rank emailId day hour minute s cache e st :
  email_get api rank emailId = Return e →
  match_datePattern (e_name e) = None →
  ClonerLegacy.cloneAndScheduleEmail legacy api rank emailId day hour minute s cache
  = (cache, Return (ClonerLegacy.Skipped "No date in original email name"))
  ∧ ClonerLegacy.count_result st (ClonerLegacy.Skipped "No date in original email name")
    = Stats (S (totalAttempted st)) (successfullyCloned st) (S (duplicatesSkipped st))
            (errors st) (clonedEmails st).
Proof.
  intros Hget Hmatch. unfold ClonerLegacy.cloneAndScheduleEmail. rewrite Hget.
  unfold clone_name. by rewrite Hmatch.
Qed.

(** The source "Acme - 05 Mar 2025" with the day offset 1, at the slot of
    index 108 of the smart strategy, which is at hour 24: the name built
    bears the 7th of March, not the 6th. And a text of the shape of a
    date that reads as no date leaves "Invalid Date" in the name. And in
    [routes/cloner.js] a source named "Acme weekly", which holds no
    date, is reported as skipped and counted with the duplicates, not
    with the errors. *)
Lemma name_at_late_slot :
  slot_at Smart (CustomOptions None None None) 108 = (24, 0)
  ∧ clone_name ClonerDoubles.strict "Acme - 05 Mar 2025" 1 24 0
    = Some ("Acme - 07 Mar 2025", Some (Fields (Civil 2025 2 7) 0 0))
  ∧ format_DD_Mon_YYYY (add_days (Civil 2025 2 5) 1) = "06 Mar 2025"
  ∧ clone_name ClonerDoubles.strict "Acme - 99 Foo 2025" 3 11 0
    = Some ("Acme - Invalid Date", None)
  ∧ ClonerLegacy.cloneAndScheduleEmail ClonerDoubles.strict
      (ClonerDoubles.clone_api (fun _ => "Acme weekly") [] [] (fun _ => false))
      0 1 3 11 0 Smart ∅
    = (∅, Return (ClonerLegacy.Skipped "No date in original email name"))
  ∧ ClonerLegacy.count_result (Stats 0 0 0 0 [])
      (ClonerLegacy.Skipped "No date in original email name")
    = Stats 1 0 1 0 [].
Proof. repeat split; vm_compute; reflexivity. Qed.

(** C8, amended. When the first text of the shape [DD MMM YYYY] in the
    name of a source reads as a day of the calendar, the name built for
    the clone is the name of the source with that text replaced by the
    day of the scheduled time, in the same form: the day [day] days after
    the date of the source when the slot lies within the day, as the
    slots of the smart strategy do up to the index 107, and a day later
    for every 24 hours of the slot otherwise. "Acme - 05 Mar 2025" with
    the day offset 3 gives "Acme - 08 Mar 2025". The form is the one the
    text of the source is in, for years of four digits. A pair whose
    source name holds no such text builds no name and nothing is cloned
    for it: in [src/unnamed/part_000] it counts as an error, not as a
    duplicate; in [routes/cloner.js] it is reported as skipped, before
    any check or request, and counted with the duplicates skipped. *)
Theorem name_substitution legacy :
  (∀ (originalEmailName text : string) f (day hour minute : Z),
     match_datePattern originalEmailName = Some text →
     parse_DD_Mon_YYYY text = Some f →
     0 <= day → 0 <= hour * 60 + minute →
     ∃ pre post,
       originalEmailName = pre +:+ text +:+ post
       ∧ (1000 <= year (on f) → format_DD_Mon_YYYY (on f) = text)
       ∧ (∃ time,
            clone_name legacy originalEmailName day hour minute
            = Some (pre
                      +:+ format_DD_Mon_YYYY
                            (add_days (on f) (day + (hour * 60 + minute) / 1440))
                      +:+ post,
                    time))
       ∧ (hour * 60 + minute < 1440 →
          ∃ time,
            clone_name legacy originalEmailName day hour minute
            = Some (pre +:+ format_DD_Mon_YYYY (add_days (on f) day) +:+ post, time)))
  ∧ (∃ time, clone_name legacy "Acme - 05 Mar 2025" 3 11 0 = Some ("Acme - 08 Mar 2025", time))
  ∧ (∀ customOptions (i : nat), (i < 108)%nat →
       0 <= (slot_at Smart customOptions i).1 * 60 + (slot_at Smart customOptions i).2 < 1440)
  ∧ (∀ s customOptions day emailId emailIds emailInfoMap c p originalEmailName,
       emailInfoMap !! emailId = Some originalEmailName →
       String.eqb originalEmailName "" = false →
       match_datePattern originalEmailName = None →
       plan_day legacy s customOptions day (emailId :: emailIds) emailInfoMap c p
       = plan_day legacy s customOptions day emailIds emailInfoMap
           (next_slot s customOptions c).2
           (Plan (S (p_errors p)) (S (p_totalAttempted p))
                 (emailNamesToCheck p) (emailScheduleMap p)))
  ∧ (∀ api rank emailId day hour minute s (cache : gset string) e st,
       email_get api rank emailId = Return e →
       match_datePattern (e_name e) = None →
       ClonerLegacy.cloneAndScheduleEmail legacy api rank emailId day hour minute s cache
       = (cache, Return (ClonerLegacy.Skipped "No date in original email name"))
       ∧ ClonerLegacy.count_result st
           (ClonerLegacy.Skipped "No date in original email name")
         = Stats (S (totalAttempted st)) (successfullyCloned st) (S (duplicatesSkipped st))
                 (errors st) (clonedEmails st)).
Proof.
  split; [|split; [|split; [|split]]].
  - intros originalEmailName text f day hour minute Hmatch Hparse Hday Hslot.
    destruct (clone_name_date legacy _ _ _ day hour minute Hmatch Hparse Hday Hslot)
      as (pre & post & Hname & Hclone).
    exists pre, post. split; [done|]. split; [by apply format_parse|].
    split; [by eexists|].
    intros Hlate. rewrite Hclone. rewrite Z.div_small, Z.add_0_r by lia. by eexists.
  - by eexists.
  - apply smart_slot_within_day.
  - intros s customOptions day emailId emailIds emailInfoMap c p originalEmailName
      Hinfo Hne Hmatch.
    by apply (plan_day_no_date legacy s customOptions day emailId emailIds emailInfoMap c p
                originalEmailName).
  - intros api rank emailId day hour minute s cache e st Hget Hmatch.
    by apply (legacy_no_date_is_skipped legacy api rank emailId day hour minute s cache e st).
Qed.

(** "Bolt - 29 Aug 2025", three days on: the name built bears the first
    of September. *)
Lemma name_substitution_witness :
  ∃ pre post,
    "Bolt - 29 Aug 2025" = pre +:+ "29 Aug 2025" +:+ post
    ∧ (1000 <= 2025 → format_DD_Mon_YYYY (Civil 2025 7 29) = "29 Aug 2025")
    ∧ (∃ time,
         clone_name ClonerDoubles.strict "Bolt - 29 Aug 2025" 3 16 5
         = Some (pre
                   +:+ format_DD_Mon_YYYY
                         (add_days (Civil 2025 7 29) (3 + (16 * 60 + 5) / 1440))
                   +:+ post,
                 time))
    ∧ (16 * 60 + 5 < 1440 →
       ∃ time,
         clone_name ClonerDoubles.strict "Bolt - 29 Aug 2025" 3 16 5
         = Some (pre +:+ format_DD_Mon_YYYY (add_days (Civil 2025 7 29) 3) +:+ post, time)).
Proof.
  destruct (name_substitution ClonerDoubles.strict) as (H & _).
  apply (H "Bolt - 29 Aug 2025" "29 Aug 2025" (Fields (Civil 2025 7 29) 0 0) 3 16 5).
  - reflexivity.
  - reflexivity.
  - lia.
  - lia.
Defined.

End NameFacts.

(** ** The earlier copies of the code *)

Module LegacyFacts.
Import JS Chunks Hubspot.

(** The earlier [getContactsFromList] (lines 839-875 of
    [routes/hubspotRoute.js]) leaves its loop when the requests keep
    failing and returns what it holds, also when that is nothing. *)
Lemma legacy_fetch_loop_failing RETRIEVAL_BATCH_SIZE MAX_RETRIES api listId maxCount :
  (∀ rank count offset, ∃ message, list_page api listId rank count offset = Throw message) →
  ∀ fuel allContacts hasMore offset retryCount rank,
    (Z.to_nat (MAX_RETRIES - retryCount) <= fuel)%nat →
    HubspotLegacy.fetch_loop RETRIEVAL_BATCH_SIZE MAX_RETRIES api fuel listId maxCount
      allContacts hasMore offset retryCount rank
    = Some (Return (unique allContacts)).
Proof.
  intros Hfail. induction fuel as [|fuel IH]; intros allContacts hasMore offset retryCount rank Hfuel.
  - cbn [HubspotLegacy.fetch_loop].
    destruct (Z.ltb_spec retryCount MAX_RETRIES); [lia|].
    by rewrite andb_false_r.
  - cbn [HubspotLegacy.fetch_loop].
    destruct (_ && _ && _); [|done].
    destruct (Hfail (S rank)
                (remaining maxCount (length allContacts) RETRIEVAL_BATCH_SIZE) offset)
      as [message ->].
    apply IH. lia.
Qed.

Lemma legacy_fetch_never_throws RETRIEVAL_BATCH_SIZE MAX_RETRIES api listId maxCount :
  (∀ rank count offset, ∃ message, list_page api listId rank count offset = Throw message) →
  HubspotLegacy.getContactsFromList RETRIEVAL_BATCH_SIZE MAX_RETRIES api
    (Z.to_nat MAX_RETRIES) listId maxCount
  = Some (Return []).
Proof.
  intros Hfail. unfold HubspotLegacy.getContactsFromList.
  rewrite (legacy_fetch_loop_failing _ _ _ _ _ Hfail); [done|].
  rewrite Z.sub_0_r. lia.
Qed.

(** The earlier [addContactsToList] (lines 892-908) throws what the
    request of a chunk throws. *)
Lemma legacy_add_rethrows api listId contacts chunk chunks message :
  progressiveChunks contacts default_sizes = chunk :: chunks →
  list_add api listId 1 chunk = Throw message →
  HubspotLegacy.addContactsToList api listId contacts = Throw message.
Proof.
  intros Hchunks Hadd. unfold HubspotLegacy.addContactsToList.
  rewrite Hchunks. cbn [HubspotLegacy.add_chunks]. by rewrite Hadd.
Qed.

(** The earlier percentage (lines 970-975) of a count of zero is no
    number. *)
Lemma legacy_fulfillment_no_count : HubspotLegacy.fulfillment 0 0 = S754_nan.
Proof. reflexivity. Qed.

(** The loop of [routes/cloner.js], smart strategy: the counter of
    minutes stops at 60 after the twelve slots of the morning, and every
    later pair of the day is put at 16:00. *)
Lemma legacy_smart_morning (i : nat) :
  (i <= 12)%nat →
  ClonerLegacy.counters_before Cloner.Smart i = (5 * Z.of_nat i, Z.of_nat i).
Proof.
  induction i as [|i IH]; intros Hi; [done|].
  cbn [ClonerLegacy.counters_before]. rewrite IH by lia.
  unfold ClonerLegacy.next_slot, Cloner.MAX_MORNING_SLOTS.
  destruct (Z.ltb_spec (Z.of_nat i) 12); [|lia].
  f_equal; lia.
Qed.

Lemma legacy_smart_counters (i : nat) :
  (12 <= i)%nat → ClonerLegacy.counters_before Cloner.Smart i = (60, 12).
Proof.
  induction 1 as [|i Hi IH]; [by rewrite legacy_smart_morning|].
  cbn [ClonerLegacy.counters_before]. by rewrite IH.
Qed.

Lemma legacy_smart_afternoon (i : nat) :
  (12 <= i)%nat → ClonerLegacy.slot_at Cloner.Smart i = (16, 0).
Proof.
  intros Hi. unfold ClonerLegacy.slot_at. by rewrite legacy_smart_counters.
Qed.

End LegacyFacts.

(** * Further properties of the code *)

(** ** Chunks and fetches *)

Module ChunkArrayFacts.
Import JS JSFacts Chunks ChunkFacts Requests.

Lemma slice_chunk {A} (arr : list A) (size : Z) (k : nat) :
  0 < size → size * Z.of_nat k < Z.of_nat (length arr) →
  slice arr (size * Z.of_nat k) (size * Z.of_nat k + size)
  = take (Z.to_nat size) (drop (k * Z.to_nat size) arr)
  ∧ 1 <= Z.of_nat (length (slice arr (size * Z.of_nat k) (size * Z.of_nat k + size))) <= size.
Proof.
  intros Hsize Hk. split.
  - unfold slice.
    destruct (Z.ltb_spec (size * Z.of_nat k) 0); [lia|].
    destruct (Z.ltb_spec (size * Z.of_nat k + size) 0); [lia|].
    rewrite (Z.min_l (size * Z.of_nat k)) by lia.
    replace (Z.to_nat (size * Z.of_nat k)) with (k * Z.to_nat size)%nat by lia.
    destruct (Z.min_spec (size * Z.of_nat k + size) (Z.of_nat (length arr))) as [[? ->]|[? ->]].
    + f_equal. lia.
    + rewrite !take_ge; [done| |]; rewrite length_drop; lia.
  - rewrite length_slice by lia. lia.
Qed.

Lemma chunkArray_loop_gathered {A} (arr : list A) (size : Z) :
  0 < size → ∀ fuel i chunks,
  Z.of_nat (length arr) - i <= Z.of_nat fuel →
  gathered arr size i chunks →
  ∃ i', Z.of_nat (length arr) <= i'
    ∧ gathered arr size i' (chunkArray_loop fuel arr size i chunks).
Proof.
  intros Hsize. induction fuel as [|fuel IH]; intros i chunks Hfuel Hg; simpl.
  - exists i. split; [lia|done].
  - destruct (Z.ltb_spec i (Z.of_nat (length arr))) as [Hlt|Hge]; [|exists i; split; [lia|done]].
    apply IH; [lia|].
    destruct Hg as (Hi & Hlast & Hall). subst i.
    destruct (slice_chunk arr size (length chunks) Hsize Hlt) as [Hchunk Hlen].
    split; [|split].
    + rewrite length_app. simpl. lia.
    + right. lia.
    + intros j chunk Hj. apply lookup_snoc_Some in Hj as [[_ Hj]|[-> <-]]; [by apply Hall|].
      by rewrite Hchunk in *.
Qed.

(** The number of chunks, and each chunk. *)
Lemma chunkArray_count {A} (arr : list A) (size : Z) :
  0 < size →
  Z.of_nat (length (chunkArray arr size)) = (Z.of_nat (length arr) + size - 1) / size
  ∧ ∀ (j : nat) chunk, chunkArray arr size !! j = Some chunk →
      chunk = take (Z.to_nat size) (drop (j * Z.to_nat size) arr)
      ∧ 1 <= Z.of_nat (length chunk) <= size.
Proof.
  intros Hsize.
  destruct (chunkArray_loop_gathered arr size Hsize (length arr) 0 [])
    as (i & Hi & Hk & Hlast & Hall).
  { lia. }
  { split; [simpl; lia|]. split; [by left|]. intros j chunk Hj. by rewrite lookup_nil in Hj. }
  fold (chunkArray arr size) in *. split; [|done].
  apply Z.div_unique with (r := Z.of_nat (length arr) + size - 1
                                - size * Z.of_nat (length (chunkArray arr size))).
  - left. destruct Hlast as [Hnil|Hlast]; [rewrite Hnil in *; simpl in *; lia|lia].
  - lia.
Qed.

(** X1. [chunkArray] with a positive size cuts the array into its
    consecutive slices of that size: put end to end the chunks are the
    array, there are as many as the length holds sizes, rounded up, and
    none is empty or longer than the size. *)
Theorem chunkArray_partition {A} (arr : list A) (size : Z) :
  0 < size →
  concat (chunkArray arr size) = arr
  ∧ Z.of_nat (length (chunkArray arr size)) = (Z.of_nat (length arr) + size - 1) / size
  ∧ ∀ (j : nat) chunk, chunkArray arr size !! j = Some chunk →
      chunk = take (Z.to_nat size) (drop (j * Z.to_nat size) arr)
      ∧ 1 <= Z.of_nat (length chunk) <= size.
Proof.
  intros Hsize. split.
  - apply chunkArray_loop_concat; simpl; (done || lia).
  - by apply chunkArray_count.
Qed.

(** Seven elements in chunks of three. *)
Lemma chunkArray_partition_witness :
  concat (chunkArray (ids 1 7) 3) = ids 1 7
  ∧ Z.of_nat (length (chunkArray (ids 1 7) 3)) = (Z.of_nat (length (ids 1 7)) + 3 - 1) / 3
  ∧ ∀ (j : nat) chunk, chunkArray (ids 1 7) 3 !! j = Some chunk →
      chunk = take (Z.to_nat 3) (drop (j * Z.to_nat 3) (ids 1 7))
      ∧ 1 <= Z.of_nat (length chunk) <= 3.
Proof. apply (chunkArray_partition (ids 1 7) 3). lia. Defined.

End ChunkArrayFacts.

Module FetchResultFacts.
Import JS JSFacts Chunks Hubspot FetchFacts.

Lemma foldl_set_add_distinct `{EqDecision A} (arr : list A) : ∀ acc,
  NoDup acc → NoDup (foldl set_add acc arr).
Proof.
  induction arr as [|x arr IH]; intros acc Hacc; simpl; [done|].
  apply IH. unfold set_add. case_decide as Hin; [done|].
  apply NoDup_app. split; [done|]. split; [|apply NoDup_singleton].
  intros y Hy ->%list_elem_of_singleton. done.
Qed.

(** [[...new Set(arr)]] holds no element twice. *)
Lemma unique_distinct `{EqDecision A} (arr : list A) : NoDup (unique arr).
Proof. apply foldl_set_add_distinct. constructor. Qed.

Section Sound.
Variables RETRIEVAL_BATCH_SIZE MAX_RETRIES : Z.
Variable api : remote.
Variable listId : Z.
Variable maxCount : count_bound.

Lemma truncate_subset (arr : list Z) x : x ∈ truncate arr maxCount → x ∈ arr.
Proof. destruct maxCount; simpl; [apply slice_subset|done]. Qed.

(** What the loop returns is without repetition and made of
    identifiers that it held or that a page of the list brought. *)
Lemma fetch_loop_sound : ∀ fuel allContacts hasMore offset consecutiveErrors totalAttempts result,
  Hubspot.fetch_loop RETRIEVAL_BATCH_SIZE MAX_RETRIES api fuel listId maxCount
    allContacts hasMore offset consecutiveErrors totalAttempts = Some (Return result) →
  NoDup result
  ∧ ∀ vid, vid ∈ result →
      vid ∈ allContacts
      ∨ ∃ rank count off res,
          list_page api listId rank count off = Return res ∧ vid ∈ contacts res.
Proof.
  assert (Hdone : ∀ arr result : list Z, Some (Return (unique arr)) = Some (Return result) →
            NoDup result ∧ ∀ vid, vid ∈ result → vid ∈ arr).
  { intros arr result [= <-]. split; [apply unique_distinct|].
    intros vid. by rewrite elem_of_unique. }
  induction fuel as [|fuel IH];
    intros allContacts hasMore offset ce attempts result; simpl.
  - destruct (hasMore && _); [done|]. intros H.
    destruct (Hdone _ _ H) as [Hnd Hin]. split; [done|]. intros vid Hvid. left. by apply Hin.
  - destruct (hasMore && _).
    2: { intros H. destruct (Hdone _ _ H) as [Hnd Hin]. split; [done|].
         intros vid Hvid. left. by apply Hin. }
    destruct (list_page _ _ _ _ _) as [res|message] eqn:Hpage.
    + assert (Hnew : ∀ vid, vid ∈ allContacts ++ contacts res →
                vid ∈ allContacts
                ∨ ∃ rank count off res,
                    list_page api listId rank count off = Return res ∧ vid ∈ contacts res).
      { intros vid [?|?]%elem_of_app; [by left|right]. by repeat eexists. }
      destruct (negb _).
      * intros H. destruct (Hdone _ _ H) as [Hnd Hin]. split; [done|].
        intros vid Hvid. by apply Hnew, truncate_subset, Hin.
      * intros H. destruct (IH _ _ _ _ _ _ H) as [Hnd Hin]. split; [done|].
        intros vid Hvid. destruct (Hin vid Hvid) as [?|?]; [by apply Hnew|by right].
    + destruct (_ && _).
      { intros H. destruct (Hdone _ _ H) as [Hnd Hin]. split; [done|].
        intros vid Hvid. left. by apply Hin. }
      destruct (_ && _); [done|]. apply IH.
Qed.

End Sound.

(** X2. Whatever the remote answers, the identifiers a fetch returns are
    all different, and each of them was in a page that a request for
    this list brought. *)
Theorem fetch_result_distinct RETRIEVAL_BATCH_SIZE MAX_RETRIES api fuel listId maxCount
    (result : list Z) :
  getContactsFromList RETRIEVAL_BATCH_SIZE MAX_RETRIES api fuel listId maxCount
  = Some (Return result) →
  NoDup result
  ∧ ∀ vid, vid ∈ result →
      ∃ rank count off res,
        list_page api listId rank count off = Return res ∧ vid ∈ contacts res.
Proof.
  intros H. apply fetch_loop_sound in H as [Hnd Hin]. split; [done|].
  intros vid Hvid. destruct (Hin vid Hvid) as [Hnil|?]; [|done].
  by apply elem_of_nil in Hnil.
Qed.

(** A list that serves 1, 2, 2, 3, two at a time: the fetch returns
    1, 2 and 3. *)
Lemma fetch_result_distinct_witness :
  NoDup [1; 2; 3]
  ∧ ∀ vid, vid ∈ [1; 2; 3] →
      ∃ rank count off res,
        list_page (Doubles.source_api [1; 2; 2; 3] (fun _ => false)) 7 rank count off
        = Return res ∧ vid ∈ contacts res.
Proof.
  apply (fetch_result_distinct 2 3 (Doubles.source_api [1; 2; 2; 3] (fun _ => false))
           5 7 Infinity [1; 2; 3]).
  vm_compute. reflexivity.
Defined.

Section Short.
Variables RETRIEVAL_BATCH_SIZE MAX_RETRIES : Z.
Variable api : remote.
Variable listId : Z.
Variable maxCount : count_bound.
Variable members : list Z.

Hypothesis batch_positive : 1 <= RETRIEVAL_BATCH_SIZE.
Hypothesis members_distinct : NoDup members.
Hypothesis short : below (length members) maxCount = true.
Hypothesis served : ∀ rank count off,
  list_page api listId rank count off = Return (serve members count off).

Lemma take_slice (n : nat) (count : Z) :
  0 <= count → (n <= length members)%nat →
  take n members ++ slice members (Z.of_nat n) (Z.of_nat n + count)
  = take (n + Z.to_nat count) members.
Proof.
  intros Hc Hn. unfold slice.
  destruct (Z.ltb_spec (Z.of_nat n) 0); [lia|].
  destruct (Z.ltb_spec (Z.of_nat n + count) 0); [lia|].
  rewrite (Z.min_l (Z.of_nat n)) by lia. rewrite Nat2Z.id, take_take_drop.
  destruct (Z.min_spec (Z.of_nat n + count) (Z.of_nat (length members))) as [[? ->]|[? ->]].
  - f_equal. lia.
  - rewrite !take_ge; [done|lia|lia].
Qed.

Lemma below_le (n : nat) : (n <= length members)%nat → below n maxCount = true.
Proof.
  intros Hn. destruct maxCount as [N|]; [|done]. simpl in *.
  apply Z.ltb_lt. apply Z.ltb_lt in short. lia.
Qed.

Lemma remaining_positive (n : nat) :
  (n <= length members)%nat → 1 <= remaining maxCount n RETRIEVAL_BATCH_SIZE.
Proof.
  intros Hn. destruct maxCount as [N|]; simpl in *; [|done].
  apply Z.ltb_lt in short. unfold Math_min. lia.
Qed.

Lemma fetch_loop_step (fuel n : nat) (consecutiveErrors : Z) (totalAttempts : nat) :
  (n <= length members)%nat →
  let count := remaining maxCount n RETRIEVAL_BATCH_SIZE in
  Hubspot.fetch_loop RETRIEVAL_BATCH_SIZE MAX_RETRIES api (S fuel) listId maxCount
    (take n members) true (Z.of_nat n) consecutiveErrors totalAttempts
  = Hubspot.fetch_loop RETRIEVAL_BATCH_SIZE MAX_RETRIES api fuel listId maxCount
      (take (n + Z.to_nat count) members)
      (Z.of_nat n + count <? Z.of_nat (length members))
      (Z.of_nat n + count) 0 (S totalAttempts).
Proof.
  intros Hn count. pose proof (remaining_positive n Hn) as Hcount. fold count in Hcount.
  cbn [Hubspot.fetch_loop]. rewrite length_take, Nat.min_l by lia.
  rewrite below_le by done. cbn [andb]. rewrite served. fold count.
  unfold serve. cbn [contacts has_more vid_offset].
  rewrite take_slice by lia.
  rewrite length_take. rewrite below_le by lia. cbn [negb]. by rewrite andb_true_r.
Qed.

Lemma fetch_loop_short : ∀ (m n : nat) (consecutiveErrors : Z) (totalAttempts : nat),
  (length members - n <= m)%nat → (n <= length members)%nat →
  Hubspot.fetch_loop RETRIEVAL_BATCH_SIZE MAX_RETRIES api (S (S m)) listId maxCount
    (take n members) true (Z.of_nat n) consecutiveErrors totalAttempts
  = Some (Return members).
Proof.
  assert (Hend : ∀ fuel k offset ce attempts, (length members <= k)%nat →
            Hubspot.fetch_loop RETRIEVAL_BATCH_SIZE MAX_RETRIES api fuel listId maxCount
              (take k members) false offset ce attempts = Some (Return members)).
  { intros fuel k offset ce attempts Hk. rewrite take_ge by lia.
    destruct fuel; cbn [Hubspot.fetch_loop andb]; by rewrite unique_NoDup. }
  induction m as [|m IH]; intros n ce attempts Hm Hn; rewrite fetch_loop_step by done;
    pose proof (remaining_positive n Hn) as Hcount;
    set (count := remaining maxCount n RETRIEVAL_BATCH_SIZE) in *.
  - destruct (Z.ltb_spec (Z.of_nat n + count) (Z.of_nat (length members))); [lia|].
    apply Hend. lia.
  - destruct (Z.ltb_spec (Z.of_nat n + count) (Z.of_nat (length members))) as [Hlt|Hge].
    + replace (Z.of_nat n + count) with (Z.of_nat (n + Z.to_nat count)) by lia.
      apply IH; lia.
    + apply Hend. lia.
Qed.

End Short.

(** X3. A list that holds fewer members than the cap, all different, and
    serves them in order, is fetched whole, its members in their order,
    with or without a cap, by any fetch that is given the iterations. *)
Theorem fetch_short_list RETRIEVAL_BATCH_SIZE MAX_RETRIES api listId maxCount
    (members : list Z) (fuel : nat) :
  1 <= RETRIEVAL_BATCH_SIZE →
  NoDup members →
  below (length members) maxCount = true →
  (∀ rank count off,
     list_page api listId rank count off = Return (serve members count off)) →
  (length members + 2 <= fuel)%nat →
  getContactsFromList RETRIEVAL_BATCH_SIZE MAX_RETRIES api fuel listId maxCount
  = Some (Return members).
Proof.
  intros Hbatch Hnd Hshort Hserved Hfuel. unfold getContactsFromList.
  apply (fetch_loop_fuel _ _ _ _ _ (S (S (length members)))); [lia|].
  by apply (fetch_loop_short _ _ _ _ _ members Hbatch Hnd Hshort Hserved
              (length members) 0 0 0%nat); [lia|lia].
Qed.

(** Five members, served two at a time, and no cap. *)
Lemma fetch_short_list_witness :
  getContactsFromList 2 3 (Doubles.source_api [11; 12; 13; 14; 15] (fun _ => false))
    7 9 Infinity
  = Some (Return [11; 12; 13; 14; 15]).
Proof.
  apply (fetch_short_list 2 3 _ 9 Infinity [11; 12; 13; 14; 15] 7).
  - lia.
  - apply (bool_decide_unpack _). vm_compute. exact I.
  - reflexivity.
  - intros rank count off. reflexivity.
  - simpl. lia.
Defined.

End FetchResultFacts.

(** ** Uploads and updates *)

Module UploadBudgetFacts.
Import JS JSFacts Chunks ChunkFacts Hubspot UploadFacts.

Section Budget.
Variable MAX_RETRIES : Z.
Variable api : remote.
Variable listId : Z.

(** The requests a run of chunks has sent, and what it leaves when the
    limit allows no attempt or when no request fails. *)
Lemma upload_chunks_posts : ∀ chunks u u',
  upload_chunks MAX_RETRIES api listId chunks u = Return u' →
  Z.of_nat (posts u) <= Z.of_nat (posts u')
                     <= Z.of_nat (posts u) + Z.max 0 MAX_RETRIES * Z.of_nat (length chunks)
  ∧ (MAX_RETRIES <= 0 → u' = u)
  ∧ (1 <= MAX_RETRIES →
     (∀ rank chunk, list_add api listId rank chunk = Return ()) →
     posts u' = (posts u + length chunks)%nat
     ∧ failedChunks u' = failedChunks u
     ∧ successCount u' = successCount u + Z.of_nat (length (concat chunks))).
Proof.
  induction chunks as [|chunk chunks IH]; intros u u' H; simpl in H.
  - injection H as <-. simpl. repeat split; (done || lia).
  - destruct (Z.le_gt_cases MAX_RETRIES 0) as [Hle|Hgt].
    + (* no attempt is made *)
      replace (Z.to_nat MAX_RETRIES) with 0%nat in H by lia.
      simpl in H. destruct (Z.ltb_spec 0 MAX_RETRIES); [lia|]. simpl in H.
      destruct (IH _ _ H) as (Hposts & Hsame & _). rewrite (Hsame Hle) in *.
      split; [simpl; lia|]. split; [done|]. lia.
    + destruct (upload_chunk_outcome MAX_RETRIES api listId chunk (Z.to_nat MAX_RETRIES) 0 u)
        as (u1 & Hu1 & Hcase); [lia|lia|].
      rewrite Hu1 in H. simpl in H. destruct (IH _ _ H) as (Hposts & _ & Hall).
      assert (Hstep : (posts u < posts u1 <= posts u + Z.to_nat MAX_RETRIES)%nat).
      { destruct Hcase as [(i & Hi & _ & _ & ->)|(_ & ->)]; simpl; lia. }
      split; [simpl length; nia|]. split; [lia|].
      intros _ Hok. destruct (Hall ltac:(lia) Hok) as (Hp & Hf & Hs).
      destruct Hcase as [(i & Hi & Hrow & _ & ->)|(Hrow & ->)].
      * assert (i = 0%nat) as ->.
        { destruct i as [|i]; [done|]. destruct (Hrow 0%nat) as [message Hm]; [lia|].
          by rewrite Hok in Hm. }
        simpl in *. rewrite Hp, Hf, Hs, length_app. split; [lia|]. split; [done|lia].
      * destruct (Hrow 0%nat) as [message Hm]; [lia|]. by rewrite Hok in Hm.
Qed.

End Budget.

(** X4. The chunked upload sends [MAX_RETRIES] requests a chunk at most,
    the chunks being those of 300 identifiers: one request a chunk when
    none fails, all the identifiers then added. A limit of zero or less
    allows no attempt: the upload then sends nothing, adds nothing, and
    records no chunk as failed. *)
Theorem upload_request_budget MAX_RETRIES api listId (contacts : list Z) u :
  addContactsToList MAX_RETRIES api listId contacts = Return u →
  let chunks := (Z.of_nat (length contacts) + 299) / 300 in
  Z.of_nat (posts u) <= Z.max 0 MAX_RETRIES * chunks
  ∧ (MAX_RETRIES <= 0 → u = Upload 0 [] 0)
  ∧ (1 <= MAX_RETRIES →
     (∀ rank chunk, list_add api listId rank chunk = Return ()) →
     Z.of_nat (posts u) = chunks
     ∧ failedChunks u = []
     ∧ successCount u = Z.of_nat (length contacts)).
Proof.
  intros H chunks. unfold addContactsToList in H.
  destruct (Nat.eqb_spec (length contacts) 0) as [Hnil|Hne].
  - injection H as <-. subst chunks. rewrite Hnil.
    change ((Z.of_nat 0 + 299) / 300) with 0. simpl. repeat split; (done || lia).
  - apply upload_chunks_posts in H as (Hposts & Hsame & Hall).
    assert (Hlen : Z.of_nat (length (progressiveChunks contacts default_sizes)) = chunks).
    { unfold default_sizes. rewrite progressiveChunks_first_tier by lia.
      destruct (ChunkArrayFacts.chunkArray_count contacts 300) as [-> _]; [lia|].
      subst chunks. f_equal. lia. }
    rewrite Hlen in *. simpl in *. split; [lia|]. split; [done|].
    intros Hmax Hok. destruct (Hall Hmax Hok) as (Hp & Hf & Hs).
    rewrite concat_progressiveChunks in Hs. split; [lia|]. split; [done|lia].
Qed.

(** 700 identifiers, a remote that refuses nothing: three requests. *)
Lemma upload_request_budget_witness :
  ∃ u, addContactsToList 3 (Doubles.upload_api (fun _ => []) (fun _ => false)) 9 (ids 1 700)
       = Return u
    ∧ Z.of_nat (posts u) <= Z.max 0 3 * ((Z.of_nat (length (ids 1 700)) + 299) / 300)
    ∧ (3 <= 0 → u = Upload 0 [] 0)
    ∧ (1 <= 3 →
       (∀ rank chunk,
          list_add (Doubles.upload_api (fun _ => []) (fun _ => false)) 9 rank chunk
          = Return ()) →
       Z.of_nat (posts u) = (Z.of_nat (length (ids 1 700)) + 299) / 300
       ∧ failedChunks u = []
       ∧ successCount u = Z.of_nat (length (ids 1 700))).
Proof.
  destruct (addContactsToList 3 (Doubles.upload_api (fun _ => []) (fun _ => false)) 9
              (ids 1 700)) as [u|] eqn:Hu; [|vm_compute in Hu; discriminate].
  exists u. split; [reflexivity|].
  exact (upload_request_budget 3 _ 9 (ids 1 700) u Hu).
Defined.

End UploadBudgetFacts.

Module UpdateFacts.
Import JS JSFacts Chunks ChunkFacts Hubspot Requests.

Lemma update_chunks_spec api : ∀ chunks rank failed,
  update_chunks api chunks rank failed
  = Return (failed ++ failing_updates api rank chunks).
Proof.
  induction chunks as [|chunk chunks IH]; intros rank failed; simpl.
  - by rewrite app_nil_r.
  - unfold update_fails.
    destruct (batch_update api (S rank) chunk) as [[]|message]; simpl; rewrite IH.
    + done.
    + by rewrite <- app_assoc.
Qed.

Lemma failing_updates_sublist api : ∀ chunks rank,
  failing_updates api rank chunks `sublist_of` chunks.
Proof.
  induction chunks as [|chunk chunks IH]; intros rank; simpl; [done|].
  destruct (update_fails api (S rank) chunk); simpl.
  - by apply sublist_skip.
  - by apply sublist_cons.
Qed.

Lemma failing_updates_elem api : ∀ chunks rank (j : nat) chunk,
  chunks !! j = Some chunk →
  update_fails api (S (rank + j)) chunk = true →
  chunk ∈ failing_updates api rank chunks.
Proof.
  induction chunks as [|c chunks IH]; intros rank j chunk Hj Hfail; [done|].
  simpl. destruct j as [|j]; simpl in Hj.
  - injection Hj as ->. rewrite Nat.add_0_r in Hfail. rewrite Hfail. by left.
  - apply elem_of_app. right. apply (IH (S rank) j); [done|].
    by replace (S (S rank + j)) with (S (rank + S j)) by lia.
Qed.

(** X5. The update of the contact properties raises nothing, whatever
    the remote answers: the contacts go in batches of a hundred at most,
    each contact in one batch, one request a batch; a batch whose
    request fails is logged and the batches after it are still sent. *)
Theorem updateContactProperties_batches api (contactIds : list Z) :
  updateContactProperties api contactIds
  = Return (failing_updates api 0 (chunkArray contactIds 100))
  ∧ failing_updates api 0 (chunkArray contactIds 100) `sublist_of` chunkArray contactIds 100
  ∧ concat (chunkArray contactIds 100) = contactIds
  ∧ Z.of_nat (length (chunkArray contactIds 100)) = (Z.of_nat (length contactIds) + 99) / 100
  ∧ Forall (fun chunk => 1 <= Z.of_nat (length chunk) <= 100) (chunkArray contactIds 100)
  ∧ (∀ (j : nat) chunk, chunkArray contactIds 100 !! j = Some chunk →
       update_fails api (S j) chunk = true →
       chunk ∈ failing_updates api 0 (chunkArray contactIds 100)).
Proof.
  split; [apply (update_chunks_spec api (chunkArray contactIds 100) 0 [])|].
  split; [apply failing_updates_sublist|].
  split; [apply chunkArray_loop_concat; simpl; (done || lia)|].
  destruct (ChunkArrayFacts.chunkArray_count contactIds 100) as [Hlen Hall]; [lia|].
  split; [rewrite Hlen; f_equal; lia|]. split.
  - apply Forall_lookup. intros j chunk Hj. by destruct (Hall j chunk Hj).
  - intros j chunk Hj Hfail. by apply (failing_updates_elem api _ 0 j).
Qed.

End UpdateFacts.

(** ** Campaigns and runs *)

Module CampaignFacts.
Import JS JSFacts Chunks ChunkFacts Hubspot FetchFacts UploadFacts.

Lemma length_slice_0 {A} (arr : list A) (e : Z) :
  Z.of_nat (length (slice arr 0 e))
  = if 0 <=? e then Z.min e (Z.of_nat (length arr))
    else Z.max 0 (Z.of_nat (length arr) + e).
Proof.
  destruct (Z.leb_spec 0 e).
  - rewrite length_slice by lia. lia.
  - unfold slice. change (0 <? 0) with false. cbv iota.
    destruct (Z.ltb_spec e 0); [|lia]. rewrite length_take, length_drop. lia.
Qed.

Section Campaign.
Variables RETRIEVAL_BATCH_SIZE MAX_RETRIES : Z.
Variable api : remote.

Local Abbreviation getContactsFromList :=
  (Hubspot.getContactsFromList RETRIEVAL_BATCH_SIZE MAX_RETRIES api).
Local Abbreviation fetch_contacts :=
  (Hubspot.fetch_contacts RETRIEVAL_BATCH_SIZE MAX_RETRIES api).
Local Abbreviation processSingleCampaign :=
  (Hubspot.processSingleCampaign RETRIEVAL_BATCH_SIZE MAX_RETRIES api).

Lemma length_unused used vids : (length (unused used vids) <= length vids)%nat.
Proof. apply length_filter. Qed.

(** The counts the [try] block leaves are those of its lists, and the
    filter takes contacts away only. *)
Lemma fetch_contacts_counts fuel config used f :
  fetch_contacts fuel config used = Some f →
  primaryAfterFilter f = length (primaryContacts f)
  ∧ secondaryAfterFilter f = length (secondaryContacts f)
  ∧ (primaryAfterFilter f <= primaryBeforeFilter f)%nat
  ∧ (secondaryAfterFilter f <= secondaryBeforeFilter f)%nat.
Proof.
  unfold Hubspot.fetch_contacts. intros H.
  destruct (getContactsFromList _ _ _) as [[primary|]|]; simpl in H; [| |done].
  - pose proof (length_unused used primary).
    destruct (secondaryListId config) as [secondary|].
    + destruct (_ && _).
      * destruct (getContactsFromList _ _ _) as [[sec|]|]; simpl in H; [| |done];
          injection H as <-; simpl; repeat split; try done; try lia.
        apply length_unused.
      * injection H as <-. simpl. repeat split; (done || lia).
    + injection H as <-. simpl. repeat split; (done || lia).
  - injection H as <-. simpl. repeat split; (done || lia).
Qed.

(** The uploads and the update of the properties raise nothing. *)
Lemma uploads_return (send : option Z) (newListId : Z) (selected : list Z) :
  try_catch
    (_ ← match send with
         | Some send =>
             if negb (send =? 0)
             then _ ← addContactsToList MAX_RETRIES api send selected; mret ()
             else mret ()
         | None => mret ()
         end;
     _ ← addContactsToList MAX_RETRIES api newListId selected;
     _ ← updateContactProperties api selected;
     mret ())
    (fun _ => mret ())
  = Return ().
Proof. by destruct (mbind _ _) as [[]|]. Qed.

(** What a campaign returns, once its list is created. *)
Lemma outcome_after_create fuel config daysFilter modeFilter used c newList :
  processSingleCampaign fuel config daysFilter modeFilter used = Some c →
  let listName :=
    brand config +:+ " - " +:+ campaign config +:+ " - " +:+ domain config
      +:+ " - " +:+ getFormattedDate (date config) in
  list_create api listName = Return newList →
  ∃ f, fetch_contacts fuel config used = Some f
    ∧ let availableCount := (primaryBeforeFilter f + secondaryBeforeFilter f)%nat in
      let filteredCount :=
        ((primaryBeforeFilter f - primaryAfterFilter f)
         + (secondaryBeforeFilter f - secondaryAfterFilter f))%nat in
      let percentage := fulfillment (count config) (length (selectedContacts c)) in
      outcome c
      = (createdList ← CreatedList_create api
           (CreatedList listName newList.1 newList.2 (daysFilter, modeFilter)
              (brand config, campaign config, date config)
              (length (selectedContacts c)) (count config) availableCount filteredCount
              percentage);
         mret (CampaignResult listName newList.1 (length (selectedContacts c))
                 (count config) availableCount filteredCount percentage createdList)).
Proof.
  intros H listName Hcreate. unfold Hubspot.processSingleCampaign in H.
  destruct (fetch_contacts fuel config used) as [f|]; simpl in H; [|done].
  exists f. split; [done|]. injection H as <-. cbn [outcome selectedContacts].
  unfold createHubSpotList. fold listName. rewrite Hcreate. cbn [try_catch mbind completion_bind].
  destruct (negb _); [|done].
  by rewrite uploads_return.
Qed.

End Campaign.

(** X6. The counts a campaign reports hang together: the contacts
    filtered out are among those fetched, and the contacts selected are
    the unused ones up to the count requested. For a negative count the
    slice leaves off that many from the end instead: a count of -5 on
    500 unused contacts selects 495. *)
Theorem campaign_counts RETRIEVAL_BATCH_SIZE MAX_RETRIES api fuel config
    daysFilter modeFilter used c res :
  processSingleCampaign RETRIEVAL_BATCH_SIZE MAX_RETRIES api fuel config
    daysFilter modeFilter used = Some c →
  outcome c = Return res →
  (r_filteredCount res <= r_availableCount res)%nat
  ∧ r_requestedCount res = count config
  ∧ r_contactCount res = length (selectedContacts c)
  ∧ Z.of_nat (r_contactCount res)
    = if 0 <=? count config
      then Z.min (count config)
                 (Z.of_nat (r_availableCount res) - Z.of_nat (r_filteredCount res))
      else Z.max 0 (Z.of_nat (r_availableCount res) - Z.of_nat (r_filteredCount res)
                    + count config).
Proof.
  intros H Hres.
  destruct (list_create api
              (brand config +:+ " - " +:+ campaign config +:+ " - " +:+ domain config
                 +:+ " - " +:+ getFormattedDate (date config))) as [newList|message] eqn:Hcreate.
  2: { unfold processSingleCampaign in H.
       destruct (fetch_contacts _ _ _ _ _ _) as [f|]; simpl in H; [|done].
       injection H as <-. simpl in Hres. unfold createHubSpotList in Hres.
       by rewrite Hcreate in Hres. }
  destruct (outcome_after_create _ _ _ _ _ _ _ _ _ _ H Hcreate) as (f & Hf & Hout).
  cbv zeta in Hout. rewrite Hout in Hres.
  destruct (CreatedList_create api _) as [createdList|]; simpl in Hres; [|done].
  injection Hres as <-. simpl.
  destruct (fetch_contacts_counts _ _ _ _ _ _ _ Hf) as (Hpa & Hsa & Hp & Hs).
  assert (Hsel : selectedContacts c
                 = slice (primaryContacts f ++ secondaryContacts f) 0 (count config)).
  { unfold processSingleCampaign in H. rewrite Hf in H. simpl in H. by injection H as <-. }
  split; [lia|]. split; [done|]. split; [done|].
  rewrite Hsel, length_slice_0, length_app.
  destruct (Z.leb_spec 0 (count config)); lia.
Qed.

(** A campaign for 3 contacts on a list of five, two of them used. *)
Lemma campaign_counts_witness :
  let api := Doubles.upload_api (fun _ => ids 1 5) (fun _ => false) in
  ∃ c res,
    processSingleCampaign 1000 3 api 5 (Doubles.campaign_for 1 None 3) "today" "BAU"
      (list_to_set [1; 2]) = Some c
    ∧ outcome c = Return res
    ∧ (r_filteredCount res <= r_availableCount res)%nat
    ∧ r_requestedCount res = 3
    ∧ r_contactCount res = length (selectedContacts c)
    ∧ Z.of_nat (r_contactCount res)
      = Z.min 3 (Z.of_nat (r_availableCount res) - Z.of_nat (r_filteredCount res)).
Proof.
  intros api.
  destruct (processSingleCampaign 1000 3 api 5 (Doubles.campaign_for 1 None 3) "today" "BAU"
              (list_to_set [1; 2])) as [c|] eqn:Hc; [|vm_compute in Hc; discriminate].
  destruct (outcome c) as [res|] eqn:Hres.
  2: { vm_compute in Hc. injection Hc as <-. vm_compute in Hres. discriminate. }
  exists c, res. split; [reflexivity|]. split; [exact Hres|].
  exact (campaign_counts 1000 3 api 5 _ "today" "BAU" _ c res Hc Hres).
Defined.

(** X7. Only the creation of the list and the writing of the audit
    record can make a campaign fail: when the list cannot be created the
    campaign fails with that error, and once it is created the campaign
    returns whatever the uploads and the update of the properties met,
    unless the record cannot be written. *)
Theorem uploads_never_reject RETRIEVAL_BATCH_SIZE MAX_RETRIES api fuel config
    daysFilter modeFilter used c :
  processSingleCampaign RETRIEVAL_BATCH_SIZE MAX_RETRIES api fuel config
    daysFilter modeFilter used = Some c →
  (∀ message,
     list_create api
       (brand config +:+ " - " +:+ campaign config +:+ " - " +:+ domain config
          +:+ " - " +:+ getFormattedDate (date config)) = Throw message →
     outcome c = Throw message)
  ∧ (∀ newList,
       list_create api
         (brand config +:+ " - " +:+ campaign config +:+ " - " +:+ domain config
            +:+ " - " +:+ getFormattedDate (date config)) = Return newList →
       ∃ record,
         listId record = newList.1
         ∧ contactCount record = length (selectedContacts c)
         ∧ (∀ message, CreatedList_create api record = Throw message →
              outcome c = Throw message)
         ∧ (∀ createdList, CreatedList_create api record = Return createdList →
              ∃ res, outcome c = Return res
                ∧ r_listId res = newList.1
                ∧ r_contactCount res = length (selectedContacts c)
                ∧ r_createdList res = createdList)).
Proof.
  intros H. split.
  - intros message Hcreate. unfold processSingleCampaign in H.
    destruct (fetch_contacts _ _ _ _ _ _) as [f|]; simpl in H; [|done].
    injection H as <-. simpl. unfold createHubSpotList. by rewrite Hcreate.
  - intros newList Hcreate.
    destruct (outcome_after_create _ _ _ _ _ _ _ _ _ _ H Hcreate) as (f & Hf & Hout).
    cbv zeta in Hout. eexists. split; [|split; [|split]]; [| |intros message Hm|intros d Hd];
      [| |rewrite Hout, Hm; reflexivity|rewrite Hout, Hd; by eexists]; done.
Qed.

(** The remote refuses every chunk: the campaign returns all the same. *)
Lemma uploads_never_reject_witness :
  let api := Doubles.upload_api (fun _ => ids 1 5) (fun _ => true) in
  ∃ c res,
    processSingleCampaign 1000 3 api 5 (Doubles.campaign_for 1 None 3) "today" "BAU" ∅
    = Some c
    ∧ outcome c = Return res ∧ r_listId res = 1 ∧ r_contactCount res = 3%nat.
Proof.
  intros api.
  destruct (processSingleCampaign 1000 3 api 5 (Doubles.campaign_for 1 None 3) "today" "BAU" ∅)
    as [c|] eqn:Hc; [|vm_compute in Hc; discriminate].
  destruct (uploads_never_reject 1000 3 api 5 _ "today" "BAU" ∅ c Hc) as [_ H].
  destruct (H (1, false) eq_refl) as (record & _ & Hcount & _ & Hok).
  destruct (Hok record eq_refl) as (res & Hres & Hid & Hn & _).
  exists c, res. split; [reflexivity|]. split; [exact Hres|]. split; [exact Hid|].
  rewrite Hn. vm_compute in Hc. injection Hc as <-. reflexivity.
Defined.

(** X8. When every request for the primary list fails, the error of
    the fetch stays inside the campaign: it goes on with no contact,
    selects nothing and leaves the set of used contacts as it was. It
    still creates its list: when the remote creates the list and the
    audit record is written, the campaign returns the list created, with
    no contact selected, fetched or filtered; it fails only with the
    error of the creation of the list or of the writing of the record. *)
Theorem failed_fetch_empty_list RETRIEVAL_BATCH_SIZE MAX_RETRIES api fuel config
    daysFilter modeFilter (used : gset Z) (message : nat → string) :
  1 <= MAX_RETRIES →
  (Z.to_nat MAX_RETRIES <= fuel)%nat →
  (∀ rank count off,
     list_page api (primaryListId config) rank count off = Throw (message rank)) →
  ∃ c, processSingleCampaign RETRIEVAL_BATCH_SIZE MAX_RETRIES api fuel config
         daysFilter modeFilter used = Some c
    ∧ selectedContacts c = []
    ∧ used_after c = used
    ∧ let listName :=
        brand config +:+ " - " +:+ campaign config +:+ " - " +:+ domain config
          +:+ " - " +:+ getFormattedDate (date config) in
      (∀ error, list_create api listName = Throw error → outcome c = Throw error)
      ∧ (∀ newList, list_create api listName = Return newList →
           let record :=
             CreatedList listName newList.1 newList.2 (daysFilter, modeFilter)
               (brand config, campaign config, date config) 0 (count config) 0 0
               (fulfillment (count config) 0) in
           (∀ error, CreatedList_create api record = Throw error → outcome c = Throw error)
           ∧ (∀ createdList, CreatedList_create api record = Return createdList →
                outcome c
                = Return (CampaignResult listName newList.1 0 (count config) 0 0
                            (fulfillment (count config) 0) createdList))).
Proof.
  intros Hmax Hfuel Hfail.
  assert (Hfetch : fetch_contacts RETRIEVAL_BATCH_SIZE MAX_RETRIES api fuel config used
                   = Some (Fetched [] [] 0 0 0 0)).
  { assert (Hbelow : below (length (@nil Z)) (Finite (Math_max (count config * 3) 500)) = true).
    { simpl. unfold Math_max. apply Z.ltb_lt. lia. }
    unfold fetch_contacts, getContactsFromList.
    rewrite (fetch_loop_errors RETRIEVAL_BATCH_SIZE MAX_RETRIES api (primaryListId config)
               _ message [] 0 Hbelow (Z.to_nat MAX_RETRIES) 0 0%nat fuel); [done| |lia|done].
    intros k count off _. apply Hfail. }
  eexists. split; [unfold processSingleCampaign; rewrite Hfetch; reflexivity|].
  cbn [selectedContacts used_after outcome primaryContacts secondaryContacts app
       primaryBeforeFilter secondaryBeforeFilter primaryAfterFilter secondaryAfterFilter].
  assert (Hnil : slice (@nil Z) 0 (count config) = []).
  { unfold slice. by rewrite drop_nil, take_nil. }
  rewrite Hnil. split; [done|]. split; [set_solver|].
  unfold createHubSpotList. split.
  - intros error ->. done.
  - intros newList ->. cbn [try_catch mbind completion_bind length Nat.eqb negb mret completion_ret].
    change (0 + 0)%nat with 0%nat. change (0 - 0 + (0 - 0))%nat with 0%nat. split.
    + intros error ->. done.
    + intros createdList ->. done.
Qed.

(** Every request for the pages of a list times out: the list is
    created, with the id 1, and holds no contact. *)
Lemma failed_fetch_empty_list_witness :
  ∃ c res, processSingleCampaign 1000 3 (Doubles.source_api [1; 2; 3] (fun _ => true)) 3
         (Doubles.campaign_for 1 None 2) "today" "BAU" (list_to_set [9])
       = Some c
    ∧ selectedContacts c = []
    ∧ used_after c = list_to_set [9]
    ∧ outcome c = Return res
    ∧ r_listName res = "Acme - Spring - example.com - 5 Mar 2025"
    ∧ r_listId res = 1 ∧ r_contactCount res = 0%nat ∧ r_availableCount res = 0%nat.
Proof.
  destruct (failed_fetch_empty_list 1000 3 (Doubles.source_api [1; 2; 3] (fun _ => true)) 3
           (Doubles.campaign_for 1 None 2) "today" "BAU" (list_to_set [9])
           (fun _ => "timeout")) as (c & Hc & Hsel & Hused & _ & Hcreated).
  - lia.
  - simpl. lia.
  - intros rank count off. reflexivity.
  - destruct (Hcreated (1, false) eq_refl) as [_ Hres].
    eexists c, _. split; [exact Hc|]. split; [exact Hsel|]. split; [exact Hused|].
    split; [apply Hres; reflexivity|]. vm_compute. repeat split.
Defined.

(** X9. When the primary list brings as many unused contacts as are
    requested, the secondary list is left alone: the contacts selected
    are the first unused ones of the primary list, in the order of the
    fetch, and the contacts reported as fetched are those of the primary
    list. *)
Theorem primary_suffices RETRIEVAL_BATCH_SIZE MAX_RETRIES api fuel config
    daysFilter modeFilter (used : gset Z) (primary : list Z) :
  getContactsFromList RETRIEVAL_BATCH_SIZE MAX_RETRIES api fuel (primaryListId config)
    (Finite (Math_max (count config * 3) 500)) = Some (Return primary) →
  0 <= count config <= Z.of_nat (length (unused used primary)) →
  ∃ c, processSingleCampaign RETRIEVAL_BATCH_SIZE MAX_RETRIES api fuel config
         daysFilter modeFilter used = Some c
    ∧ selectedContacts c = take (Z.to_nat (count config)) (unused used primary)
    ∧ Z.of_nat (length (selectedContacts c)) = count config
    ∧ ∀ res, outcome c = Return res → r_availableCount res = length primary.
Proof.
  intros Hprimary Hcount.
  assert (Hfetch : fetch_contacts RETRIEVAL_BATCH_SIZE MAX_RETRIES api fuel config used
                   = Some (Fetched (unused used primary) [] (length primary)
                             (length (unused used primary)) 0 0)).
  { unfold fetch_contacts. rewrite Hprimary. simpl.
    destruct (secondaryListId config) as [secondary|]; [|done].
    destruct (Z.ltb_spec (Z.of_nat (length (unused used primary))) (count config)); [lia|].
    done. }
  eexists. split; [unfold processSingleCampaign; rewrite Hfetch; reflexivity|].
  cbn [selectedContacts outcome primaryContacts secondaryContacts
       primaryBeforeFilter secondaryBeforeFilter].
  rewrite app_nil_r, slice_0 by lia. split; [done|]. split; [rewrite length_take; lia|].
  intros res Hres.
  destruct (createHubSpotList api _) as [newList|]; simpl in Hres; [|done].
  destruct (if negb _ then _ else _) as [[]|]; simpl in Hres; [|done].
  destruct (CreatedList_create api _) as [createdList|]; simpl in Hres; [|done].
  injection Hres as <-. simpl. lia.
Qed.

(** Two contacts wanted, a primary list of five, and a secondary list. *)
Lemma primary_suffices_witness :
  let api := Doubles.upload_api (fun listId => if listId =? 1 then ids 1 5 else ids 101 5)
               (fun _ => false) in
  ∃ c, processSingleCampaign 1000 3 api 5 (Doubles.campaign_for 1 (Some 2) 2) "today" "BAU"
         (list_to_set [1])
       = Some c
    ∧ selectedContacts c = take (Z.to_nat 2) (unused (list_to_set [1]) (ids 1 5))
    ∧ Z.of_nat (length (selectedContacts c)) = 2
    ∧ ∀ res, outcome c = Return res → r_availableCount res = length (ids 1 5).
Proof.
  intros api.
  apply (primary_suffices 1000 3 api 5 (Doubles.campaign_for 1 (Some 2) 2) "today" "BAU"
           (list_to_set [1]) (ids 1 5)).
  - vm_compute. reflexivity.
  - vm_compute. split; discriminate.
Defined.

Section Runner.
Variables RETRIEVAL_BATCH_SIZE MAX_RETRIES : Z.
Variable apis : nat → remote.
Variable fuel : nat.
Variables daysFilter modeFilter : string.

Lemma campaigns_loop_results : ∀ listConfigs index r r',
  campaigns_loop RETRIEVAL_BATCH_SIZE MAX_RETRIES apis fuel index listConfigs
    daysFilter modeFilter r = Some r' →
  usedContacts r = list_to_set (concat (selections r)) →
  ∃ outcomes selected,
    results r' = results r ++ outcomes
    ∧ selections r' = selections r ++ selected
    ∧ length outcomes = length listConfigs
    ∧ length selected = length listConfigs
    ∧ usedContacts r' = list_to_set (concat (selections r'))
    ∧ ∀ (i : nat) config, listConfigs !! i = Some config →
        ∃ c, processSingleCampaign RETRIEVAL_BATCH_SIZE MAX_RETRIES (apis (index + i)) fuel
               config daysFilter modeFilter
               (list_to_set (concat (selections r ++ take i selected))) = Some c
          ∧ outcomes !! i = Some (outcome c)
          ∧ selected !! i = Some (selectedContacts c).
Proof.
  induction listConfigs as [|config listConfigs IH]; intros index r r' H Hused; simpl in H.
  - injection H as <-. exists [], []. rewrite !app_nil_r. repeat split; try done.
  - destruct (processSingleCampaign _ _ _ _ _ _ _ _) as [c|] eqn:Hc; simpl in H; [|done].
    pose proof (AllocationFacts.processSingleCampaign_selection _ _ _ _ _ _ _ _ _ Hc)
      as [_ Hafter].
    destruct (IH _ _ _ H) as (outcomes & selected & Hr & Hs & Hlo & Hls & Hu & Hall).
    { simpl. rewrite Hafter, Hused, concat_app. simpl. rewrite app_nil_r.
      by rewrite list_to_set_app_L. }
    simpl in Hr, Hs, Hall.
    exists (outcome c :: outcomes), (selectedContacts c :: selected).
    rewrite Hr, Hs, <- !app_assoc. simpl. rewrite Hlo, Hls.
    repeat split; try done.
    { rewrite Hu, Hs. by rewrite <- app_assoc. }
    intros [|i] cfg Hi; simpl in Hi.
    + injection Hi as <-. exists c. rewrite Nat.add_0_r, app_nil_r, <- Hused. done.
    + destruct (Hall i cfg Hi) as (c' & Hc' & Ho & Hsel).
      exists c'. rewrite <- app_assoc in Hc'. simpl in Hc'.
      by replace (index + S i)%nat with (S index + i)%nat by lia.
Qed.

End Runner.

(** X10. A run settles every campaign, in order, one after the other:
    each campaign is processed against the contacts the campaigns before
    it selected, whether they then failed or not, and the set of used
    contacts ends as the contacts selected, no more and no less. *)
Theorem run_settles_every_campaign RETRIEVAL_BATCH_SIZE MAX_RETRIES apis fuel listConfigs
    daysFilter modeFilter r :
  processCampaignsWithDelay RETRIEVAL_BATCH_SIZE MAX_RETRIES apis fuel listConfigs
    daysFilter modeFilter = Some r →
  length (results r) = length listConfigs
  ∧ length (selections r) = length listConfigs
  ∧ usedContacts r = list_to_set (concat (selections r))
  ∧ ∀ (i : nat) config, listConfigs !! i = Some config →
      ∃ c, processSingleCampaign RETRIEVAL_BATCH_SIZE MAX_RETRIES (apis i) fuel config
             daysFilter modeFilter (list_to_set (concat (take i (selections r)))) = Some c
        ∧ results r !! i = Some (outcome c)
        ∧ selections r !! i = Some (selectedContacts c).
Proof.
  intros H. apply campaigns_loop_results in H; [|done].
  destruct H as (outcomes & selected & Hr & Hs & Hlo & Hls & Hu & Hall).
  simpl in Hr, Hs, Hall. rewrite Hr, Hs. split; [done|]. split; [done|].
  split; [by rewrite <- Hs|]. intros i config Hi.
  destruct (Hall i config Hi) as (c & Hc & Ho & Hsel). by exists c.
Qed.

(** Two campaigns on one list; the list of the first cannot be created. *)
Lemma run_settles_every_campaign_witness :
  let apis (i : nat) :=
    Remote (fun _ _ count off => Return (serve (ids 1 5) count off)) (fun _ _ _ => Return ())
           (fun _ => if Nat.eqb i 0 then Throw "Bad Gateway" else Return (1, false))
           (fun _ _ => Return ()) (fun d => Return d) in
  ∃ r, processCampaignsWithDelay 1000 3 apis 5
         [Doubles.campaign_for 1 None 2; Doubles.campaign_for 1 None 2] "today" "BAU"
       = Some r
    ∧ results r !! 0%nat = Some (Throw "Bad Gateway")
    ∧ selections r = [[1; 2]; [3; 4]]
    ∧ length (results r) = 2%nat
    ∧ usedContacts r = list_to_set (concat (selections r)).
Proof.
  intros apis.
  destruct (processCampaignsWithDelay 1000 3 apis 5
              [Doubles.campaign_for 1 None 2; Doubles.campaign_for 1 None 2] "today" "BAU")
    as [r|] eqn:Hr; [|vm_compute in Hr; discriminate].
  exists r. split; [reflexivity|].
  destruct (run_settles_every_campaign 1000 3 apis 5 _ "today" "BAU" r Hr)
    as (Hlen & _ & Hused & _).
  vm_compute in Hr. injection Hr as <-.
  split; [reflexivity|]. split; [reflexivity|]. split; [exact Hlen|exact Hused].
Defined.

End CampaignFacts.

(** ** The slots of the other strategies *)

Module StrategyFacts.
Import JS JSFacts JSDate Cloner SlotFacts.

Section Counters.
Variable customOptions : custom_options.

Lemma morning_counters_after (i : nat) :
  counters_after Morning customOptions i = Counters (5 * Z.of_nat i) 0 0 0.
Proof.
  induction i as [|i IH]; [done|].
  unfold counters_after in *. rewrite Nat.iter_succ, IH. simpl. f_equal. lia.
Qed.

Lemma afternoon_counters_after (i : nat) :
  counters_after Afternoon customOptions i = Counters 0 (5 * Z.of_nat i) 0 0.
Proof.
  induction i as [|i IH]; [done|].
  unfold counters_after in *. rewrite Nat.iter_succ, IH. simpl. f_equal. lia.
Qed.

Lemma custom_counters_after (i : nat) :
  counters_after Custom customOptions i = Counters 0 0 (Z.of_nat i) 0.
Proof.
  induction i as [|i IH]; [done|].
  unfold counters_after in *. rewrite Nat.iter_succ, IH. simpl. f_equal. lia.
Qed.

End Counters.

Lemma roll_hour hour minute : hour <= (roll hour minute).1.
Proof.
  unfold roll. destruct (Z.leb_spec 60 minute); simpl; [|lia].
  pose proof (Z.div_pos minute 60). lia.
Qed.

(** X11. The morning and the afternoon strategies put the source of
    index [i] of a day [5 × i] minutes after 11:00, or after 16:00, the
    minutes kept below 60 and the hours counted on: the thirteenth
    source of a morning is at 12:00, and nothing sends a source to
    another tier or to the next day. *)
Theorem fixed_tier_slots customOptions (i : nat) :
  slot_at Morning customOptions i = (11 + 5 * Z.of_nat i / 60, (5 * Z.of_nat i) mod 60)
  ∧ slot_at Afternoon customOptions i = (16 + 5 * Z.of_nat i / 60, (5 * Z.of_nat i) mod 60)
  ∧ (slot_at Morning customOptions i).1 * 60 + (slot_at Morning customOptions i).2
    = 11 * 60 + 5 * Z.of_nat i
  ∧ (slot_at Afternoon customOptions i).1 * 60 + (slot_at Afternoon customOptions i).2
    = 16 * 60 + 5 * Z.of_nat i.
Proof.
  assert (Hm : slot_at Morning customOptions i
               = (11 + 5 * Z.of_nat i / 60, (5 * Z.of_nat i) mod 60)).
  { unfold slot_at. rewrite morning_counters_after. simpl. by rewrite roll_nonneg by lia. }
  assert (Ha : slot_at Afternoon customOptions i
               = (16 + 5 * Z.of_nat i / 60, (5 * Z.of_nat i) mod 60)).
  { unfold slot_at. rewrite afternoon_counters_after. simpl. by rewrite roll_nonneg by lia. }
  rewrite Hm, Ha. cbn [fst snd].
  pose proof (Z.div_mod (5 * Z.of_nat i) 60 ltac:(lia)). repeat split; lia.
Qed.

(** The minutes after midnight that [roll] leaves are those it was
    given. *)
Lemma roll_minutes hour minute :
  (roll hour minute).1 * 60 + (roll hour minute).2 = hour * 60 + minute.
Proof.
  unfold roll. destruct (Z.leb_spec 60 minute); cbn [fst snd]; [|done].
  rewrite Z.rem_mod_nonneg by lia.
  pose proof (Z.div_mod minute 60 ltac:(lia)). lia.
Qed.

(** X12. Under the custom strategy with an interval of a minute or more,
    whatever start is asked for, the time of the day a slot is set at,
    the minutes carried into the hours as [setHours] does, is from 11:00
    to 11:55, or 15:04 or later: no start puts a slot before 11:00, or
    from 11:56 to 15:03. A slot of the afternoon may have a negative
    minute, which [setHours] takes from the hour 16. *)
Theorem custom_slot_times customOptions (i : nat) :
  1 <= number_or (customInterval customOptions) 5 →
  let slot := slot_at Custom customOptions i in
  let time := slot.1 * 60 + slot.2 in
  (11 * 60 <= time <= 11 * 60 + 55 ∨ 15 * 60 + 4 <= time)
  ∧ (slot.2 < 0 → slot.1 = 16)
  ∧ ∀ f, time < 1440 →
      setHours (Some f) slot.1 slot.2 = Some (Fields (on f) (time / 60) (time mod 60)).
Proof.
  intros Hint slot time.
  assert (Htime : (11 * 60 <= time <= 11 * 60 + 55 ∨ 15 * 60 + 4 <= time)
                  ∧ (slot.2 < 0 → slot.1 = 16)).
  { subst time slot. unfold slot_at. rewrite custom_counters_after. unfold next_slot.
    cbn [customTimeCounter fst]. cbv zeta.
    set (interval := number_or (customInterval customOptions) 5) in *.
    set (total := number_or (customStartHour customOptions) 11 * 60
                  + number_or (customStartMinute customOptions) 0
                  + Z.of_nat i * interval).
    assert (Hafternoon : ∀ minute, -56 <= minute →
              (11 * 60 <= (roll 16 minute).1 * 60 + (roll 16 minute).2 <= 11 * 60 + 55
               ∨ 15 * 60 + 4 <= (roll 16 minute).1 * 60 + (roll 16 minute).2)
              ∧ ((roll 16 minute).2 < 0 → (roll 16 minute).1 = 16)).
    { intros minute Hminute. rewrite roll_minutes. split; [lia|].
      unfold roll. destruct (Z.leb_spec 60 minute); cbn [fst snd]; [|done].
      rewrite Z.rem_mod_nonneg by lia. pose proof (Z.mod_pos_bound minute 60). lia. }
    assert (Hlate : -56 <= (Z.of_nat i - 56 / interval) * interval).
    { pose proof (Z.mul_div_le 56 interval ltac:(lia)). nia. }
    assert (Hearly :
      let minute := Z.of_nat i * interval in
      let slot := if 55 <? minute then roll 16 (minute - 55 - 1) else (11, minute) in
      (11 * 60 <= slot.1 * 60 + slot.2 <= 11 * 60 + 55 ∨ 15 * 60 + 4 <= slot.1 * 60 + slot.2)
      ∧ (slot.2 < 0 → slot.1 = 16)).
    { cbv zeta. destruct (Z.ltb_spec 55 (Z.of_nat i * interval)).
      - apply Hafternoon. lia.
      - cbn [fst snd]. split; [left|intros ?]; nia. }
    destruct (Z.eqb_spec (total / 60) 11) as [Heq|Hne]; cbn [andb].
    - destruct (Z.leb_spec (Z.rem total 60) 55) as [Hle|Hgt].
      + cbn [fst snd]. rewrite Heq.
        assert (0 <= total) by (pose proof (Z.div_mod total 60 ltac:(lia));
          pose proof (Z.mod_pos_bound total 60 ltac:(lia)); lia).
        rewrite Z.rem_mod_nonneg in Hle |- * by lia.
        pose proof (Z.mod_pos_bound total 60 ltac:(lia)). split; [left|]; lia.
      + rewrite orb_false_r. destruct (total / 60 <? 11); [apply Hearly|by apply Hafternoon].
    - rewrite orb_false_r. destruct (total / 60 <? 11); [apply Hearly|by apply Hafternoon]. }
  split; [apply Htime|]. split; [apply Htime|].
  intros f Hday. destruct Htime as [Htime _].
  unfold setHours. cbn [mbind option_bind]. fold time.
  rewrite (Z.div_small time 1440), (Z.mod_small time 1440) by lia.
  done.
Qed.

(** A start at 15:00 with the interval 5, which the route accepts: the
    first slot is the hour 16 less 55 minutes, 15:05. *)
Lemma custom_slot_times_witness :
  slot_at Custom (CustomOptions (Some 15) (Some 0) (Some 5)) 0 = (16, -55)
  ∧ setHours (Some (Fields (Civil 2025 2 6) 0 0)) 16 (-55)
    = Some (Fields (Civil 2025 2 6) 15 5).
Proof.
  destruct (custom_slot_times (CustomOptions (Some 15) (Some 0) (Some 5)) 0) as (_ & _ & H).
  - simpl. lia.
  - split; [reflexivity|]. apply (H (Fields (Civil 2025 2 6) 0 0)). vm_compute. reflexivity.
Defined.

(** X13. A custom start at the hour 12 or later is not followed: the
    slots are those of the afternoon tier, counted from 16:00 less the
    minutes of the morning slots, the same for every such start. With
    the interval 5 the first slot is 55 minutes before 16:00. *)
Theorem custom_late_start_ignored customOptions (i : nat) :
  12 <= number_or (customStartHour customOptions) 11 →
  0 <= number_or (customStartMinute customOptions) 0 →
  1 <= number_or (customInterval customOptions) 5 →
  let interval := number_or (customInterval customOptions) 5 in
  slot_at Custom customOptions i = roll 16 ((Z.of_nat i - 56 / interval) * interval)
  ∧ (interval = 5 → slot_at Custom customOptions 0 = (16, -55)).
Proof.
  intros Hh Hm Hi interval.
  assert (Hslot : ∀ k : nat,
            slot_at Custom customOptions k = roll 16 ((Z.of_nat k - 56 / interval) * interval)).
  { intros k. unfold slot_at. rewrite custom_counters_after. unfold next_slot.
    cbn [customTimeCounter fst]. cbv zeta. fold interval.
    set (total := number_or (customStartHour customOptions) 11 * 60
                  + number_or (customStartMinute customOptions) 0
                  + Z.of_nat k * interval).
    assert (12 <= total / 60) by (apply Z.div_le_lower_bound; subst total interval; nia).
    destruct (Z.eqb_spec (total / 60) 11); [lia|].
    destruct (Z.ltb_spec (total / 60) 11); [lia|]. done. }
  split; [apply Hslot|]. intros H5. rewrite Hslot, H5. reflexivity.
Qed.

(** A start at 14:30 with the interval 5. *)
Lemma custom_late_start_ignored_witness :
  slot_at Custom (CustomOptions (Some 14) (Some 30) (Some 5)) 12
  = roll 16 ((Z.of_nat 12 - 56 / 5) * 5)
  ∧ (5 = 5 → slot_at Custom (CustomOptions (Some 14) (Some 30) (Some 5)) 0 = (16, -55)).
Proof.
  apply (custom_late_start_ignored (CustomOptions (Some 14) (Some 30) (Some 5)) 12);
    simpl; lia.
Defined.

End StrategyFacts.

(** ** The statistics of a run of the scheduler *)

Module ClonerRunFacts.
Import JS JSFacts Chunks Cloner DuplicateFacts.

Section Run.
Variable legacy : string → JSDate.Date.
Variable api : remote.
Variable s : strategy.
Variable customOptions : custom_options.

(** The requests for the names fail for some of the emails only. *)
Lemma fetch_names_errors : ∀ emailIds rank emailInfoMap errors,
  (errors <= (fetch_names api rank emailIds emailInfoMap errors).2
          <= errors + length emailIds)%nat
  ∧ ((∀ k emailId, ∃ e, email_get api k emailId = Return e) →
     (fetch_names api rank emailIds emailInfoMap errors).2 = errors).
Proof.
  induction emailIds as [|emailId emailIds IH]; intros rank emailInfoMap errors; simpl.
  - split; [lia|done].
  - destruct (email_get api rank emailId) as [e|message] eqn:Hget.
    + destruct (IH (S rank) (<[emailId := e_name e]> emailInfoMap) errors) as [Hle Hok].
      split; [lia|done].
    + destruct (IH (S rank) emailInfoMap (S errors)) as [Hle Hok].
      split; [lia|]. intros Hall. destruct (Hall rank emailId) as [e He]. congruence.
Qed.

(** Each email of a day adds one to the names built or to the errors,
    and one to the pairs attempted at most. *)
Lemma plan_day_accounts day emailInfoMap : ∀ emailIds c p,
  let p' := plan_day legacy s customOptions day emailIds emailInfoMap c p in
  (length (emailNamesToCheck p') + p_errors p'
   = length (emailNamesToCheck p) + p_errors p + length emailIds)%nat
  ∧ (p_totalAttempted p <= p_totalAttempted p' <= p_totalAttempted p + length emailIds)%nat.
Proof.
  induction emailIds as [|emailId emailIds IH]; intros c p; cbn [plan_day]; [simpl; lia|].
  destruct (emailInfoMap !! emailId) as [originalEmailName|].
  - destruct (String.eqb originalEmailName "").
    + match goal with |- context [plan_day _ _ _ _ _ _ ?c1 ?p1] =>
        destruct (IH c1 p1) as [H1 H2] end.
      simpl in *. lia.
    + destruct (next_slot s customOptions c) as [[hour minute] c'].
      destruct (clone_name legacy originalEmailName day hour minute)
        as [[newEmailName clonedDate]|];
        match goal with |- context [plan_day _ _ _ _ _ _ ?c1 ?p1] =>
          destruct (IH c1 p1) as [H1 H2] end;
        simpl in *; rewrite ?length_app in *; simpl in *; lia.
  - match goal with |- context [plan_day _ _ _ _ _ _ ?c1 ?p1] =>
      destruct (IH c1 p1) as [H1 H2] end.
    simpl in *. lia.
Qed.

Lemma plan_days_accounts emailIds emailInfoMap : ∀ days p,
  let p' := plan_days legacy s customOptions days emailIds emailInfoMap p in
  (length (emailNamesToCheck p') + p_errors p'
   = length (emailNamesToCheck p) + p_errors p + length days * length emailIds)%nat
  ∧ (p_totalAttempted p' <= p_totalAttempted p + length days * length emailIds)%nat.
Proof.
  induction days as [|day days IH]; intros p; cbn [plan_days]; [simpl; lia|].
  destruct (plan_day_accounts day emailInfoMap emailIds (Counters 0 0 0 0) p) as [H1 H2].
  match goal with |- context [plan_days _ _ _ _ _ _ ?p1] =>
    destruct (IH p1) as [H3 H4] end.
  cbv zeta in *. simpl length. lia.
Qed.

(** Every name handed to the clone step ends as a clone or as an
    error, and the clones made have a time. *)
Lemma clone_all_times (emailScheduleMap : gmap string schedule) : ∀ names rank st,
  (∀ name, name ∈ names → is_Some (emailScheduleMap !! name)) →
  ∃ st' cloned,
    clone_all api s rank names emailScheduleMap st = Return st'
    ∧ totalAttempted st' = totalAttempted st
    ∧ duplicatesSkipped st' = duplicatesSkipped st
    ∧ clonedEmails st' = clonedEmails st ++ cloned
    ∧ successfullyCloned st' = (successfullyCloned st + length cloned)%nat
    ∧ (errors st' + length cloned = errors st + length names)%nat
    ∧ Forall (fun e : Z * string * JSDate.Date => is_Some e.2) cloned.
Proof.
  induction names as [|name names IH]; intros rank st Hmap; simpl.
  - exists st, []. rewrite app_nil_r. repeat split; (done || lia || constructor).
  - destruct (Hmap name) as [sch ->]; [left|].
    assert (Hstep : ∃ r,
              cloneAndScheduleEmailOptimized api rank (s_originalEmailId sch) (s_day sch)
                (s_hour sch) (s_minute sch) name (s_scheduledTime sch) s = Return r
              ∧ ∀ id n time, r = Cloned id n time → is_Some time).
    { unfold cloneAndScheduleEmailOptimized.
      destruct (s_scheduledTime sch) as [t|]; simpl; [|by eexists].
      destruct (email_get api rank _) as [originalEmail|]; simpl; [|by eexists].
      destruct (email_clone api rank _) as [clonedId|]; simpl; [|by eexists].
      destruct (email_update api rank clonedId _) as [[]|]; simpl; [|by eexists].
      destruct (ClonedEmail_save api _) as [[]|]; simpl; eexists; (split; [done|]);
        by intros ? ? ? [= _ _ <-]. }
    destruct Hstep as (r & -> & Hr). simpl.
    match goal with |- context [clone_all _ _ _ _ _ ?st1] =>
      destruct (IH (S rank) st1) as (st' & cloned & -> & Ht & Hd & Hc & Hs & He & Htimes)
    end.
    { intros n Hn. apply Hmap. by right. }
    destruct r as [id n time|message]; simpl in *.
    + exists st', ((id, n, time) :: cloned). rewrite <- app_assoc in Hc.
      repeat split; try done; simpl; [lia|lia|]. constructor; [|done]. by eapply Hr.
    + exists st', cloned. repeat split; try done. lia.
Qed.

(** The statistics of a run that returns them. *)
Lemma EmailCloner_stats emailIds cloningCount (cache : gset string) st :
  response (EmailCloner legacy api s customOptions emailIds cloningCount cache) = Return st →
  (successfullyCloned st + duplicatesSkipped st + errors st
   = (fetch_names api 0 emailIds ∅ 0).2 + Z.to_nat cloningCount * length emailIds)%nat
  ∧ (totalAttempted st <= Z.to_nat cloningCount * length emailIds)%nat
  ∧ successfullyCloned st = length (clonedEmails st)
  ∧ Forall (fun e : Z * string * JSDate.Date => is_Some e.2) (clonedEmails st).
Proof.
  unfold EmailCloner.
  destruct (fetch_names api 0 emailIds ∅ 0) as [emailInfoMap errors0] eqn:Hnames.
  set (p := plan_days legacy s customOptions (days_of cloningCount) emailIds emailInfoMap
              (Plan errors0 0 [] ∅)).
  assert (Hp : scheduled p).
  { apply plan_days_scheduled. intros name H. by apply elem_of_nil in H. }
  destruct (plan_days_accounts emailIds emailInfoMap (days_of cloningCount)
              (Plan errors0 0 [] ∅)) as [Hsum Hattempted].
  fold p in Hsum, Hattempted. simpl in Hsum, Hattempted.
  assert (Hdays : length (days_of cloningCount) = Z.to_nat cloningCount).
  { unfold days_of. by rewrite length_map, length_seq. }
  rewrite Hdays in *.
  destruct (ClonedEmail_find api (emailNamesToCheck p)) as [dbDuplicates|message];
    [|by cbn [response]].
  destruct (batchCheckEmailsExist_spec api (emailNamesToCheck p)) as (hub & -> & _).
  destruct (keep_new_fold (list_to_set dbDuplicates) hub (emailNamesToCheck p) cache 0%nat [])
    as (new & k' & -> & Hnew & Hnd & Hk').
  simpl app. cbn [response].
  destruct (clone_all_times (emailScheduleMap p) new (length emailIds)
              (Stats (p_totalAttempted p) 0 k' (p_errors p) []))
    as (st' & cloned & Hst & Ht & Hd & Hc & Hs & He & Htimes).
  { intros name Hname. apply Hp. by apply Hnew. }
  rewrite Hst. cbn [try_catch]. intros [= <-].
  simpl in *. rewrite Hc. split; [lia|]. split; [lia|].
  split; [lia|done].
Qed.

End Run.

(** X14. In a run of the scheduler that returns its statistics, every
    pair of a day and a source email ends in exactly one of the counts:
    cloned, skipped as a duplicate, or error; the errors hold one more
    for every email whose name could not be fetched. The pairs reported
    as attempted are those whose email has a name. *)
Theorem every_pair_accounted legacy api s customOptions emailIds cloningCount
    (cache : gset string) st :
  response (EmailCloner legacy api s customOptions emailIds cloningCount cache) = Return st →
  (successfullyCloned st + duplicatesSkipped st + errors st
   = (fetch_names api 0 emailIds ∅ 0).2 + Z.to_nat cloningCount * length emailIds)%nat
  ∧ ((fetch_names api 0 emailIds ∅ 0).2 <= length emailIds)%nat
  ∧ ((∀ k emailId, ∃ e, email_get api k emailId = Return e) →
     (successfullyCloned st + duplicatesSkipped st + errors st
      = Z.to_nat cloningCount * length emailIds)%nat)
  ∧ (totalAttempted st <= Z.to_nat cloningCount * length emailIds)%nat
  ∧ successfullyCloned st = length (clonedEmails st).
Proof.
  intros H. apply EmailCloner_stats in H as (Hsum & Ht & Hc & _).
  destruct (fetch_names_errors api emailIds 0 ∅ 0) as [Hle Hok].
  split; [done|]. split; [lia|]. split; [|done].
  intros Hall. rewrite (Hok Hall) in Hsum. lia.
Qed.

(** Three emails over two days; the audit store holds a name of the
    second day. *)
Lemma every_pair_accounted_witness :
  let api := ClonerDoubles.clone_api ClonerDoubles.three_names
               ["Bolt - 07 Mar 2025"] [] (fun _ => false) in
  ∃ st, response (EmailCloner ClonerDoubles.strict api Smart (CustomOptions None None None)
                    [1; 2; 3] 2 ∅) = Return st
    ∧ (successfullyCloned st + duplicatesSkipped st + errors st = 0 + 2 * 3)%nat
    ∧ duplicatesSkipped st = 1%nat.
Proof.
  intros api.
  destruct (response (EmailCloner ClonerDoubles.strict api Smart
                        (CustomOptions None None None) [1; 2; 3] 2 ∅)) as [st|] eqn:Hst;
    [|vm_compute in Hst; discriminate].
  exists st. split; [reflexivity|].
  destruct (every_pair_accounted _ _ _ _ _ _ _ _ Hst) as (Hsum & _).
  split; [exact Hsum|]. vm_compute in Hst. injection Hst as <-. reflexivity.
Defined.

(** X15. A pair whose scheduled time is the invalid date is not cloned:
    the clone step reports the error before it sends a request. In a
    run that returns its statistics every clone reported has a time. *)
Theorem invalid_time_never_cloned legacy api s customOptions emailIds cloningCount
    (cache : gset string) st :
  response (EmailCloner legacy api s customOptions emailIds cloningCount cache) = Return st →
  (∀ id name time, (id, name, time) ∈ clonedEmails st → is_Some time)
  ∧ (∀ api' rank id day hour minute newEmailName,
       cloneAndScheduleEmailOptimized api' rank id day hour minute newEmailName None s
       = Return (NotCloned "Invalid time value")).
Proof.
  intros H. apply EmailCloner_stats in H as (_ & _ & _ & Htimes). split; [|done].
  intros id name time Hin. rewrite Forall_forall in Htimes. by apply (Htimes _ Hin).
Qed.

(** A source whose name holds "99 Foo 2025". *)
Lemma invalid_time_never_cloned_witness :
  let api := ClonerDoubles.clone_api (fun _ => "Acme - 99 Foo 2025") [] [] (fun _ => false) in
  ∃ st, response (EmailCloner ClonerDoubles.strict api Smart (CustomOptions None None None)
                    [1] 1 ∅) = Return st
    ∧ clonedEmails st = [] ∧ errors st = 1%nat
    ∧ ∀ id name time, (id, name, time) ∈ clonedEmails st → is_Some time.
Proof.
  intros api.
  destruct (response (EmailCloner ClonerDoubles.strict api Smart
                        (CustomOptions None None None) [1] 1 ∅)) as [st|] eqn:Hst;
    [|vm_compute in Hst; discriminate].
  exists st. split; [reflexivity|].
  destruct (invalid_time_never_cloned _ _ _ _ _ _ _ _ Hst) as [Htimes _].
  vm_compute in Hst. injection Hst as <-.
  split; [reflexivity|]. split; [reflexivity|exact Htimes].
Defined.

(** X16. The clone step reports the clone as made as soon as the remote
    has cloned and updated the email, whatever the audit store answers
    when the record is saved; when the request for the source, the clone
    or the update fails, it reports that error and no clone. *)
Theorem clone_step_outcomes api rank id day hour minute newEmailName (time : JSDate.fields) s :
  (∀ message, email_get api rank id = Throw message →
     cloneAndScheduleEmailOptimized api rank id day hour minute newEmailName (Some time) s
     = Return (NotCloned message))
  ∧ (∀ e message, email_get api rank id = Return e →
       email_clone api rank id = Throw message →
       cloneAndScheduleEmailOptimized api rank id day hour minute newEmailName (Some time) s
       = Return (NotCloned message))
  ∧ (∀ e clonedId, email_get api rank id = Return e →
       email_clone api rank id = Return clonedId →
       ∃ payload,
         u_name payload = newEmailName ∧ publishDate payload = Some time
         ∧ publishImmediately payload = false
         ∧ (∀ message, email_update api rank clonedId payload = Throw message →
              cloneAndScheduleEmailOptimized api rank id day hour minute newEmailName
                (Some time) s
              = Return (NotCloned message))
         ∧ (email_update api rank clonedId payload = Return () →
              cloneAndScheduleEmailOptimized api rank id day hour minute newEmailName
                (Some time) s
              = Return (Cloned clonedId newEmailName (Some time)))).
Proof.
  unfold cloneAndScheduleEmailOptimized. cbn [toISOString mret completion_ret mbind completion_bind].
  split; [|split].
  - intros message ->. done.
  - intros e message -> ->. done.
  - intros e clonedId -> ->. eexists. split; [|split; [|split; [|split]]];
      [| | |intros message Hm|intros Hok].
    4: { cbn [mbind completion_bind]. rewrite Hm. reflexivity. }
    4: { cbn [mbind completion_bind]. rewrite Hok. cbn.
         by destruct (ClonedEmail_save api _) as [[]|]. }
    all: reflexivity.
Qed.

End ClonerRunFacts.

(** ** The earlier copies, further *)

Module LegacyRunFacts.
Import JS JSFacts Chunks ChunkFacts Hubspot LegacyFacts.

(** X17. In [routes/cloner.js] the smart strategy puts the first twelve
    sources of a day five minutes apart from 11:00, and every later
    source of the day at 16:00: the counter of minutes is not advanced
    in the afternoon. *)
Theorem legacy_smart_slots (i : nat) :
  ClonerLegacy.slot_at Cloner.Smart i
  = if Z.of_nat i <? 12 then (11, 5 * Z.of_nat i) else (16, 0).
Proof.
  destruct (Z.ltb_spec (Z.of_nat i) 12).
  - unfold ClonerLegacy.slot_at. rewrite legacy_smart_morning by lia.
    unfold ClonerLegacy.next_slot, Cloner.MAX_MORNING_SLOTS.
    by destruct (Z.ltb_spec (Z.of_nat i) 12); [|lia].
  - apply legacy_smart_afternoon. lia.
Qed.

Lemma legacy_fetch_loop_returns RETRIEVAL_BATCH_SIZE MAX_RETRIES api listId maxCount :
  ∀ fuel allContacts hasMore offset retryCount rank r,
  HubspotLegacy.fetch_loop RETRIEVAL_BATCH_SIZE MAX_RETRIES api fuel listId maxCount
    allContacts hasMore offset retryCount rank = Some r →
  ∃ contacts, r = Return contacts.
Proof.
  induction fuel as [|fuel IH]; intros allContacts hasMore offset retryCount rank r; simpl.
  - destruct (_ && _ && _); [done|]. intros [= <-]. by eexists.
  - destruct (_ && _ && _); [|intros [= <-]; by eexists].
    destruct (list_page _ _ _ _ _) as [res|message].
    + destruct (negb _); [intros [= <-]; by eexists|]. apply IH.
    + apply IH.
Qed.

(** X18. The earlier [getContactsFromList] never fails: whatever the
    remote answers it returns a list when it ends, and when every
    request fails it ends after [MAX_RETRIES] of them with the empty
    list, which its caller cannot tell from a list without contacts. *)
Theorem legacy_fetch_never_fails RETRIEVAL_BATCH_SIZE MAX_RETRIES api listId maxCount :
  (∀ fuel r,
     HubspotLegacy.getContactsFromList RETRIEVAL_BATCH_SIZE MAX_RETRIES api fuel listId maxCount
     = Some r → ∃ contacts, r = Return contacts)
  ∧ ((∀ rank count offset, ∃ message,
        list_page api listId rank count offset = Throw message) →
     HubspotLegacy.getContactsFromList RETRIEVAL_BATCH_SIZE MAX_RETRIES api
       (Z.to_nat MAX_RETRIES) listId maxCount
     = Some (Return [])).
Proof.
  split.
  - intros fuel r. apply legacy_fetch_loop_returns.
  - intros Hfail. unfold HubspotLegacy.getContactsFromList.
    rewrite (legacy_fetch_loop_failing _ _ _ _ _ Hfail); [done|].
    rewrite Z.sub_0_r. lia.
Qed.

Lemma legacy_add_chunks_abort api listId : ∀ chunks rank (j : nat) chunk message,
  chunks !! j = Some chunk →
  (∀ (i : nat) c, (i < j)%nat → chunks !! i = Some c →
     list_add api listId (S (rank + i)) c = Return ()) →
  list_add api listId (S (rank + j)) chunk = Throw message →
  HubspotLegacy.add_chunks api listId chunks rank = Throw message.
Proof.
  induction chunks as [|c chunks IH]; intros rank j chunk message Hj Hbefore Hfail; [done|].
  cbn [HubspotLegacy.add_chunks]. destruct j as [|j]; simpl in Hj.
  - injection Hj as ->. rewrite Nat.add_0_r in Hfail. by rewrite Hfail.
  - pose proof (Hbefore 0%nat c ltac:(lia) eq_refl) as H0. rewrite Nat.add_0_r in H0.
    rewrite H0. cbn [try_catch mbind completion_bind].
    apply (IH (S rank) j chunk); [done| |].
    + intros i c' Hi Hc'. replace (S (S rank + i)) with (S (rank + S i)) by lia.
      apply Hbefore; [lia|done].
    + by replace (S (S rank + j)) with (S (rank + S j)) by lia.
Qed.

(** X19. The earlier [addContactsToList] stops at the first chunk that
    the remote refuses and fails with that error: the chunks after it
    are not sent. *)
Theorem legacy_upload_aborts api listId (contacts : list Z) (j : nat) chunk message :
  chunkArray contacts 300 !! j = Some chunk →
  (∀ (i : nat) c, (i < j)%nat → chunkArray contacts 300 !! i = Some c →
     list_add api listId (S i) c = Return ()) →
  list_add api listId (S j) chunk = Throw message →
  HubspotLegacy.addContactsToList api listId contacts = Throw message.
Proof.
  intros Hj Hbefore Hfail. unfold HubspotLegacy.addContactsToList, default_sizes.
  rewrite progressiveChunks_first_tier by lia.
  by apply (legacy_add_chunks_abort api listId _ 0 j chunk).
Qed.

(** 700 identifiers; the remote refuses the second chunk. *)
Lemma legacy_upload_aborts_witness :
  HubspotLegacy.addContactsToList
    (Doubles.upload_api (fun _ => []) (fun chunk => bool_decide (chunk = ids 301 300)))
    9 (ids 1 700)
  = Throw "Bad Request".
Proof.
  apply (legacy_upload_aborts _ 9 (ids 1 700) 1 (ids 301 300) "Bad Request").
  - vm_compute. reflexivity.
  - intros [|i] c Hi Hc; [|lia]. vm_compute in Hc. injection Hc as <-. reflexivity.
  - reflexivity.
Defined.

End LegacyRunFacts.

Module LegacyClonerFacts.
Import JS JSFacts Cloner.

Section Run.
Variable legacy : string → JSDate.Date.
Variable api : remote.

(** A call returns, leaves the cache no smaller, and reports a clone
    only of a name that none of the three checks knew. *)
Lemma legacy_clone_call rank id day hour minute s (cache : gset string) :
  ∃ cache' result,
    ClonerLegacy.cloneAndScheduleEmail legacy api rank id day hour minute s cache
    = (cache', Return result)
    ∧ cache ⊆ cache'
    ∧ ∀ emailId name time, result = ClonerLegacy.Cloned emailId name time →
        (name ∉ cache)
        ∧ cache' = {[name]} ∪ cache
        ∧ ClonedEmail_findOne api rank name ≠ Return true
        ∧ checkEmailExists api name ≠ Return true
        ∧ is_Some time.
Proof.
  unfold ClonerLegacy.cloneAndScheduleEmail.
  destruct (email_get api rank id) as [originalEmail|message]; [|by eexists _, _].
  destruct (clone_name legacy (e_name originalEmail) day hour minute)
    as [[newEmailName clonedDate]|]; [|by eexists _, _].
  case_bool_decide as Hcache; [by eexists _, _|].
  assert (Hclone : ∃ result,
    try_catch
      (clonedId ← email_clone api rank id;
       _ ← email_update api rank clonedId
             (UpdatePayload newEmailName [10469] [39067] [6591] [31189] false clonedDate false
                (ClonerLegacy.override
                   (ClonerLegacy.override (root_emailCategory originalEmail)
                      (props_emailCategory originalEmail))
                   (props_Email_Category originalEmail))
                (ClonerLegacy.override
                   (ClonerLegacy.override (root_mdlzBrand originalEmail)
                      (props_mdlzBrand originalEmail))
                   (props_MDLZ_Brand originalEmail)));
       _ ← try_catch
             (ClonedEmail_save api
                (ClonedEmail id clonedId newEmailName clonedDate (strategy_name s)))
             (fun _ => mret ());
       time ← toISOString clonedDate;
       mret (ClonerLegacy.Cloned clonedId newEmailName time))
      (fun message => mret (ClonerLegacy.NotCloned message))
    = Return result
    ∧ ∀ emailId name time, result = ClonerLegacy.Cloned emailId name time →
        name = newEmailName ∧ is_Some time).
  { destruct (email_clone api rank id) as [clonedId|]; cbn; [|by eexists].
    destruct (email_update api rank clonedId _) as [[]|]; cbn; [|by eexists].
    destruct (ClonedEmail_save api _) as [[]|]; cbn;
      destruct clonedDate as [t|]; cbn; eexists; (split; [done|]); try done;
      by intros emailId name time [= _ <- <-]. }
  destruct Hclone as (result & Hclone & Hresult).
  destruct (ClonedEmail_findOne api rank newEmailName) as [[]|dbError] eqn:Hdb;
    cbn [try_catch mret completion_ret]; [by eexists _, _| |].
  all: destruct (checkEmailExists api newEmailName) as [[]|] eqn:Hhub; [by eexists _, _| |].
  all: rewrite Hclone; eexists _, _; (split; [done|]); (split; [set_solver|]).
  all: intros emailId name time Hr; destruct (Hresult _ _ _ Hr) as [-> Ht].
  all: rewrite Hdb, Hhub; by repeat split.
Qed.

Lemma count_result_sum st result :
  let st' := ClonerLegacy.count_result st result in
  totalAttempted st' = S (totalAttempted st)
  ∧ (successfullyCloned st' + duplicatesSkipped st' + errors st'
     = S (successfullyCloned st + duplicatesSkipped st + errors st))%nat
  ∧ (successfullyCloned st = length (clonedEmails st) →
     successfullyCloned st' = length (clonedEmails st')).
Proof.
  destruct result; simpl; repeat split; try lia.
  intros ->. rewrite length_app. simpl. lia.
Qed.

Lemma legacy_clone_day s day : ∀ emailIds rank minuteCounter morningSlotsUsed
    (cache : gset string) st,
  ∃ cache' st',
    ClonerLegacy.clone_day legacy api s day rank emailIds minuteCounter morningSlotsUsed
      cache st = Return (cache', st')
    ∧ cache ⊆ cache'
    ∧ totalAttempted st' = (totalAttempted st + length emailIds)%nat
    ∧ (successfullyCloned st' + duplicatesSkipped st' + errors st'
       = successfullyCloned st + duplicatesSkipped st + errors st + length emailIds)%nat
    ∧ (successfullyCloned st = length (clonedEmails st) →
       successfullyCloned st' = length (clonedEmails st')).
Proof.
  induction emailIds as [|emailId emailIds IH];
    intros rank minuteCounter morningSlotsUsed cache st; cbn [ClonerLegacy.clone_day].
  - exists cache, st. repeat split; (done || simpl; lia).
  - destruct (ClonerLegacy.next_slot s minuteCounter morningSlotsUsed) as [[[hour minute] mc] ms].
    destruct (legacy_clone_call rank emailId day hour minute s cache)
      as (cache1 & result & -> & Hsub & _).
    cbn [mbind completion_bind].
    destruct (count_result_sum st result) as (Ht & Hsum & Hlen). cbv zeta in Ht, Hsum, Hlen.
    destruct (IH (S rank) mc ms cache1 (ClonerLegacy.count_result st result))
      as (cache' & st' & -> & Hsub' & Ht' & Hsum' & Hlen').
    exists cache', st'. split; [done|]. split; [set_solver|].
    simpl length. split; [lia|]. split; [lia|]. intros H. by apply Hlen', Hlen.
Qed.

Lemma legacy_clone_days s emailIds : ∀ days rank (cache : gset string) st,
  ∃ cache' st',
    ClonerLegacy.clone_days legacy api s days rank emailIds cache st = Return (cache', st')
    ∧ cache ⊆ cache'
    ∧ totalAttempted st' = (totalAttempted st + length days * length emailIds)%nat
    ∧ (successfullyCloned st' + duplicatesSkipped st' + errors st'
       = successfullyCloned st + duplicatesSkipped st + errors st
         + length days * length emailIds)%nat
    ∧ (successfullyCloned st = length (clonedEmails st) →
       successfullyCloned st' = length (clonedEmails st')).
Proof.
  induction days as [|day days IH]; intros rank cache st; cbn [ClonerLegacy.clone_days].
  - exists cache, st. repeat split; (done || simpl; lia).
  - destruct (legacy_clone_day s day emailIds rank 0 0 cache st)
      as (cache1 & st1 & -> & Hsub & Ht & Hsum & Hlen).
    cbn [mbind completion_bind].
    destruct (IH (rank + length emailIds)%nat cache1 st1)
      as (cache' & st' & -> & Hsub' & Ht' & Hsum' & Hlen').
    exists cache', st'. split; [done|]. split; [set_solver|].
    simpl length. split; [lia|]. split; [lia|]. intros H. by apply Hlen', Hlen.
Qed.

End Run.

(** X20. [EmailCloner] of [routes/cloner.js] returns its statistics
    whatever the remote and the audit store answer, and counts every
    pair of a day and a source once: the pairs attempted are all of
    them, each cloned, skipped or in error. *)
Theorem legacy_every_attempt_counted legacy api emailIds cloningCount s (cache : gset string) :
  ∃ cache' st,
    ClonerLegacy.EmailCloner legacy api emailIds cloningCount s cache = Return (cache', st)
    ∧ cache ⊆ cache'
    ∧ totalAttempted st = (Z.to_nat cloningCount * length emailIds)%nat
    ∧ (successfullyCloned st + duplicatesSkipped st + errors st = totalAttempted st)%nat
    ∧ successfullyCloned st = length (clonedEmails st).
Proof.
  unfold ClonerLegacy.EmailCloner.
  destruct (legacy_clone_days legacy api s emailIds (days_of cloningCount) 0 cache
              (Stats 0 0 0 0 [])) as (cache' & st & -> & Hsub & Ht & Hsum & Hlen).
  assert (Hdays : length (days_of cloningCount) = Z.to_nat cloningCount).
  { unfold days_of. by rewrite length_map, length_seq. }
  rewrite Hdays in *. simpl in *.
  exists cache', st. split; [done|]. split; [done|]. split; [lia|]. split; [lia|]. by apply Hlen.
Qed.

(** X21. [cloneAndScheduleEmail] of [routes/cloner.js] reports a clone
    only of a name that was not in the cache of the run, that the audit
    store did not hold when asked, and that the remote search did not
    find; the name is in the cache from then on. An error of either
    lookup counts as "not there". *)
Theorem legacy_clone_guarded legacy api rank id day hour minute s (cache cache' : gset string)
    emailId name time :
  ClonerLegacy.cloneAndScheduleEmail legacy api rank id day hour minute s cache
  = (cache', Return (ClonerLegacy.Cloned emailId name time)) →
  (name ∉ cache)
  ∧ name ∈ cache'
  ∧ ClonedEmail_findOne api rank name ≠ Return true
  ∧ checkEmailExists api name ≠ Return true
  ∧ is_Some time.
Proof.
  intros H.
  destruct (legacy_clone_call legacy api rank id day hour minute s cache)
    as (cache1 & result & Hcall & _ & Hcloned).
  rewrite Hcall in H. injection H as -> ->.
  destruct (Hcloned emailId name time eq_refl) as (Hc & -> & Hdb & Hhub & Ht).
  repeat split; try done. set_solver.
Qed.

(** A first clone of "Acme - 06 Mar 2025". *)
Lemma legacy_clone_guarded_witness :
  let api := ClonerDoubles.clone_api ClonerDoubles.three_names [] [] (fun _ => false) in
  ("Acme - 06 Mar 2025" ∉ (∅ : gset string))
  ∧ "Acme - 06 Mar 2025" ∈ ({["Acme - 06 Mar 2025"]} ∪ ∅ : gset string)
  ∧ ClonedEmail_findOne api 0 "Acme - 06 Mar 2025" ≠ Return true
  ∧ checkEmailExists api "Acme - 06 Mar 2025" ≠ Return true
  ∧ is_Some (Some (JSDate.Fields (JSDate.Civil 2025 2 6) 11 0)).
Proof.
  intros api.
  apply (legacy_clone_guarded ClonerDoubles.strict api 0 1 1 11 0 Smart ∅ _ 1001).
  reflexivity.
Defined.

End LegacyClonerFacts.

(** ** Day numbers, numbers read from text, and the date helpers *)

Module DayNumberFacts.
Import JS JSString JSDate JSParse DateFacts.

(** The days of the years before [y], as [day_number] counts them. *)
Local Abbreviation days_before y :=
  ((y / 400) * 146097 + (y mod 400) * 365 + (y mod 400) / 4 - (y mod 400) / 100).

Lemma year_days (y : Z) :
  days_before y = days_before (y - 1) + 365 + (if is_leap y then 1 else 0).
Proof.
  unfold is_leap.
  destruct (Z.eqb_spec (y mod 4) 0), (Z.eqb_spec (y mod 100) 0), (Z.eqb_spec (y mod 400) 0);
    cbn [andb orb negb]; Z.div_mod_to_equations; lia.
Qed.

Lemma month_cases (m : Z) :
  0 <= m <= 11 →
  m = 0 ∨ m = 1 ∨ m = 2 ∨ m = 3 ∨ m = 4 ∨ m = 5 ∨ m = 6 ∨ m = 7 ∨ m = 8 ∨ m = 9
  ∨ m = 10 ∨ m = 11.
Proof. lia. Qed.

(** The day after has the next number. *)
Lemma day_number_next_day (c : civil) :
  valid c → day_number (next_day c) = day_number c + 1.
Proof.
  destruct c as [y m d]. unfold valid. cbn [year month day]. intros [Hm Hd].
  pose proof (year_days y) as Hy. pose proof (year_days (y + 1)) as Hy1.
  replace (y + 1 - 1) with y in Hy1 by lia.
  unfold next_day, days_in_month in *. cbn [year month day] in *.
  destruct (month_cases m Hm) as [->|[->|[->|[->|[->|[->|[->|[->|[->|[->|[->| ->]]]]]]]]]]];
    cbn [Z.eqb Z.ltb Z.compare Pos.compare Pos.compare_cont orb andb Pos.eqb] in *;
    destruct (is_leap y);
    match goal with |- context [if d <? ?b then _ else _] => destruct (Z.ltb_spec d b) end;
    unfold day_number; cbn [year month day];
    repeat match goal with
           | |- context [?a <? 2] => destruct (Z.ltb_spec a 2); try lia
           end;
    Z.div_mod_to_equations; lia.
Qed.

Lemma prev_day_valid (c : civil) : valid c → valid (prev_day c).
Proof.
  destruct c as [y m d]. unfold valid, prev_day. cbn [year month day]. intros [Hm Hd].
  destruct (Z.ltb_spec 1 d); cbn [year month day]; [lia|].
  destruct (Z.ltb_spec 0 m); cbn [year month day].
  - pose proof (days_in_month_bounds y (m - 1)). lia.
  - unfold days_in_month. simpl. lia.
Qed.

Lemma next_prev_day (c : civil) : valid c → next_day (prev_day c) = c.
Proof.
  destruct c as [y m d]. unfold valid, prev_day, next_day. cbn [year month day].
  intros [Hm Hd].
  destruct (Z.ltb_spec 1 d); cbn [year month day].
  - destruct (Z.ltb_spec (d - 1) (days_in_month y m)); [|lia]. f_equal. lia.
  - destruct (Z.ltb_spec 0 m); cbn [year month day].
    + destruct (Z.ltb_spec (days_in_month y (m - 1)) (days_in_month y (m - 1))); [lia|].
      destruct (Z.ltb_spec (m - 1) 11); [|lia]. f_equal; lia.
    + assert (days_in_month (y - 1) 11 = 31) as -> by done.
      cbn [Z.ltb Z.compare Pos.compare Pos.compare_cont]. f_equal; lia.
Qed.

Lemma day_number_prev_day (c : civil) :
  valid c → day_number (prev_day c) = day_number c - 1.
Proof.
  intros Hc. pose proof (day_number_next_day (prev_day c) (prev_day_valid c Hc)) as H.
  rewrite next_prev_day in H by done. lia.
Qed.

Lemma iter_prev_day_valid (k : nat) (c : civil) : valid c → valid (Nat.iter k prev_day c).
Proof. intros Hc. induction k; simpl; [done|by apply prev_day_valid]. Qed.

(** The day [n] days away has the number [n] away, so that the range
    of [Date] can be told from the numbers. *)
Lemma day_number_add_days (c : civil) (n : Z) :
  valid c → day_number (add_days c n) = day_number c + n.
Proof.
  intros Hc. unfold add_days. destruct (Z.leb_spec 0 n).
  - rewrite <- (Z2Nat.id n) at 2 by lia. generalize (Z.to_nat n). intros k.
    induction k as [|k IH]; [simpl; lia|].
    rewrite Nat.iter_succ, day_number_next_day by (by apply iter_next_day_valid). lia.
  - replace n with (- Z.of_nat (Z.to_nat (- n))) at 2 by lia. generalize (Z.to_nat (- n)).
    intros k. induction k as [|k IH]; [simpl; lia|].
    rewrite Nat.iter_succ, day_number_prev_day by (by apply iter_prev_day_valid). lia.
Qed.

(** The numbers of the days of the years 1970 to 9999. *)
Lemma day_number_years (c : civil) :
  valid c → 1970 <= year c <= 9999 → 0 <= day_number c <= 2932896.
Proof.
  destruct c as [y m d]. unfold valid. cbn [year month day]. intros [Hm Hd] Hy.
  pose proof (days_in_month_bounds y m).
  unfold day_number. cbn [year month day].
  destruct (Z.ltb_spec m 2); Z.div_mod_to_equations; lia.
Qed.

End DayNumberFacts.

Module ParseFacts.
Import JS JSString JSDate JSParse.

Lemma read_digits_acc : ∀ (d : Decimal.uint) (acc : positive),
  read_digits 10 (NilEmpty.string_of_uint d) (Some (Z.pos acc))
  = Some (Z.pos (Pos.of_uint_acc d acc)).
Proof.
  induction d; intros acc; cbn [NilEmpty.string_of_uint read_digits Pos.of_uint_acc];
    [done|..];
    match goal with |- context [digit_in 10 ?a] =>
      change (digit_in 10 a) with (Some (Z.of_N (N_of_ascii a) - 48)) end;
    cbn [default]; rewrite <- IHd; f_equal; f_equal; simpl; lia.
Qed.

Lemma read_digits_uint : ∀ d : Decimal.uint,
  read_digits 10 (NilEmpty.string_of_uint d) (Some 0) = Some (Z.of_N (Pos.of_uint d)).
Proof.
  induction d; cbn [NilEmpty.string_of_uint read_digits Pos.of_uint]; [done|..];
    match goal with |- context [digit_in 10 ?a] =>
      change (digit_in 10 a) with (Some (Z.of_N (N_of_ascii a) - 48)) end;
    cbv iota beta;
    match goal with |- context [read_digits 10 _ (Some ?e)] =>
      let v := eval vm_compute in e in change e with v end;
    [exact IHd|..]; apply read_digits_acc.
Qed.

Lemma digit_in_decimal (a : ascii) :
  is_digit a = true → digit_in 10 a = Some (digit_value a) ∧ is_white a = false
  ∧ Ascii.eqb a "-" = false ∧ Ascii.eqb a "+" = false
  ∧ Ascii.eqb a "x" = false ∧ Ascii.eqb a "X" = false.
Proof.
  intros H. apply DateFacts.is_digit_digits in H.
  repeat (destruct H as [<-|H]; [by vm_compute|]). done.
Qed.

Lemma string_of_uint_digit (d : Decimal.uint) :
  d ≠ Decimal.Nil →
  ∃ a rest, NilEmpty.string_of_uint d = String a rest ∧ is_digit a = true
    ∧ (rest = EmptyString ∨ ∃ b rest', rest = String b rest' ∧ is_digit b = true).
Proof.
  intros Hd. destruct d as [|d|d|d|d|d|d|d|d|d|d]; [done|..];
    (eexists _, _; split; [reflexivity|]; split; [reflexivity|]);
    destruct d; simpl; (by left) || (right; by eexists _, _).
Qed.

(** A number written in decimal, without sign, is read back. *)
Lemma parseInt_uint (d : Decimal.uint) :
  d ≠ Decimal.Nil →
  parseInt (NilEmpty.string_of_uint d) = Some (Z.of_N (Pos.of_uint d))
  ∧ parseInt (String "-" (NilEmpty.string_of_uint d)) = Some (- Z.of_N (Pos.of_uint d)).
Proof.
  intros Hd. pose proof (read_digits_uint d) as H.
  destruct (string_of_uint_digit d Hd) as (a & rest & Hs & Ha & Hrest).
  rewrite Hs in *. destruct (digit_in_decimal a Ha) as (Hda & Hw & Hm & Hp & _).
  assert (Hread : read_digits 10 (String a rest) None = Some (Z.of_N (Pos.of_uint d))).
  { rewrite <- H. cbn [read_digits]. by rewrite Hda. }
  assert (Hradix : (let '(radix, s) :=
                      match String a rest with
                      | String a (String b s') =>
                          if Ascii.eqb a "0" && (Ascii.eqb b "x" || Ascii.eqb b "X")
                          then (16, s') else (10, String a rest)
                      | _ => (10, String a rest)
                      end in read_digits radix s None)
                   = Some (Z.of_N (Pos.of_uint d))).
  { destruct Hrest as [->|(b & rest' & -> & Hb)]; [done|].
    destruct (digit_in_decimal b Hb) as (_ & _ & _ & _ & -> & ->).
    by rewrite andb_false_r. }
  split.
  - unfold parseInt. cbn [skip_white]. rewrite Hw, Hm, Hp.
    destruct rest as [|b rest']; [cbv zeta iota beta; rewrite Hread; cbn; f_equal; lia|].
    revert Hradix. destruct (_ && _); cbv zeta iota beta; intros ->; cbn; f_equal; lia.
  - unfold parseInt. cbn [skip_white]. change (is_white "-") with false.
    cbv iota. change (Ascii.eqb "-" "-") with true. cbv iota.
    destruct rest as [|b rest']; [cbv zeta iota beta; rewrite Hread; cbn; f_equal; lia|].
    revert Hradix. destruct (_ && _); cbv zeta iota beta; intros ->; cbn; f_equal; lia.
Qed.

Lemma to_uint_not_Nil (p : positive) : Pos.to_uint p ≠ Decimal.Nil.
Proof.
  intros H. pose proof (DecimalPos.Unsigned.of_to p) as Hp. by rewrite H in Hp.
Qed.

(** [parseInt] reads back the integer that [String] wrote. *)
Lemma parseInt_decimal (n : Z) : parseInt (decimal n) = Some n.
Proof.
  unfold decimal. destruct n as [|p|p]; [done|..]; cbn [Z.to_int NilZero.string_of_int];
    pose proof (to_uint_not_Nil p) as Hnil;
    destruct (parseInt_uint (Pos.to_uint p) Hnil) as [Hpos Hneg];
    rewrite DecimalPos.Unsigned.of_to in Hpos, Hneg;
    unfold NilZero.string_of_uint; destruct (Pos.to_uint p); done.
Qed.

End ParseFacts.

Module FilterDateFacts.
Import JS JSString JSDate JSParse HubspotRoutes DateFacts DayNumberFacts ParseFacts.

Lemma Date_UTC_valid (now : civil) : valid now → 100 <= year now → Date_UTC now = now.
Proof.
  destruct now as [y m d]. unfold valid, Date_UTC. cbn [year month day]. intros [Hm Hd] Hy.
  destruct (Z.leb_spec y 99); [lia|]. rewrite andb_false_r.
  unfold add_days. destruct (Z.leb_spec 0 (d - 1)); [|lia].
  rewrite iter_next_day_in_month by (cbn [year month day]; lia).
  cbn [year month day]. f_equal. lia.
Qed.

Lemma strip_t_plus (rest : string) :
  String.eqb ("t+" +:+ rest) "today" = false
  ∧ strip_prefix "t+" ("t+" +:+ rest) = Some rest.
Proof. split; [done|]. vm_compute. reflexivity. Qed.

(** What [getFilteredDate] gives for an offset, in terms of the range
    of [Date]. *)
Lemma getFilteredDate_offset (now : civil) (n : Z) :
  valid now → 100 <= year now →
  getFilteredDate now ("t+" +:+ decimal n)
  = if (Z.abs (day_number now) <=? 100000000) && (Z.abs (day_number now + n) <=? 100000000)
    then Return (Some (iso_date (add_days now n)))
    else Throw "Invalid time value".
Proof.
  intros Hnow Hy. unfold getFilteredDate. rewrite Date_UTC_valid by done.
  destruct (strip_t_plus (decimal n)) as [-> ->]. by rewrite parseInt_decimal.
Qed.

(** In the years 1970 to 9999 the range of [Date] is far away. *)
Lemma getFilteredDate_today (now : civil) :
  valid now → 1970 <= year now <= 9999 →
  getFilteredDate now "today" = Return (Some (iso_date now)).
Proof.
  intros Hnow Hy. pose proof (day_number_years now Hnow Hy) as Hdn.
  unfold getFilteredDate. rewrite Date_UTC_valid by (done || lia).
  cbn [String.eqb Ascii.eqb Bool.eqb]. unfold in_range.
  by destruct (Z.leb_spec (Z.abs (day_number now)) 100000000); [|lia].
Qed.

Lemma getFilteredDate_near (now : civil) (k : Z) :
  valid now → 1970 <= year now <= 9999 → -1000000 <= k <= 1000000 →
  getFilteredDate now ("t+" +:+ decimal k) = Return (Some (iso_date (add_days now k))).
Proof.
  intros Hnow Hy Hk. pose proof (day_number_years now Hnow Hy) as Hdn.
  rewrite getFilteredDate_offset by (done || lia).
  destruct (Z.leb_spec (Z.abs (day_number now)) 100000000); [|lia].
  by destruct (Z.leb_spec (Z.abs (day_number now + k)) 100000000); [|lia].
Qed.

(** X22. For a day [now] of the years 1970 to 9999 and an offset of a
    million days at most, either way, [getFilteredDate] gives the date
    of that day for "today" and the date of the day [n] days later for
    "t+n", in the form YYYY-MM-DD of [toISOString]; "t+0" is today, and
    a negative [n] written after the "t+" gives a day before. *)
Theorem getFilteredDate_offsets (now : civil) (n : Z) :
  valid now → 1970 <= year now <= 9999 → -1000000 <= n <= 1000000 →
  getFilteredDate now "today" = Return (Some (iso_date now))
  ∧ getFilteredDate now ("t+" +:+ decimal n) = Return (Some (iso_date (add_days now n)))
  ∧ day_number (add_days now n) = day_number now + n
  ∧ getFilteredDate now "t+0" = getFilteredDate now "today".
Proof.
  intros Hnow Hy Hn.
  pose proof (getFilteredDate_today now Hnow Hy) as Htoday.
  split; [done|]. split; [by apply getFilteredDate_near|].
  split; [by apply day_number_add_days|].
  rewrite Htoday. change "t+0" with ("t+" +:+ decimal 0).
  by rewrite getFilteredDate_near by (done || lia).
Qed.

(** The 27th of February 2025, and two days on. *)
Lemma getFilteredDate_offsets_witness :
  getFilteredDate (Civil 2025 1 27) "today" = Return (Some "2025-02-27")
  ∧ getFilteredDate (Civil 2025 1 27) "t+2" = Return (Some "2025-03-01").
Proof.
  destruct (getFilteredDate_offsets (Civil 2025 1 27) 2) as (Htoday & Hoffset & _).
  - repeat split; vm_compute; discriminate.
  - simpl. lia.
  - lia.
  - split; [exact Htoday|exact Hoffset].
Defined.

(** X23. Every day filter that the route [/create-lists] accepts, apart
    from "all", gives a date, of today or of one, two or three days
    later: the answer "Invalid date filter value" of the route cannot
    come. "all" itself, like any filter that is not "today" and does not
    begin with "t+", gives no date. *)
Theorem accepted_filters_give_dates (now : civil) :
  valid now → 1970 <= year now <= 9999 →
  (∀ daysFilter, daysFilter ∈ validDaysFilters → daysFilter ≠ "all" →
     ∃ k, 0 <= k <= 3
       ∧ getFilteredDate now daysFilter = Return (Some (iso_date (add_days now k))))
  ∧ getFilteredDate now "all" = Return None
  ∧ (∀ daysFilter, daysFilter ≠ "today" → strip_prefix "t+" daysFilter = None →
       getFilteredDate now daysFilter = Return None).
Proof.
  intros Hnow Hy.
  assert (Hone : ∀ k, 0 <= k <= 3 →
            getFilteredDate now ("t+" +:+ decimal k)
            = Return (Some (iso_date (add_days now k)))).
  { intros k Hk. apply getFilteredDate_near; [done|done|lia]. }
  pose proof (getFilteredDate_today now Hnow Hy) as Htoday.
  split; [|split].
  - intros daysFilter Hin Hall. unfold validDaysFilters in Hin.
    repeat (apply elem_of_cons in Hin as [->|Hin]); [| | | |done|by apply elem_of_nil in Hin].
    + exists 0. split; [lia|]. by rewrite Htoday.
    + exists 1. split; [lia|]. apply (Hone 1). lia.
    + exists 2. split; [lia|]. apply (Hone 2). lia.
    + exists 3. split; [lia|]. apply (Hone 3). lia.
  - done.
  - intros daysFilter Hne Hstrip. unfold getFilteredDate. rewrite Hstrip.
    by destruct (String.eqb_spec daysFilter "today").
Qed.

(** New Year's Eve of 2025: "t+1" is the first of January. *)
Lemma accepted_filters_give_dates_witness :
  getFilteredDate (Civil 2025 11 31) "all" = Return None
  ∧ ∃ k, 0 <= k <= 3
      ∧ getFilteredDate (Civil 2025 11 31) "t+1"
        = Return (Some (iso_date (add_days (Civil 2025 11 31) k))).
Proof.
  destruct (accepted_filters_give_dates (Civil 2025 11 31)) as (Hdates & Hall & _).
  - repeat split; vm_compute; discriminate.
  - simpl. lia.
  - split; [exact Hall|]. apply Hdates; [|done]. unfold validDaysFilters. set_solver.
Defined.

(** X24. [formatDateForDisplay] writes the date as [getFormattedDate]
    does, then the time on the clock of twelve hours: the hour shown is
    from 1 to 12, midnight and noon being 12, with AM before noon and PM
    from noon on, so that the hour of the day can be told from the two;
    the minutes are in two digits. *)
Theorem display_clock (f : fields) :
  0 <= month (on f) <= 11 → 0 <= hours f < 24 →
  ∃ hour ampm,
    formatDateForDisplay (Some f)
    = Hubspot.getFormattedDate (Some f) +:+ " " +:+ decimal hour +:+ ":"
        +:+ padStart 2 (decimal (minutes f)) +:+ ampm
    ∧ 1 <= hour <= 12
    ∧ (ampm = "AM" ∧ hours f = hour mod 12 ∨ ampm = "PM" ∧ hours f = hour mod 12 + 12).
Proof.
  intros Hm Hh. unfold formatDateForDisplay, Hubspot.getFormattedDate.
  destruct (monthNames !! Z.to_nat (month (on f))) as [name|] eqn:Hname.
  2: { apply lookup_ge_None in Hname. simpl in Hname. lia. }
  cbn [default]. eexists _, _. split.
  { rewrite !StringFacts.append_assoc. reflexivity. }
  rewrite Z.rem_mod_nonneg by lia.
  pose proof (Z.mod_pos_bound (hours f) 12 ltac:(lia)).
  pose proof (Z.div_mod (hours f) 12 ltac:(lia)).
  destruct (Z.eqb_spec (hours f mod 12) 0), (Z.leb_spec 12 (hours f));
    (split; [lia|]); rewrite ?Z.mod_same, ?Z.mod_mod by lia.
  - right. split; [done|lia].
  - left. split; [done|lia].
  - right. split; [done|lia].
  - left. split; [done|lia].
Qed.

(** Seven minutes past midnight, and half past one in the afternoon. *)
Lemma display_clock_witness :
  formatDateForDisplay (Some (Fields (Civil 2025 2 5) 0 7)) = "5 Mar 2025 12:07AM"
  ∧ ∃ hour ampm,
      formatDateForDisplay (Some (Fields (Civil 2025 2 5) 13 30))
      = Hubspot.getFormattedDate (Some (Fields (Civil 2025 2 5) 13 30)) +:+ " "
          +:+ decimal hour +:+ ":" +:+ padStart 2 (decimal 30) +:+ ampm
      ∧ 1 <= hour <= 12
      ∧ (ampm = "AM" ∧ 13 = hour mod 12 ∨ ampm = "PM" ∧ 13 = hour mod 12 + 12).
Proof.
  split; [reflexivity|].
  apply (display_clock (Fields (Civil 2025 2 5) 13 30)); simpl; lia.
Defined.

End FilterDateFacts.

(** ** The route that includes a list in an email *)

Module IncludeListFacts.
Import JS JSFacts IncludeList FetchResultFacts.

(** X25. The route [/include-list-in-email] writes to the email only
    when it is a draft that does not include the list yet: for an email
    in another state, or one that includes the list already, no [PUT] is
    sent. Including a list twice is including it once: on an email that
    holds the lists of a successful answer, the route answers "already
    included" and writes nothing. *)
Theorem include_list_writes_once api emailId listId currentEmail :
  email_get api emailId = Ok currentEmail →
  (∀ s, state currentEmail = Some s → s ≠ "" → s ≠ "DRAFT" →
     include_list_in_email api emailId listId = ([], NotDraft s))
  ∧ ((state currentEmail = None ∨ state currentEmail = Some ""
      ∨ state currentEmail = Some "DRAFT") →
     listId ∈ mailingListsIncluded currentEmail →
     include_list_in_email api emailId listId = ([], AlreadyIncluded))
  ∧ (∀ puts included excluded api' current',
       include_list_in_email api emailId listId = (puts, Included included excluded) →
       email_get api' emailId = Ok current' →
       state current' = state currentEmail →
       mailingListsIncluded current' = included →
       include_list_in_email api' emailId listId = ([], AlreadyIncluded)).
Proof.
  intros Hget.
  assert (Hdraft : (state currentEmail = None ∨ state currentEmail = Some ""
                    ∨ state currentEmail = Some "DRAFT") →
            truthy (state currentEmail)
            && negb (String.eqb (default "" (state currentEmail)) "DRAFT") = false).
  { by intros [->|[->| ->]]. }
  split; [|split].
  - intros s Hs Hne Hnd. unfold include_list_in_email. rewrite Hget, Hs. simpl.
    destruct (String.eqb_spec s ""); [done|]. by destruct (String.eqb_spec s "DRAFT").
  - intros Hstate Hin. unfold include_list_in_email. rewrite Hget, (Hdraft Hstate).
    by rewrite bool_decide_eq_true_2 by by apply elem_of_unique.
  - intros puts included excluded api' current' Hrun Hget' Hstate' Hincluded.
    unfold include_list_in_email in Hrun. rewrite Hget in Hrun.
    destruct (truthy (state currentEmail) && _) eqn:Hd; [done|].
    case_bool_decide as Hin; [done|].
    destruct (email_put api emailId _); [|done]. injection Hrun as _ <- _.
    unfold include_list_in_email. rewrite Hget', Hstate', Hd, Hincluded.
    rewrite bool_decide_eq_true_2; [done|].
    rewrite !elem_of_unique, elem_of_app, list_elem_of_singleton. by right.
Qed.

(** An email that includes the lists 12 and 31189. *)
Lemma include_list_writes_once_witness :
  let api := Remote (fun _ => Ok (Email (Some "DRAFT") ["12"; "31189"] []))
                    (fun _ _ => Failed (HttpError "never sent" None None)) in
  include_list_in_email api "77" "31189" = ([], AlreadyIncluded).
Proof.
  intros api.
  destruct (include_list_writes_once api "77" "31189" (Email (Some "DRAFT") ["12"; "31189"] []))
    as (_ & H & _); [reflexivity|].
  apply H; [by right; right|]. set_solver.
Defined.

(** X26. When the route includes a list, the lists it writes are the
    lists the email included, each once and in their order, followed by
    the new list: none is lost and none is there twice. The excluded
    lists are written back as they were, and left out of the body when
    there are none. *)
Theorem include_list_payload api emailId listId currentEmail puts included excluded :
  email_get api emailId = Ok currentEmail →
  include_list_in_email api emailId listId = (puts, Included included excluded) →
  included = unique (mailingListsIncluded currentEmail) ++ [listId]
  ∧ NoDup included
  ∧ (listId ∉ mailingListsIncluded currentEmail)
  ∧ (∀ id, id ∈ mailingListsIncluded currentEmail → id ∈ included)
  ∧ excluded = mailingListsExcluded currentEmail
  ∧ puts = [UpdatePayload included
              (if decide (excluded = []) then None else Some excluded)].
Proof.
  intros Hget Hrun. unfold include_list_in_email in Hrun. rewrite Hget in Hrun.
  destruct (truthy (state currentEmail) && _); [done|].
  case_bool_decide as Hin; [done|]. rewrite elem_of_unique in Hin.
  destruct (email_put api emailId _); [|done]. injection Hrun as <- <- <-.
  assert (Hnd : NoDup (unique (mailingListsIncluded currentEmail) ++ [listId])).
  { apply NoDup_app. split; [apply unique_distinct|]. split; [|apply NoDup_singleton].
    intros id Hid ->%list_elem_of_singleton. by rewrite elem_of_unique in Hid. }
  rewrite (unique_NoDup _ Hnd). split; [done|]. split; [done|]. split; [done|].
  split; [|split; [done|]].
  - intros id Hid. rewrite elem_of_app, elem_of_unique. by left.
  - do 2 f_equal. by destruct (mailingListsExcluded currentEmail).
Qed.

(** A draft that includes the list 12 twice and excludes 6591. *)
Lemma include_list_payload_witness :
  let api := Remote (fun _ => Ok (Email None ["12"; "12"] ["6591"])) (fun _ _ => Ok ()) in
  include_list_in_email api "77" "40" = ([UpdatePayload ["12"; "40"] (Some ["6591"])],
                                          Included ["12"; "40"] ["6591"])
  ∧ NoDup ["12"; "40"].
Proof.
  intros api. split; [reflexivity|].
  destruct (include_list_payload api "77" "40" (Email None ["12"; "12"] ["6591"])
              [UpdatePayload ["12"; "40"] (Some ["6591"])] ["12"; "40"] ["6591"])
    as (_ & H & _); [reflexivity|reflexivity|exact H].
Defined.

End IncludeListFacts.

(** ** The two copies of the pipeline and of the scheduler, side by side *)

Module CopyFacts.
Import JS JSFacts Chunks ChunkFacts Hubspot.

(** The earlier loop, its requests failing from the rank after [rank]
    on: it ends when the counter reaches the limit, by what it holds. *)
Lemma legacy_fetch_loop_errors RETRIEVAL_BATCH_SIZE MAX_RETRIES api listId maxCount
    (message : nat → string) (allContacts : list Z) (offset : Z) :
  ∀ (fuel : nat) (hasMore : bool) (retryCount : Z) (rank : nat),
  (∀ k count off, (rank < k)%nat → list_page api listId k count off = Throw (message k)) →
  (Z.to_nat (MAX_RETRIES - retryCount) <= fuel)%nat →
  HubspotLegacy.fetch_loop RETRIEVAL_BATCH_SIZE MAX_RETRIES api fuel listId maxCount
    allContacts hasMore offset retryCount rank
  = Some (Return (unique allContacts)).
Proof.
  induction fuel as [|fuel IH]; intros hasMore retryCount rank Herr Hfuel;
    cbn [HubspotLegacy.fetch_loop].
  - destruct (Z.ltb_spec retryCount MAX_RETRIES); [lia|]. by rewrite andb_false_r.
  - destruct (_ && _ && _); [|done].
    rewrite Herr by lia. apply IH; [|lia].
    intros k count off Hk. apply Herr. lia.
Qed.

(** C2. In a fetch whose page requests fail one after the other, from
    any point reached with [allContacts] collected and with the counter
    of failures below the limit. The fetch of lines 75-144 does what the
    claim says: when the counter reaches [MAX_RETRIES] it returns the
    identifiers collected so far, without an error, if there is one at
    least, and fails with an error that carries the message of the last
    request if there is none. The earlier fetch of lines 839-875 returns
    what it has collected in either case: with nothing collected it
    returns the empty list and signals no error. *)
Theorem fetch_exhausted_in_both_copies RETRIEVAL_BATCH_SIZE MAX_RETRIES api listId maxCount
    (message : nat → string) (allContacts : list Z) (offset consecutiveErrors : Z)
    (totalAttempts fuel : nat) :
  below (length allContacts) maxCount = true →
  0 <= consecutiveErrors < MAX_RETRIES →
  (∀ k count off, (totalAttempts < k)%nat →
     list_page api listId k count off = Throw (message k)) →
  (Z.to_nat (MAX_RETRIES - consecutiveErrors) <= fuel)%nat →
  let last := (totalAttempts + Z.to_nat (MAX_RETRIES - consecutiveErrors))%nat in
  Hubspot.fetch_loop RETRIEVAL_BATCH_SIZE MAX_RETRIES api fuel listId maxCount
    allContacts true offset consecutiveErrors totalAttempts
  = Some (if 0 <? Z.of_nat (length allContacts)
          then Return (unique allContacts)
          else Throw ("Unable to fetch contacts from list " +:+ JSString.decimal listId +:+ ": "
                        +:+ message last))
  ∧ HubspotLegacy.fetch_loop RETRIEVAL_BATCH_SIZE MAX_RETRIES api fuel listId maxCount
      allContacts true offset consecutiveErrors totalAttempts
    = Some (Return (unique allContacts)).
Proof.
  intros Hbelow Hce Herr Hfuel last. split.
  - by rewrite (FetchFacts.fetch_loop_errors _ _ _ _ _ message allContacts offset Hbelow
                  (Z.to_nat (MAX_RETRIES - consecutiveErrors))) by (done || lia).
  - by apply (legacy_fetch_loop_errors _ _ _ _ _ message).
Qed.

(** Every request times out, the limit is the default 3 and nothing is
    collected: the fetch of lines 75-144 fails at the third request, the
    earlier one returns the empty list. *)
Lemma fetch_exhausted_in_both_copies_witness :
  Hubspot.getContactsFromList 1000 (parseInt_or None 3) (Doubles.source_api [] (fun _ => true))
    3 7 (Finite 500)
  = Some (Throw "Unable to fetch contacts from list 7: timeout")
  ∧ HubspotLegacy.getContactsFromList 1000 (parseInt_or None 3)
      (Doubles.source_api [] (fun _ => true)) 3 7 (Finite 500)
    = Some (Return []).
Proof.
  apply (fetch_exhausted_in_both_copies 1000 (parseInt_or None 3)
           (Doubles.source_api [] (fun _ => true)) 7 (Finite 500) (fun _ => "timeout")
           [] 0 0 0 3).
  - reflexivity.
  - simpl. lia.
  - intros k count off Hk. reflexivity.
  - simpl. lia.
Defined.

(** C4. The upload of lines 161-211 does what the claim says: whatever
    the remote answers it returns and raises nothing; with no identifier
    it returns at once, without a request; with a retry limit of one or
    more every chunk is either added or, its retries exhausted, recorded
    as failed, and the chunks after it are still sent. The earlier upload
    of lines 892-908 sends each chunk once and raises the error of the
    first chunk that the remote refuses: the chunks after it are not
    sent. *)
Theorem upload_in_both_copies MAX_RETRIES api listId (contacts : list Z) :
  (∃ u, Hubspot.addContactsToList MAX_RETRIES api listId contacts = Return u
     ∧ (contacts = [] → u = Upload 0 [] 0)
     ∧ (1 <= MAX_RETRIES →
        successCount u + Z.of_nat (length (concat (failedChunks u)))
        = Z.of_nat (length contacts))
     ∧ (1 <= MAX_RETRIES →
        ∀ bad : list Z → bool,
        (∀ rank chunk, list_add api listId rank chunk = Return () ↔ bad chunk = false) →
        failedChunks u
        = filter (fun c => bad c = true) (progressiveChunks contacts default_sizes)
        ∧ successCount u
          = Z.of_nat (length (concat (filter (fun c => bad c = false)
                                        (progressiveChunks contacts default_sizes))))))
  ∧ (∀ (j : nat) chunk message,
       progressiveChunks contacts default_sizes !! j = Some chunk →
       (∀ (i : nat) c, (i < j)%nat →
          progressiveChunks contacts default_sizes !! i = Some c →
          list_add api listId (S i) c = Return ()) →
       list_add api listId (S j) chunk = Throw message →
       HubspotLegacy.addContactsToList api listId contacts = Throw message).
Proof.
  split; [apply UploadFacts.addContactsToList_never_raises|].
  intros j chunk message Hj Hbefore Hfail. unfold HubspotLegacy.addContactsToList.
  by apply (LegacyRunFacts.legacy_add_chunks_abort api listId _ 0 j chunk).
Qed.

(** 1300 identifiers go in five chunks and the remote refuses the third
    at every attempt: the upload of lines 161-211 returns with that one
    chunk failed and the other 1000 identifiers added, the earlier one
    raises the error of the third chunk. *)
Lemma upload_in_both_copies_witness :
  let bad chunk := bool_decide (chunk = ids 601 300) in
  (∃ u, Hubspot.addContactsToList 3 (Doubles.upload_api (fun _ => []) bad) 9 (ids 1 1300)
        = Return u
     ∧ failedChunks u = [ids 601 300]
     ∧ successCount u = 1000)
  ∧ HubspotLegacy.addContactsToList (Doubles.upload_api (fun _ => []) bad) 9 (ids 1 1300)
    = Throw "Bad Request".
Proof.
  intros bad.
  destruct (upload_in_both_copies 3 (Doubles.upload_api (fun _ => []) bad) 9 (ids 1 1300))
    as [(u & Hu & _ & _ & H) Hearlier].
  split.
  - exists u. split; [exact Hu|].
    destruct (H ltac:(lia) bad) as [-> ->].
    + intros rank chunk. simpl. destruct (bad chunk); split; congruence.
    + split; vm_compute; reflexivity.
  - apply (Hearlier 2%nat (ids 601 300) "Bad Request").
    + vm_compute. reflexivity.
    + intros [|[|i]] c Hi Hc; [| |lia]; vm_compute in Hc; injection Hc as <-; reflexivity.
    + reflexivity.
Defined.

(** C7. In [src/unnamed/part_000] the smart strategy does what the claim
    says: the slot of index [i] of a day is in the morning hour, 11, at
    minute [5 × i], when [i < 12], and otherwise in the afternoon tier,
    which starts at hour 16, at 5 minutes a slot counted from the start
    of the tier, the minutes from 60 on rolled into the hour; and the
    pair of a day and of the source at position [i], when every source
    has a name, is planned at that slot. In [routes/cloner.js] the
    morning is the same, but the counter of minutes is not advanced in
    the afternoon: every pair with [i ≥ 12] is put at 16:00, the pair of
    index 13 for one, which the claim has at 16:05. *)
Theorem smart_schedule_in_both_copies legacy customOptions :
  (∀ i : nat,
     Cloner.slot_at Cloner.Smart customOptions i
     = if Z.of_nat i <? 12 then (11, 5 * Z.of_nat i)
       else (16 + (5 * (Z.of_nat i - 12)) / 60, (5 * (Z.of_nat i - 12)) mod 60))
  ∧ (∀ hour minute, 0 <= minute →
       Cloner.roll hour minute = (hour + minute / 60, minute mod 60))
  ∧ (∀ emailInfoMap emailIds days p day (i : nat) emailId originalEmailName
       newEmailName clonedDate,
       Cloner.all_named emailIds emailInfoMap →
       day ∈ days →
       emailIds !! i = Some emailId →
       emailInfoMap !! emailId = Some originalEmailName →
       Cloner.clone_name legacy originalEmailName day
         (Cloner.slot_at Cloner.Smart customOptions i).1
         (Cloner.slot_at Cloner.Smart customOptions i).2
       = Some (newEmailName, clonedDate) →
       NoDup (Cloner.emailNamesToCheck
                (Cloner.plan_days legacy Cloner.Smart customOptions days emailIds
                   emailInfoMap p)) →
       Cloner.emailScheduleMap
         (Cloner.plan_days legacy Cloner.Smart customOptions days emailIds emailInfoMap p)
         !! newEmailName
       = Some (Cloner.Schedule emailId day (Cloner.slot_at Cloner.Smart customOptions i).1
                 (Cloner.slot_at Cloner.Smart customOptions i).2 clonedDate
                 originalEmailName))
  ∧ (∀ i : nat,
       ClonerLegacy.slot_at Cloner.Smart i
       = if Z.of_nat i <? 12 then (11, 5 * Z.of_nat i) else (16, 0))
  ∧ Cloner.slot_at Cloner.Smart customOptions 13 = (16, 5)
  ∧ ClonerLegacy.slot_at Cloner.Smart 13 = (16, 0).
Proof.
  split; [apply SlotFacts.smart_slot_at|]. split; [apply SlotFacts.roll_nonneg|].
  split.
  { intros emailInfoMap emailIds days p day i emailId originalEmailName newEmailName
      clonedDate Hnamed Hday Hi Hinfo Hname Hnd.
    by apply (SlotFacts.plan_days_entry legacy Cloner.Smart customOptions emailInfoMap
                emailIds days p day i). }
  split; [|split; [by rewrite SlotFacts.smart_slot_at|apply LegacyFacts.legacy_smart_afternoon; lia]].
  intros i. destruct (Z.ltb_spec (Z.of_nat i) 12).
  - unfold ClonerLegacy.slot_at. rewrite LegacyFacts.legacy_smart_morning by lia.
    unfold ClonerLegacy.next_slot, Cloner.MAX_MORNING_SLOTS.
    by destruct (Z.ltb_spec (Z.of_nat i) 12); [|lia].
  - apply LegacyFacts.legacy_smart_afternoon. lia.
Qed.

(** Fourteen sources, one day: in [src/unnamed/part_000] the source at
    position 13 is planned at 16:05 on the day after its date. *)
Lemma smart_schedule_in_both_copies_witness :
  Cloner.emailScheduleMap
    (Cloner.plan_days ClonerDoubles.strict Cloner.Smart (Cloner.CustomOptions None None None)
       [1] (Chunks.ids 1 14) (ClonerDoubles.numbered_info 14) (Cloner.Plan 0 0 [] ∅))
    !! "Mail 14 - 06 Mar 2025"
  = Some (Cloner.Schedule 14 1 16 5
            (Some (JSDate.Fields (JSDate.Civil 2025 2 6) 16 5)) "Mail 14 - 05 Mar 2025").
Proof.
  destruct (smart_schedule_in_both_copies ClonerDoubles.strict
              (Cloner.CustomOptions None None None)) as (_ & _ & H & _).
  apply (H (ClonerDoubles.numbered_info 14) (Chunks.ids 1 14) [1] (Cloner.Plan 0 0 [] ∅) 1
           13%nat 14 "Mail 14 - 05 Mar 2025" "Mail 14 - 06 Mar 2025").
  - intros emailId Hid. exists (ClonerDoubles.numbered emailId).
    repeat (apply elem_of_cons in Hid as [->|Hid]; [split; vm_compute; reflexivity|]).
    by apply elem_of_nil in Hid.
  - left.
  - reflexivity.
  - vm_compute. reflexivity.
  - vm_compute. reflexivity.
  - apply (bool_decide_unpack _). vm_compute. exact I.
Defined.

End CopyFacts.

(** ** The three layers of the duplicate check *)

Module ThreeLayerFacts.
Import JS JSFacts Chunks ChunkFacts Cloner DuplicateFacts SearchRequests.

Section Requests.
Variable api : remote.




Lemma sent_by_shift rank batch :
  sent_by rank batch = prod_map (Nat.add rank) id <$> sent_by 0 batch.
Proof.
  unfold sent_by. rewrite fmap_imap. apply imap_ext. by intros j x _.
Qed.



Lemma length_sent_by rank batch : length (sent_by rank batch) = length batch.
Proof. unfold sent_by. apply length_imap. Qed.




End Requests.
Section Run.
Variable legacy : string → JSDate.Date.
Variable api : remote.
Variable s : strategy.
Variable customOptions : custom_options.




(** *** The checks of [routes/cloner.js], one name at a time *)




End Run.




End ThreeLayerFacts.
